(** * tike.scan: adaptive trajectory sampling and probe decomposition

    A shallow embedding of [src/tike/scan.py].

    Numbers.  The Python code computes with IEEE doubles.  Here every float
    is a real number ([R] of the Standard Library): [+], [-], [*], [/],
    [min], [np.floor], [np.ceil], [np.sqrt], [np.cos] and [np.sin] are the
    exact operations, so the statements below are about the algorithm, not
    about rounding.  Comparisons are decided with [Rlt_dec] and [Rle_dec]
    ([Rltb], [Rleb]).

    Effects.  A Python exception is a value [Raise e] of the type [outcome];
    the [while] loop of [discrete_trajectory] is a function of a fuel
    counter that returns [OutOfFuel] when the fuel runs out before the loop
    condition fails; [Probe.line_offsets] writes [self.line_width], so it
    returns the updated probe next to its result. *)

From Stdlib Require Import Reals Lra Lia List ZArith Bool Sorted.
Import ListNotations.
Open Scope R_scope.

(** ** Exceptions and outcomes *)

Inductive exn : Type :=
  | NotImplementedError
  | RuntimeError
  | AssertionError
  | ValueError
  | ZeroDivisionError
  | TypeError.

(** What a call does: it returns a value, it raises, or (for the loop of
    [discrete_trajectory] only) the fuel ran out before it did either. *)
Inductive outcome (A : Type) : Type :=
  | Return (a : A)
  | Raise (e : exn)
  | OutOfFuel.
Arguments Return {A} a.
Arguments Raise {A} e.
Arguments OutOfFuel {A}.

Definition bind {A B : Type} (m : outcome A) (k : A -> outcome B) : outcome B :=
  match m with
  | Return a => k a
  | Raise e => Raise e
  | OutOfFuel => OutOfFuel
  end.

Declare Scope outcome_scope.
Delimit Scope outcome_scope with outcome.
Notation "x <- m ;; k" := (bind m (fun x => k))
  (at level 61, m at next level, right associativity) : outcome_scope.
Notation "' p <- m ;; k" := (bind m (fun p => k))
  (at level 61, p pattern, m at next level, right associativity) : outcome_scope.

(** ** Vectors and matrices of [numpy] *)

Definition vec3 : Type := (R * R * R)%type.
(** A 3 x 3 array, as its three rows. *)
Definition mat3 : Type := (vec3 * vec3 * vec3)%type.

Definition vadd (a b : vec3) : vec3 :=
  let '(a0, a1, a2) := a in
  let '(b0, b1, b2) := b in
  (a0 + b0, a1 + b1, a2 + b2).

Definition vsub (a b : vec3) : vec3 :=
  let '(a0, a1, a2) := a in
  let '(b0, b1, b2) := b in
  (a0 - b0, a1 - b1, a2 - b2).

(** [d.dot(d')] on two vectors. *)
Definition vdot (a b : vec3) : R :=
  let '(a0, a1, a2) := a in
  let '(b0, b1, b2) := b in
  a0 * b0 + a1 * b1 + a2 * b2.

(** [np.dot(a, M)] for a vector [a] and a matrix [M]: entry [j] of the
    result is the sum over [i] of [a[i] * M[i, j]]. *)
Definition vec_dot_mat (a : vec3) (M : mat3) : vec3 :=
  let '(a0, a1, a2) := a in
  let '((m00, m01, m02), (m10, m11, m12), (m20, m21, m22)) := M in
  (a0 * m00 + a1 * m10 + a2 * m20,
   a0 * m01 + a1 * m11 + a2 * m21,
   a0 * m02 + a1 * m12 + a2 * m22).

(** [np.dot(M, a)]: the matrix [M] applied to the column vector [a]. *)
Definition mat_dot_vec (M : mat3) (a : vec3) : vec3 :=
  let '(a0, a1, a2) := a in
  let '((m00, m01, m02), (m10, m11, m12), (m20, m21, m22)) := M in
  (m00 * a0 + m01 * a1 + m02 * a2,
   m10 * a0 + m11 * a1 + m12 * a2,
   m20 * a0 + m21 * a1 + m22 * a2).

Definition eye3 : mat3 := ((1, 0, 0), (0, 1, 0), (0, 0, 1)).

(** [R[i, j] = x] for the four entries the source assigns. *)
Definition set00 (M : mat3) (x : R) : mat3 :=
  let '((_, m01, m02), r1, r2) := M in ((x, m01, m02), r1, r2).
Definition set01 (M : mat3) (x : R) : mat3 :=
  let '((m00, _, m02), r1, r2) := M in ((m00, x, m02), r1, r2).
Definition set10 (M : mat3) (x : R) : mat3 :=
  let '(r0, (_, m11, m12), r2) := M in (r0, (x, m11, m12), r2).
Definition set11 (M : mat3) (x : R) : mat3 :=
  let '(r0, (m10, _, m12), r2) := M in (r0, (m10, x, m12), r2).

(** ** [thetahv_to_xyz] and [euclidian_dist] *)

(** The default value of the keyword argument [radius]. *)
Definition default_radius : R := 0.75.

Definition thetahv_to_xyz (thv_coords : vec3) (radius : R) : vec3 :=
  let '(theta, h, v) := thv_coords in
  let R0 := eye3 in
  let R1 := set00 R0 (cos theta) in
  let R2 := set01 R1 (- sin theta) in
  let R3 := set10 R2 (sin theta) in
  let R4 := set11 R3 (cos theta) in
  vec_dot_mat (radius, h, v) R4.

Definition euclidian_dist (a b : vec3) : R :=
  let d := vsub (thetahv_to_xyz a default_radius)
                (thetahv_to_xyz b default_radius) in
  sqrt (vdot d d).

(** The rotation by the angle [theta] about the third axis, as the spec
    words it: the standard matrix [R_z(theta)], applied to a column. *)
Definition R_z (theta : R) : mat3 :=
  ((cos theta, - sin theta, 0),
   (sin theta, cos theta, 0),
   (0, 0, 1)).

Definition rotate_z (theta : R) (p : vec3) : vec3 := mat_dot_vec (R_z theta) p.

(** ** Scalars of Python and [numpy] *)

(** The comparisons [x < y], [x <= y] and [x == y] as booleans. *)
Definition Rltb (x y : R) : bool := if Rlt_dec x y then true else false.
Definition Rleb (x y : R) : bool := if Rle_dec x y then true else false.
Definition Reqb (x y : R) : bool := if Req_dec_T x y then true else false.

(** [a / b] on Python floats: a zero divisor raises.  (When the divisor is
    a [numpy] scalar the quotient is infinite or undefined instead, and the
    conversion [int] that follows raises; the statements below are about
    nonzero divisors.) *)
Definition pdiv (a b : R) : outcome R :=
  if Req_dec_T b 0 then Raise ZeroDivisionError else Return (a / b).

(** [int(x)] on a float: rounding toward zero. *)
Definition int_of (x : R) : Z :=
  if Rle_dec 0 x then Zfloor x else Zceil x.

(** [x % p] of [numpy] on floats: the remainder has the sign of [p]. *)
Definition np_mod (x p : R) : R := x - IZR (Zfloor (x / p)) * p.

(** [np.linspace(start, stop, num, endpoint=False)]: [num] samples
    [start + i * step] with [step = (stop - start) / num]; a negative
    [num] is refused. *)
Definition linspace (start stop : R) (num : Z) : outcome (list R) :=
  if (num <? 0)%Z then Raise ValueError
  else Return (map (fun i => start + INR i * ((stop - start) / IZR num))
                   (seq 0 (Z.to_nat num))).

(** [np.meshgrid(gh, gv, indexing='xy')]: two arrays of [len(gv)] rows and
    [len(gh)] columns, the first repeating [gh] in every row, the second
    holding [gv[i]] all along row [i]. *)
Definition meshgrid_xy (gh gv : list R) : list (list R) * list (list R) :=
  (map (fun _ => gh) gv, map (fun v => map (fun _ => v) gh) gv).

(** [a.flatten()] of a two-dimensional array, row by row. *)
Definition flatten (a : list (list R)) : list R := concat a.

Definition sum_list (l : list R) : R := fold_right Rplus 0 l.

(** ** [discrete_trajectory] *)

(** The default value of the keyword argument [max_iter]. *)
Definition default_max_iter : Z := 16%Z.

(** The local variables of [discrete_trajectory].  The three output lists
    grow at their end ([append]); the stack [nextxt] is kept top first, so
    that [append] is a cons and [pop] takes the head. *)
Record walk : Type := {
  w_position : list vec3;
  w_time : list R;
  w_dwell : list R;
  w_nextxt : list (vec3 * R);
  w_x : vec3;
  w_t : R;
  w_tnext : R
}.

Section DiscreteTrajectory.

Variable trajectory : R -> vec3.
Variables tmin tmax dx dt : R.
Variable max_iter : Z.

(** Lines 479-481. *)
Definition walk_init : walk :=
  {| w_position := []; w_time := []; w_dwell := []; w_nextxt := [];
     w_x := trajectory tmin; w_t := tmin;
     w_tnext := Rmin (tmin + dt) tmax |}.

(** Lines 483-490: the candidate [(xnext, tnext)] of this iteration and
    the stack that is left. *)
Definition candidate (s : walk) : outcome (vec3 * R * list (vec3 * R)) :=
  match w_nextxt s with
  | [] => Return (trajectory (w_tnext s), w_tnext s, [])
  | top :: rest =>
      if (max_iter <? Z.of_nat (length (w_nextxt s)))%Z
      then Raise RuntimeError
      else Return (fst top, snd top, rest)
  end.

(** Lines 491-500: the candidate is accepted, or it is pushed back with
    the point halfway in time on top of it. *)
Definition advance (s : walk) (c : vec3 * R * list (vec3 * R)) : walk :=
  let '(xnext, tnext, stack) := c in
  if Rleb (euclidian_dist xnext (w_x s)) dx then
    {| w_position := w_position s ++ [w_x s];
       w_time := w_time s ++ [w_t s];
       w_dwell := w_dwell s ++ [tnext - w_t s];
       w_nextxt := stack;
       w_x := xnext; w_t := tnext;
       w_tnext := Rmin (tnext + dt) tmax |}
  else
    let tmid := (tnext + w_t s) / 2 in
    {| w_position := w_position s;
       w_time := w_time s;
       w_dwell := w_dwell s;
       w_nextxt := (trajectory tmid, tmid) :: (xnext, tnext) :: stack;
       w_x := w_x s; w_t := w_t s;
       w_tnext := tmid |}.

(** One iteration of the loop body. *)
Definition body (s : walk) : outcome walk :=
  bind (candidate s) (fun c => Return (advance s c)).

(** [while t < tmax: body], then [return position, dwell, time]. *)
Fixpoint while (fuel : nat) (s : walk)
  : outcome (list vec3 * list R * list R) :=
  if Rltb (w_t s) tmax then
    match fuel with
    | O => OutOfFuel
    | S fuel' => bind (body s) (while fuel')
    end
  else Return (w_position s, w_dwell s, w_time s).

Definition discrete_trajectory (fuel : nat)
  : outcome (list vec3 * list R * list R) :=
  while fuel walk_init.

(** The states the loop goes through: [s'] is reached from [s] by
    iterations of the body, each entered with [t < tmax]. *)
Inductive iterates : walk -> walk -> Prop :=
  | iterates_refl s : iterates s s
  | iterates_step s s' s'' :
      iterates s s' -> w_t s' < tmax -> body s' = Return s'' ->
      iterates s s''.

End DiscreteTrajectory.

(** ** [Probe] *)

(** What a density profile returns: an integer, as the [1] of the default
    profile, or a float, of Python or of [numpy].  The two differ where a
    Python list is multiplied by the weight. *)
Inductive number : Type :=
  | PyInt (k : Z)
  | PyFloat (x : R).

Record Probe : Type := {
  density_profile : R -> R -> number;
  width : R;
  aspect : R;
  line_width : R
}.

(** [Probe.__init__]: the extent is the pair [(width, aspect)], or absent. *)
Definition Probe_init (profile : option (R -> R -> number))
    (extent : option (R * R)) : Probe :=
  {| density_profile :=
       match profile with
       | None => fun _ _ => PyInt 1
       | Some f => f
       end;
     width := match extent with None => 0.1 | Some e => fst e end;
     aspect := match extent with None => 1 | Some e => snd e end;
     line_width := 1 |}.

(** A method of [Probe]: it reads and writes [self] and has an outcome. *)
Definition method (A : Type) : Type := Probe -> Probe * outcome A.

Definition mret {A : Type} (a : A) : method A := fun self => (self, Return a).

Definition mbind {A B : Type} (m : method A) (k : A -> method B) : method B :=
  fun self =>
    let (self', r) := m self in
    match r with
    | Return a => k a self'
    | Raise e => (self', Raise e)
    | OutOfFuel => (self', OutOfFuel)
    end.

Definition lift {A : Type} (r : outcome A) : method A := fun self => (self, r).

Definition get_self : method Probe := fun self => (self, Return self).

(** The probe [self] after [self.line_width = lw]. *)
Definition with_line_width (self : Probe) (lw : R) : Probe :=
  {| density_profile := density_profile self;
     width := width self;
     aspect := aspect self;
     line_width := lw |}.

Definition set_line_width (lw : R) : method unit :=
  fun self => (with_line_width self lw, Return tt).

Declare Scope method_scope.
Delimit Scope method_scope with method.
Notation "x <- m ;; k" := (mbind m (fun x => k))
  (at level 61, m at next level, right associativity) : method_scope.
Notation "' p <- m ;; k" := (mbind m (fun p => k))
  (at level 61, p pattern, m at next level, right associativity) : method_scope.

(** The [if]/[else] of lines 153-160. *)
Definition fit_line_width (pixel_size : R) : method unit :=
  (self <- get_self ;;
   let width := width self in
   let height := width * aspect self in
   _ <- set_line_width (pixel_size / 16) ;;
   self <- get_self ;;
   if Rltb width (line_width self) || Rltb height (line_width self)
   then lift (Raise NotImplementedError)
   else
     q <- lift (pdiv width (line_width self)) ;;
     let ncells := IZR (Zceil q) in
     lw <- lift (pdiv width ncells) ;;
     set_line_width lw)%method.

(** Lines 161-165: the centres on one axis of length [extent]. *)
Definition axis_offsets (extent line_width : R) : outcome (list R) :=
  (q <- pdiv extent line_width ;;
   g <- linspace 0 extent (int_of q) ;;
   Return (map (fun c => c + (line_width - extent) / 2) g))%outcome.

(** [Probe.line_offsets(pixel_size)]; the argument [N] is not used by the
    source. *)
Definition line_offsets (pixel_size : R) : method (list (vec3 * number)) :=
  (self <- get_self ;;
   let width := width self in
   let height := width * aspect self in
   _ <- fit_line_width pixel_size ;;
   self <- get_self ;;
   gh <- lift (axis_offsets width (line_width self)) ;;
   gv <- lift (axis_offsets height (line_width self)) ;;
   let offsets := meshgrid_xy gh gv in
   let h := flatten (fst offsets) in
   let v := flatten (snd offsets) in
   let thv := map (fun hv => (0, fst hv, snd hv)) (combine h v) in
   mret (map (fun row : vec3 =>
                (row, density_profile self (snd (fst row)) (snd row)))
             thv))%method.

(** [np.concatenate([position, column], axis=1)] for the list [position]
    of rows and a column: the rows extended by one entry.  An empty
    [position] is a one-dimensional array and is refused, as are two
    arrays of different height. *)
Definition concatenate_columns (position : list vec3) (column : list R)
  : outcome (list (vec3 * R)) :=
  match position with
  | [] => Raise ValueError
  | _ :: _ =>
      if Nat.eqb (length position) (length column)
      then Return (combine position column)
      else Raise ValueError
  end.

(** [dwell * weight] for the Python list [dwell]: an integer repeats the
    list that many times (not at all when it is zero or negative), and a
    float is refused. *)
Definition list_times (dwell : list R) (weight : number)
  : outcome (list R) :=
  match weight with
  | PyInt k => Return (concat (repeat dwell (Z.to_nat k)))
  | PyFloat _ => Raise TypeError
  end.

(** The [for] loop of lines 199-208, [positions] being the list built so
    far.  [np.atleast_2d(...).T] makes a column of the list that
    [dwell * weight] gives. *)
Fixpoint procedure_loop (fuel : nat) (trajectory : R -> vec3)
    (tmin tmax dx dt : R) (lines : list (vec3 * number))
    (positions : list (list (vec3 * R)))
  : outcome (list (list (vec3 * R))) :=
  match lines with
  | [] => Return positions
  | (offset, weight) :: lines' =>
      let line_trajectory := fun t => vadd (trajectory t) offset in
      ('(position, dwell, none) <-
         discrete_trajectory line_trajectory tmin tmax dx dt
                             default_max_iter fuel ;;
       column <- list_times dwell weight ;;
       position' <- concatenate_columns position column ;;
       procedure_loop fuel trajectory tmin tmax dx dt lines'
                      (positions ++ [position']))%outcome
  end.

(** [Probe.procedure(trajectory, pixel_size, tmin, tmax, dt)]. *)
Definition procedure (fuel : nat) (trajectory : R -> vec3)
    (pixel_size tmin tmax dt : R) : method (list (list (vec3 * R))) :=
  (lines <- line_offsets pixel_size ;;
   self <- get_self ;;
   let dx := line_width self in
   lift (procedure_loop fuel trajectory tmin tmax dx dt lines []))%method.

(** ** [coverage_approx] *)

(** What is handed to the accumulation kernel [coverage]: the shape of the
    preallocated [coverage_map] and the scaled columns of the procedure. *)
Record kernel_call : Type := {
  coverage_map_shape : list Z;
  k_theta : list R;
  k_h : list R;
  k_v : list R;
  line_weight : list R
}.

Inductive warning : Type :=
  | UserWarning.

(** [np.any(box % pixel_size != 0)]. *)
Definition misaligned (box : list (R * R)) (pixel_size : R) : bool :=
  existsb (fun b =>
             negb (Reqb (np_mod (fst b) pixel_size) 0)
             || negb (Reqb (np_mod (snd b) pixel_size) 0))
          box.

(** Lines 276-279: [ibox] and [ibox_shape]. *)
Definition ibox (box : list (R * R)) (pixel_size : R) : list (R * R) :=
  map (fun b => (IZR (Zfloor (fst b / pixel_size)),
                 IZR (Zceil (snd b / pixel_size)))) box.

Definition ibox_shape (box : list (R * R)) (pixel_size : R) : list Z :=
  map (fun b => int_of (snd b - fst b)) (ibox box pixel_size).

(** [np.zeros(shape)], of which only the shape is kept: a negative
    dimension is refused. *)
Definition np_zeros (shape : list Z) : outcome (list Z) :=
  if existsb (fun d => (d <? 0)%Z) shape then Raise ValueError
  else Return shape.

(** [coverage_approx], up to the call of the kernel: the warnings issued
    and the call, or the exception.  A region is the list of its
    [(min, max)] rows; a row of the procedure is [((theta, h, v), weight)].
    Array division by [pixel_size] never raises. *)
Definition coverage_approx (procedure : list (vec3 * R)) (region : list (R * R))
    (pixel_size line_width : R) (anisotropy : bool)
  : list warning * outcome kernel_call :=
  let box := region in
  if negb (forallb (fun b => Rleb (fst b) (snd b)) box)
  then ([], Raise AssertionError)
  else
    let warnings := if misaligned box pixel_size then [UserWarning] else [] in
    let shape := ibox_shape box pixel_size in
    if anisotropy then (warnings, Raise NotImplementedError)
    else
      let h := map (fun r => snd (fst (fst r)) / pixel_size) procedure in
      let v := map (fun r => snd (fst r) / pixel_size) procedure in
      let w := map (fun r => snd r * (line_width * line_width)
                             / (pixel_size * pixel_size)) procedure in
      (warnings,
       bind (np_zeros shape)
            (fun coverage_map =>
               Return {| coverage_map_shape := coverage_map;
                         k_theta := map (fun r => fst (fst (fst r))) procedure;
                         k_h := h; k_v := v; line_weight := w |})).


(** ** Vocabulary of the statements *)

(** The [num] centres [i * (extent / num) + (line_width - extent) / 2] of
    one axis, as [linspace] and the shift of lines 161-165 give them. *)
Definition axis_points (extent line_width : R) (num : Z) : list R :=
  map (fun c => c + (line_width - extent) / 2)
      (map (fun i => 0 + INR i * ((extent - 0) / IZR num))
           (seq 0 (Z.to_nat num))).

(** The sublines over the centres [gh] and [gv], row by row of the grid:
    all of [gh] for the first of [gv], then for the second, and so on. *)
Definition grid_lines (profile : R -> R -> number) (gh gv : list R)
  : list (vec3 * number) :=
  flat_map (fun v => map (fun h => ((0, h, v), profile h v)) gh) gv.

(** The rays of one subline [line = (offset, weight)] whose weight is the
    integer 1: the samples of the path moved by the offset, taken with the
    step [dx] in space and [dt] in time, in the order of their strictly
    increasing times, each extended by its dwell time. *)
Definition subline_rays (fuel : nat) (trajectory : R -> vec3)
    (tmin tmax dx dt : R) (line : vec3 * number) (rays : list (vec3 * R))
  : Prop :=
  exists (position : list vec3) (dwell time : list R),
    discrete_trajectory (fun t => vadd (trajectory t) (fst line))
                        tmin tmax dx dt default_max_iter fuel
    = Return (position, dwell, time) /\
    snd line = PyInt 1 /\
    rays = combine position dwell /\
    position <> [] /\
    length dwell = length position /\
    length time = length position /\
    StronglySorted Rlt time.

(** Two paths for the examples: one that moves at unit speed along [h],
    and one that jumps by 1 just after time 0. *)
Definition ramp (t : R) : vec3 := (0, t, 0).

Definition jump (t : R) : vec3 := if Rltb 0 t then (0, 1, 0) else (0, 0, 0).

(** [x] is an integer multiple of [p]. *)
Definition multiple_of (p x : R) : Prop := exists k : Z, x = IZR k * p.

(** The differences of neighbours: [diffs [a; b; c] = [b - a; c - b]]. *)
Fixpoint diffs (l : list R) : list R :=
  match l with
  | [] => []
  | a :: tl =>
      match tl with
      | [] => []
      | b :: _ => (b - a) :: diffs tl
      end
  end.

(** Two accepted points that follow each other, each with its time: the
    test of line 491 held between them, and time went on by at most [dt]. *)
Definition step_ok (dx dt : R) (p q : vec3 * R) : Prop :=
  euclidian_dist (fst q) (fst p) <= dx /\ snd p < snd q /\ snd q - snd p <= dt.

(** A candidate waiting on the stack of a walk at time [t]. *)
Definition deferred_ok (trajectory : R -> vec3) (tmax dt t : R)
    (c : vec3 * R) : Prop :=
  fst c = trajectory (snd c) /\ t < snd c /\ snd c - t <= dt /\ snd c <= tmax.

(** The loop invariant of [discrete_trajectory] for [0 < dt]: [acc] is the
    list of the points recorded so far. *)
Definition walk_inv (trajectory : R -> vec3) (tmin tmax dx dt : R)
    (s : walk) : Prop :=
  exists acc : list (vec3 * R),
    w_position s = map fst acc /\
    w_time s = map snd acc /\
    w_dwell s = diffs (map snd (acc ++ [(w_x s, w_t s)])) /\
    Sorted (step_ok dx dt) (acc ++ [(w_x s, w_t s)]) /\
    snd (hd (w_x s, w_t s) acc) = tmin /\
    Forall (fun c => fst c = trajectory (snd c)) (acc ++ [(w_x s, w_t s)]) /\
    w_t s <= tmax /\
    Forall (deferred_ok trajectory tmax dt (w_t s)) (w_nextxt s) /\
    StronglySorted (fun c c' => snd c < snd c') (w_nextxt s) /\
    (w_nextxt s = [] -> w_tnext s = Rmin (w_t s + dt) tmax).

(** The invariant that keeps a walk with [dt <= 0] from ever ending. *)
Definition stuck_inv (tmin : R) (s : walk) : Prop :=
  w_t s <= tmin /\
  Forall (fun c => snd c <= tmin) (w_nextxt s) /\
  (w_nextxt s = [] -> w_tnext s <= tmin).

(** ** Waveforms *)

(** The parameters are Python numbers, so that a division by a zero
    frequency raises, and [t] is one sample: on an array of samples
    [numpy] applies the same formula entry by entry.  [hz] is accepted and
    not used. *)

Definition f2w (f : R) : R := 2 * PI * f.

Definition period (f : R) : outcome R := pdiv 1 f.

Definition exposure (hz : R) : outcome R := pdiv 1 hz.

(** [np.power(-1, q)] at the whole number [q] that [np.floor] returned. *)
Definition power_m1 (q : Z) : R := if Z.even q then 1 else -1.

Definition sinusoid (A f p t hz : R) : R :=
  let w := f2w f in
  let p := np_mod p (2 * PI) in
  A * sin (w * t - p).

Definition triangle (A f p t hz : R) : outcome R :=
  (T <- period f ;;
   let a := 0.5 * T in
   d <- pdiv (p / (2 * PI)) f ;;
   let ts := t - d in
   let q := Zfloor (ts / a + 0.5) in
   Return (A * (2 / a * (ts - a * IZR q) * power_m1 q)))%outcome.

Definition sawtooth (A f p t hz : R) : outcome R :=
  (T <- period f ;;
   let a := 0.5 * T in
   d <- pdiv (p / (2 * PI)) f ;;
   let ts := t - d in
   let q := Zfloor (ts / a + 0.5) in
   Return (A * (2 * (ts / a - IZR q))))%outcome.

Definition square (A f p t hz : R) : outcome R :=
  (d <- pdiv (p / (2 * PI)) f ;;
   let ts := t - d in
   Return (A * power_m1 (Zfloor (2 * f * ts))))%outcome.

Definition staircase (A f p t hz : R) : outcome R :=
  (d <- pdiv (p / (2 * PI)) f ;;
   let ts := t - d in
   Return (A / f / 2 * IZR (Zfloor (2 * f * ts)) - A))%outcome.

(** ** [scantime] *)

(** [np.linspace(start, stop, num)], the last sample included: [num]
    samples [start + i * step] with [step = (stop - start) / (num - 1)],
    the last one set to [stop] when there are two or more; one sample is
    [start]; a negative [num] is refused. *)
Definition linspace_closed (start stop : R) (num : Z) : outcome (list R) :=
  if (num <? 0)%Z then Raise ValueError
  else
    let step := (stop - start) / IZR (num - 1) in
    let y := map (fun i => start + INR i * step) (seq 0 (Z.to_nat num)) in
    Return (if (1 <? num)%Z then removelast y ++ [stop] else y).

(** [t] and [hz] are whole numbers here: [numpy] takes their product as the
    number of samples. *)
Definition scantime (t hz : Z) : outcome (list R) :=
  linspace_closed 0 (IZR t) (t * hz).

(** ** [lengths] and [distance] *)

(** [a + b] on two one-dimensional arrays: entry by entry when the lengths
    agree, an array of one entry is stretched, anything else is refused. *)
Definition broadcast_add (a b : list R) : outcome (list R) :=
  if Nat.eqb (length a) (length b)
  then Return (map (fun ab => fst ab + snd ab) (combine a b))
  else
    match a, b with
    | [a0], _ => Return (map (fun y => a0 + y) b)
    | _, [b0] => Return (map (fun x => x + b0) a)
    | _, _ => Raise ValueError
    end.

(** [np.diff] is [diffs]; a missing [y] or [z] is [np.zeros(x.shape)]. *)
Definition lengths (x : list R) (y z : option (list R)) : outcome (list R) :=
  let y := match y with None => map (fun _ => 0) x | Some y => y end in
  let z := match z with None => map (fun _ => 0) x | Some z => z end in
  let a := diffs x in
  let b := diffs y in
  let c := diffs z in
  (ab <- broadcast_add (map (fun u => u * u) a) (map (fun u => u * u) b) ;;
   abc <- broadcast_add ab (map (fun u => u * u) c) ;;
   Return (map sqrt abc))%outcome.

Definition distance (x : list R) (y z : option (list R)) : outcome R :=
  (d <- lengths x y z ;; Return (sum_list d))%outcome.

(** ** [tike.coverage.line_offsets] *)

(** A two-dimensional array: its shape and its entries. *)
Record array2 : Type := {
  shape0 : nat;
  shape1 : nat;
  entry : nat -> nat -> R
}.

(** [a[mask]] on two-dimensional arrays of one shape: the entries of [a]
    where [mask] holds, row by row, as a one-dimensional array (which
    [flatten] then copies). *)
Definition mask_select (mask : list (list bool)) (a : list (list R))
  : list R :=
  concat (map (fun ma => map snd (filter fst (combine (fst ma) (snd ma))))
              (combine mask a)).

(** [np.meshgrid(gh, gv, indexing='ij')]: two arrays of [len(gh)] rows and
    [len(gv)] columns, the first holding [gh[i]] all along row [i], the
    second repeating [gv] in every row. *)
Definition meshgrid_ij (gh gv : list R) : list (list R) * list (list R) :=
  (map (fun h => map (fun _ => h) gv) gh, map (fun _ => gv) gh).

Module tike_coverage.

(** [np.linspace(0, size, n, endpoint=False) + size / n / 2]. *)
Definition axis_centres (size : R) (n : nat) : outcome (list R) :=
  (g <- linspace 0 size (Z.of_nat n) ;;
   q <- pdiv size (INR n) ;;
   Return (map (fun c => c + q / 2) g))%outcome.

Definition line_offsets (probe_grid : array2) (probe_size : R * R)
  : outcome (list R * list R) :=
  (gh <- axis_centres (fst probe_size) (shape0 probe_grid) ;;
   gv <- axis_centres (snd probe_size) (shape1 probe_grid) ;;
   let '(dh, dv) := meshgrid_ij gh gv in
   let nonzeros :=
     map (fun i => map (fun j => negb (Reqb (entry probe_grid i j) 0))
                       (seq 0 (shape1 probe_grid)))
         (seq 0 (shape0 probe_grid)) in
   let h := mask_select nonzeros dh in
   let v := mask_select nonzeros dv in
   Return (h, v))%outcome.

End tike_coverage.

(** * Proofs *)

(** ** The embedding *)

(** Equality of tuples of reals, component by component. *)
Ltac vec_ring :=
  repeat match goal with
         | |- (_, _) = (_, _) => apply f_equal2
         end;
  try ring.

Lemma thetahv_to_xyz_eq (theta h v radius : R) :
  thetahv_to_xyz (theta, h, v) radius =
  (radius * cos theta + h * sin theta,
   - radius * sin theta + h * cos theta,
   v).
Proof.
  unfold thetahv_to_xyz, vec_dot_mat, set11, set10, set01, set00, eye3.
  vec_ring.
Qed.

Lemma thetahv_to_xyz_minus_theta (theta h v radius : R) :
  thetahv_to_xyz (theta, h, v) radius = rotate_z (- theta) (radius, h, v).
Proof.
  rewrite thetahv_to_xyz_eq.
  unfold rotate_z, R_z, mat_dot_vec.
  rewrite cos_neg, sin_neg.
  vec_ring.
Qed.

Lemma euclidian_dist_sym (a b : vec3) :
  euclidian_dist a b = euclidian_dist b a.
Proof.
  unfold euclidian_dist.
  destruct (thetahv_to_xyz a default_radius) as [[a0 a1] a2].
  destruct (thetahv_to_xyz b default_radius) as [[b0 b1] b2].
  simpl. f_equal. ring.
Qed.

Lemma euclidian_dist_refl (a : vec3) : euclidian_dist a a = 0.
Proof.
  unfold euclidian_dist.
  destruct (thetahv_to_xyz a default_radius) as [[a0 a1] a2].
  simpl.
  replace ((a0 - a0) * (a0 - a0) + (a1 - a1) * (a1 - a1) +
           (a2 - a2) * (a2 - a2)) with 0 by ring.
  apply sqrt_0.
Qed.

(** With equal angles the distance is the plane distance of [(h, v)]. *)
Lemma euclidian_dist_same_theta (theta h v h' v' : R) :
  euclidian_dist (theta, h, v) (theta, h', v') =
  sqrt ((h - h') * (h - h') + (v - v') * (v - v')).
Proof.
  unfold euclidian_dist.
  rewrite !thetahv_to_xyz_eq. simpl.
  f_equal.
  generalize (sin2_cos2 theta). unfold Rsqr. intros H.
  transitivity ((h - h') * (h - h') * (sin theta * sin theta + cos theta * cos theta)
                + (v - v') * (v - v')).
  - ring.
  - rewrite H. ring.
Qed.

(** C9: at [theta = PI/2], [h = 1], [v = 0] and the default radius the
    source returns [(1, -0.75, 0)], while the point [(0.75, 1, 0)] rotated
    by [PI/2] about the third axis is [(-1, 0.75, 0)]; on every input the
    source returns the rotation by [- theta]. *)
Theorem thetahv_to_xyz_rotates_by_minus_theta :
  thetahv_to_xyz (PI / 2, 1, 0) default_radius = (1, - default_radius, 0) /\
  rotate_z (PI / 2) (default_radius, 1, 0) = (-1, default_radius, 0) /\
  thetahv_to_xyz (PI / 2, 1, 0) default_radius
    <> rotate_z (PI / 2) (default_radius, 1, 0) /\
  (forall theta h v radius,
      thetahv_to_xyz (theta, h, v) radius = rotate_z (- theta) (radius, h, v)) /\
  default_radius = 0.75.
Proof.
  assert (E1 : thetahv_to_xyz (PI / 2, 1, 0) default_radius
               = (1, - default_radius, 0)).
  { rewrite thetahv_to_xyz_eq, cos_PI2, sin_PI2. vec_ring. }
  assert (E2 : rotate_z (PI / 2) (default_radius, 1, 0)
               = (-1, default_radius, 0)).
  { unfold rotate_z, R_z, mat_dot_vec. rewrite cos_PI2, sin_PI2. vec_ring. }
  repeat split; try assumption.
  - rewrite E1, E2. intros H. injection H as H _. lra.
  - intros. apply thetahv_to_xyz_minus_theta.
Qed.

(** ** Lists *)

Lemma Sorted_snoc {A : Type} (P : A -> A -> Prop) (l : list A) (a b : A) :
  Sorted P (l ++ [a]) -> P a b -> Sorted P (l ++ [a; b]).
Proof.
  induction l as [|c l IH]; simpl; intros Hs Hab.
  - repeat constructor. exact Hab.
  - inversion Hs as [|? ? Hs' Hhd]; subst.
    constructor.
    + apply IH; assumption.
    + destruct l as [|d l]; simpl in *.
      * inversion Hhd; subst. constructor. assumption.
      * inversion Hhd; subst. constructor. assumption.
Qed.

Lemma Sorted_map {A B : Type} (P : A -> A -> Prop) (Q : B -> B -> Prop)
    (f : A -> B) (l : list A) :
  (forall a b, P a b -> Q (f a) (f b)) -> Sorted P l -> Sorted Q (map f l).
Proof.
  intros HPQ Hs.
  induction Hs as [|a l Hs IH Hhd]; simpl.
  - constructor.
  - constructor; [exact IH|].
    destruct Hhd; simpl; constructor. apply HPQ. assumption.
Qed.

Lemma Sorted_nth_error {A : Type} (P : A -> A -> Prop) (l : list A) :
  Sorted P l ->
  forall i a b,
    nth_error l i = Some a -> nth_error l (S i) = Some b -> P a b.
Proof.
  induction 1 as [|c l Hs IH Hhd]; intros i a b Ha Hb.
  - destruct i; discriminate.
  - destruct i as [|i]; simpl in *.
    + injection Ha as ->.
      destruct l as [|d l]; [discriminate|].
      simpl in Hb. injection Hb as ->.
      inversion Hhd; subst. assumption.
    + eapply IH; eassumption.
Qed.

Lemma StronglySorted_app_l {A : Type} (P : A -> A -> Prop) (l l' : list A) :
  StronglySorted P (l ++ l') -> StronglySorted P l.
Proof.
  induction l as [|a l IH]; simpl; intros Hs.
  - constructor.
  - inversion Hs as [|? ? Hs' Hall]; subst.
    constructor.
    + apply IH. assumption.
    + apply Forall_app in Hall. tauto.
Qed.

Lemma diffs_snoc (l : list R) (a b : R) :
  diffs (l ++ [a; b]) = diffs (l ++ [a]) ++ [b - a].
Proof.
  induction l as [|c l IH].
  - reflexivity.
  - destruct l as [|d l].
    + reflexivity.
    + change (diffs ((c :: d :: l) ++ [a; b]))
        with ((d - c) :: diffs ((d :: l) ++ [a; b])).
      rewrite IH. reflexivity.
Qed.


Lemma last_cons_default (l : list R) (a b : R) :
  last (b :: l) a = last l b.
Proof.
  revert a b.
  induction l as [|c l IH]; intros a b.
  - reflexivity.
  - change (last (b :: c :: l) a) with (last (c :: l) a).
    rewrite (IH a c), (IH b c). reflexivity.
Qed.

(** The differences telescope. *)
Lemma sum_diffs (l : list R) (a : R) :
  sum_list (diffs (a :: l)) = last l a - a.
Proof.
  revert a.
  induction l as [|b l IH]; intros a.
  - simpl. unfold sum_list. simpl. ring.
  - change (diffs (a :: b :: l)) with ((b - a) :: diffs (b :: l)).
    change (sum_list ((b - a) :: diffs (b :: l)))
      with ((b - a) + sum_list (diffs (b :: l))).
    rewrite IH.
    rewrite last_cons_default. ring.
Qed.

(** ** Comparisons *)

Lemma Rltb_true (x y : R) : Rltb x y = true <-> x < y.
Proof. unfold Rltb. destruct (Rlt_dec x y); split; intros; try discriminate; tauto. Qed.

Lemma Rltb_false (x y : R) : Rltb x y = false <-> y <= x.
Proof.
  unfold Rltb. destruct (Rlt_dec x y); split; intros; try discriminate;
    try reflexivity; lra.
Qed.

Lemma Rleb_true (x y : R) : Rleb x y = true <-> x <= y.
Proof. unfold Rleb. destruct (Rle_dec x y); split; intros; try discriminate; tauto. Qed.

Lemma Rleb_false (x y : R) : Rleb x y = false <-> y < x.
Proof.
  unfold Rleb. destruct (Rle_dec x y); split; intros; try discriminate;
    try reflexivity; lra.
Qed.

Lemma Reqb_true (x y : R) : Reqb x y = true <-> x = y.
Proof. unfold Reqb. destruct (Req_dec_T x y); split; intros; try discriminate; tauto. Qed.

(** ** The walk of [discrete_trajectory] *)

Section WalkFacts.

Variable trajectory : R -> vec3.
Variables tmin tmax dx dt : R.
Variable max_iter : Z.

Local Abbreviation cand := (candidate trajectory max_iter).
Local Abbreviation adv := (advance trajectory tmax dx dt).
Local Abbreviation step := (body trajectory tmax dx dt max_iter).
Local Abbreviation run := (while trajectory tmax dx dt max_iter).
Local Abbreviation Inv := (walk_inv trajectory tmin tmax dx dt).
Local Abbreviation waiting := (deferred_ok trajectory tmax dt).

Lemma while_S (fuel : nat) (s : walk) :
  run (S fuel) s =
  if Rltb (w_t s) tmax then bind (step s) (run fuel)
  else Return (w_position s, w_dwell s, w_time s).
Proof. reflexivity. Qed.

Lemma while_exit (fuel : nat) (s : walk) :
  tmax <= w_t s -> run fuel s = Return (w_position s, w_dwell s, w_time s).
Proof.
  intros H. apply Rltb_false in H.
  destruct fuel; simpl; rewrite H; reflexivity.
Qed.

(** The loop body raises nothing but [RuntimeError], and never runs out of
    fuel by itself. *)
Lemma body_cases (s : walk) :
  (exists c, cand s = Return c /\ step s = Return (adv s c)) \/
  (cand s = Raise RuntimeError /\ step s = Raise RuntimeError /\
   w_nextxt s <> [] /\ (max_iter < Z.of_nat (length (w_nextxt s)))%Z).
Proof.
  unfold body, candidate.
  destruct (w_nextxt s) as [|top rest] eqn:E.
  - left. eexists. split; reflexivity.
  - destruct (Z.ltb_spec max_iter (Z.of_nat (length (top :: rest)))) as [Hlt|Hge].
    + right. repeat split; try reflexivity; [discriminate | assumption].
    + left. eexists. split; reflexivity.
Qed.

Lemma candidate_empty (s : walk) :
  w_nextxt s = [] ->
  cand s = Return (trajectory (w_tnext s), w_tnext s, []).
Proof. unfold candidate. intros ->. reflexivity. Qed.

Lemma candidate_pop (s : walk) (top : vec3 * R) (rest : list (vec3 * R)) :
  w_nextxt s = top :: rest ->
  (Z.of_nat (length (top :: rest)) <= max_iter)%Z ->
  cand s = Return (fst top, snd top, rest).
Proof.
  unfold candidate. intros -> H.
  destruct (Z.ltb_spec max_iter (Z.of_nat (length (top :: rest)))); [lia|].
  reflexivity.
Qed.

Lemma candidate_raise (s : walk) :
  w_nextxt s <> [] ->
  (max_iter < Z.of_nat (length (w_nextxt s)))%Z ->
  step s = Raise RuntimeError.
Proof.
  unfold body, candidate. intros Hne H.
  destruct (w_nextxt s) as [|top rest]; [congruence|].
  destruct (Z.ltb_spec max_iter (Z.of_nat (length (top :: rest)))); [|lia].
  reflexivity.
Qed.

Lemma advance_accept (s : walk) (xnext : vec3) (tnext : R)
    (stack : list (vec3 * R)) :
  euclidian_dist xnext (w_x s) <= dx ->
  adv s (xnext, tnext, stack) =
  {| w_position := w_position s ++ [w_x s];
     w_time := w_time s ++ [w_t s];
     w_dwell := w_dwell s ++ [tnext - w_t s];
     w_nextxt := stack;
     w_x := xnext; w_t := tnext;
     w_tnext := Rmin (tnext + dt) tmax |}.
Proof.
  intros H. apply Rleb_true in H. unfold advance. rewrite H.
  reflexivity.
Qed.

Lemma advance_reject (s : walk) (xnext : vec3) (tnext : R)
    (stack : list (vec3 * R)) :
  dx < euclidian_dist xnext (w_x s) ->
  adv s (xnext, tnext, stack) =
  {| w_position := w_position s;
     w_time := w_time s;
     w_dwell := w_dwell s;
     w_nextxt := (trajectory ((tnext + w_t s) / 2), (tnext + w_t s) / 2)
                   :: (xnext, tnext) :: stack;
     w_x := w_x s; w_t := w_t s;
     w_tnext := (tnext + w_t s) / 2 |}.
Proof.
  intros H. apply Rleb_false in H. unfold advance. rewrite H.
  reflexivity.
Qed.

(** *** The invariant for [0 < dt] *)

Lemma walk_inv_init :
  tmin < tmax -> Inv (walk_init trajectory tmin tmax dt).
Proof.
  intros Hlt. exists []. simpl.
  repeat split; try reflexivity; try lra; repeat constructor.
Qed.

(** What the candidate of an iteration is, under the invariant. *)
Lemma candidate_ok (s : walk) (xn : vec3) (tn : R) (stack : list (vec3 * R)) :
  Inv s -> 0 < dt -> w_t s < tmax ->
  cand s = Return (xn, tn, stack) ->
  waiting (w_t s) (xn, tn) /\
  Forall (waiting (w_t s)) stack /\
  StronglySorted (fun c c' => snd c < snd c') stack /\
  Forall (fun c => tn < snd c) stack.
Proof.
  intros (acc & _ & _ & _ & _ & _ & _ & _ & Hstack & Hsorted & Htnext)
         Hdt Ht Hc.
  unfold candidate in Hc.
  destruct (w_nextxt s) as [|top rest] eqn:E.
  - injection Hc as <- <- <-.
    rewrite (Htnext eq_refl).
    unfold deferred_ok. simpl.
    repeat split; try (constructor; fail);
      unfold Rmin; destruct (Rle_dec (w_t s + dt) tmax); lra.
  - destruct (max_iter <? Z.of_nat (length (top :: rest)))%Z; [discriminate|].
    injection Hc as <- <- <-.
    inversion Hstack as [|? ? Htop Hrest]; subst.
    inversion Hsorted as [|? ? Hs' Hall]; subst.
    destruct top as [xt tt]. simpl in *.
    repeat split; try assumption; apply Htop.
Qed.

Lemma hd_snoc {A : Type} (l : list A) (a b : A) :
  hd b (l ++ [a]) = hd a l.
Proof. destruct l; reflexivity. Qed.

(** The invariant is kept by an iteration of the body. *)
Lemma advance_inv (s : walk) (xn : vec3) (tn : R) (stack : list (vec3 * R)) :
  Inv s -> 0 < dt ->
  waiting (w_t s) (xn, tn) ->
  Forall (waiting (w_t s)) stack ->
  StronglySorted (fun c c' => snd c < snd c') stack ->
  Forall (fun c => tn < snd c) stack ->
  Inv (adv s (xn, tn, stack)).
Proof.
  intros (acc & Hpos & Htime & Hdwell & Hchain & Hhd & Hx & Hle & _ & _ & _)
         Hdt (Hxn & Hlt & Hgap & Hmax) Hstack Hsorted Habove.
  simpl in Hxn, Hlt, Hgap, Hmax.
  destruct (Rle_dec (euclidian_dist xn (w_x s)) dx) as [Hd|Hd].
  - rewrite advance_accept by assumption.
    exists (acc ++ [(w_x s, w_t s)]). simpl.
    repeat split.
    + rewrite map_app, Hpos. reflexivity.
    + rewrite map_app, Htime. reflexivity.
    + rewrite Hdwell, !map_app. simpl. rewrite <- app_assoc. simpl.
      symmetry. apply diffs_snoc.
    + rewrite <- app_assoc. simpl. apply Sorted_snoc; [assumption|].
      unfold step_ok. simpl. auto.
    + rewrite hd_snoc. assumption.
    + apply Forall_app. split; [assumption|]. repeat constructor. assumption.
    + assumption.
    + eapply Forall_impl; [|apply Forall_and; [exact Hstack | exact Habove]].
      intros c ((Hc1 & Hc2 & Hc3 & Hc4) & Hc5). unfold deferred_ok.
      repeat split; try assumption. lra.
    + assumption.
  - rewrite advance_reject by lra.
    exists acc. simpl.
    repeat split; try assumption.
    + constructor; [|constructor].
      * unfold deferred_ok. simpl. repeat split; try reflexivity; lra.
      * unfold deferred_ok. simpl. repeat split; try assumption.
      * assumption.
    + constructor; [constructor|].
      * assumption.
      * assumption.
      * constructor; [simpl; lra|].
        eapply Forall_impl; [|exact Habove]. simpl. intros. lra.
    + discriminate.
Qed.

Lemma body_inv (s s' : walk) :
  Inv s -> 0 < dt -> w_t s < tmax -> step s = Return s' -> Inv s'.
Proof.
  intros HI Hdt Ht Hb.
  destruct (body_cases s)
    as [(c & Hc & Hb') | (_ & Hb' & _)]; [|congruence].
  rewrite Hb' in Hb. injection Hb as <-.
  destruct c as [[xn tn] stack].
  destruct (candidate_ok s xn tn stack HI Hdt Ht Hc) as (H1 & H2 & H3 & H4).
  apply advance_inv; assumption.
Qed.

(** A run that returns ends in a state of the invariant with [t = tmax]. *)
Lemma while_inv (fuel : nat) :
  forall (s : walk) (r : list vec3 * list R * list R),
    Inv s -> 0 < dt -> run fuel s = Return r ->
    exists s', Inv s' /\ w_t s' = tmax /\
               r = (w_position s', w_dwell s', w_time s').
Proof.
  induction fuel as [|fuel IH]; intros s r HI Hdt Hr.
  - simpl in Hr. destruct (Rltb (w_t s) tmax) eqn:E; [discriminate|].
    apply Rltb_false in E. injection Hr as <-.
    exists s. repeat split; try assumption.
    destruct HI as (acc & _ & _ & _ & _ & _ & _ & Hle & _). lra.
  - rewrite while_S in Hr. destruct (Rltb (w_t s) tmax) eqn:E.
    + apply Rltb_true in E.
      destruct (step s) as [s'| |] eqn:Hb; simpl in Hr; try discriminate.
      apply (IH s' r); try assumption.
      eapply body_inv; eassumption.
    + apply Rltb_false in E. injection Hr as <-.
      exists s. repeat split; try assumption.
      destruct HI as (acc & _ & _ & _ & _ & _ & _ & Hle & _). lra.
Qed.

(** *** No walk with [dt <= 0] returns *)

Lemma stuck_init :
  dt <= 0 -> stuck_inv tmin (walk_init trajectory tmin tmax dt).
Proof.
  intros Hdt. unfold stuck_inv. simpl.
  repeat split; [lra | constructor |].
  intros _. unfold Rmin. destruct (Rle_dec (tmin + dt) tmax); lra.
Qed.

Lemma stuck_body (s s' : walk) :
  dt <= 0 -> tmin < tmax -> stuck_inv tmin s -> step s = Return s' ->
  stuck_inv tmin s'.
Proof.
  intros Hdt Hlt (Ht & Hstack & Htnext) Hb.
  destruct (body_cases s) as [(c & Hc & Hb') | (_ & Hb' & _)]; [|congruence].
  rewrite Hb' in Hb. injection Hb as <-.
  destruct c as [[xn tn] stack].
  assert (Hc' : tn <= tmin /\ Forall (fun c => snd c <= tmin) stack).
  { unfold candidate in Hc.
    destruct (w_nextxt s) as [|top rest] eqn:E.
    - injection Hc as <- <- <-. split; [auto | constructor].
    - destruct (max_iter <? Z.of_nat (length (top :: rest)))%Z; [discriminate|].
      injection Hc as <- <- <-.
      inversion Hstack; subst. split; assumption. }
  destruct Hc' as [Htn Hrest].
  destruct (Rle_dec (euclidian_dist xn (w_x s)) dx) as [Hd|Hd].
  - rewrite advance_accept by assumption.
    unfold stuck_inv. simpl.
    repeat split; try assumption.
    intros _. unfold Rmin. destruct (Rle_dec (tn + dt) tmax); lra.
  - rewrite advance_reject by lra.
    unfold stuck_inv. simpl.
    repeat split; try assumption.
    + constructor; [simpl; lra|]. constructor; assumption.
    + discriminate.
Qed.

Lemma stuck_while (fuel : nat) :
  forall (s : walk) (r : list vec3 * list R * list R),
    dt <= 0 -> tmin < tmax -> stuck_inv tmin s -> run fuel s <> Return r.
Proof.
  induction fuel as [|fuel IH]; intros s r Hdt Hlt HJ Hr.
  - simpl in Hr. destruct (Rltb (w_t s) tmax) eqn:E; [discriminate|].
    apply Rltb_false in E. destruct HJ as (Ht & _). lra.
  - rewrite while_S in Hr. destruct (Rltb (w_t s) tmax) eqn:E.
    + destruct (step s) as [s'| |] eqn:Hb; simpl in Hr; try discriminate.
      apply (IH s' r); try assumption.
      eapply stuck_body; eassumption.
    + apply Rltb_false in E. destruct HJ as (Ht & _). lra.
Qed.

(** *** What a returning run returns *)

Lemma discrete_trajectory_degenerate (fuel : nat) :
  tmax <= tmin ->
  discrete_trajectory trajectory tmin tmax dx dt max_iter fuel
  = Return ([], [], []).
Proof.
  intros H. unfold discrete_trajectory. rewrite while_exit; [reflexivity|].
  simpl. assumption.
Qed.

Lemma discrete_trajectory_return (fuel : nat)
    (r : list vec3 * list R * list R) :
  tmin < tmax ->
  discrete_trajectory trajectory tmin tmax dx dt max_iter fuel = Return r ->
  0 < dt /\
  exists s', Inv s' /\ w_t s' = tmax /\
             r = (w_position s', w_dwell s', w_time s').
Proof.
  intros Hlt Hr. unfold discrete_trajectory in Hr.
  destruct (Rlt_dec 0 dt) as [Hdt|Hdt].
  - split; [assumption|].
    eapply while_inv; try eassumption. apply walk_inv_init. assumption.
  - exfalso. eapply stuck_while; try eassumption; [lra|].
    apply stuck_init. lra.
Qed.

Lemma diffs_nth_error (l : list R) :
  forall (i : nat) (d : R),
    nth_error (diffs l) i = Some d ->
    exists a b, nth_error l i = Some a /\ nth_error l (S i) = Some b /\
                d = b - a.
Proof.
  induction l as [|a l IH]; intros i d H.
  - destruct i; discriminate.
  - destruct l as [|b l].
    + destruct i; discriminate.
    + change (diffs (a :: b :: l)) with ((b - a) :: diffs (b :: l)) in H.
      destruct i as [|i].
      * simpl in H. injection H as <-. exists a, b. auto.
      * simpl in H. destruct (IH i d H) as (a' & b' & Ha & Hb & Hd).
        exists a', b'. auto.
Qed.

(** The times of a finished walk. *)
Lemma inv_times (s : walk) :
  Inv s -> w_t s = tmax -> tmin < tmax ->
  StronglySorted Rlt (w_time s) /\
  hd_error (w_time s) = Some tmin /\
  w_dwell s = diffs (w_time s ++ [tmax]) /\
  sum_list (w_dwell s) = tmax - tmin.
Proof.
  intros (acc & _ & Htime & Hdwell & Hchain & Hhd & _) Ht Hlt.
  rewrite Ht in *.
  assert (Hts : map snd (acc ++ [(w_x s, tmax)]) = w_time s ++ [tmax]).
  { rewrite map_app, Htime. reflexivity. }
  assert (Hhead : exists l, w_time s = tmin :: l).
  { destruct acc as [|a acc]; simpl in Hhd.
    - lra.
    - rewrite Htime. simpl. rewrite Hhd. eexists. reflexivity. }
  destruct Hhead as [l Hl].
  repeat split.
  - apply (StronglySorted_app_l Rlt _ [tmax]).
    apply Sorted_StronglySorted; [exact Rlt_trans|].
    rewrite <- Hts.
    apply (Sorted_map (step_ok dx dt)); [|assumption].
    intros a b (_ & H & _). assumption.
  - rewrite Hl. reflexivity.
  - rewrite Hdwell, Hts. reflexivity.
  - rewrite Hdwell, Hts, Hl. simpl app. rewrite sum_diffs.
    rewrite last_last. reflexivity.
Qed.

(** The steps of a finished walk: two neighbours of the output, and every
    recorded point with the point accepted after it, which the source
    found at the time [a + d]. *)
Lemma inv_steps (s : walk) :
  Inv s ->
  (forall i p q a b,
      nth_error (w_position s) i = Some p ->
      nth_error (w_position s) (S i) = Some q ->
      nth_error (w_time s) i = Some a ->
      nth_error (w_time s) (S i) = Some b ->
      euclidian_dist p q <= dx /\ b - a <= dt) /\
  (forall i p a d,
      nth_error (w_position s) i = Some p ->
      nth_error (w_time s) i = Some a ->
      nth_error (w_dwell s) i = Some d ->
      euclidian_dist p (trajectory (a + d)) <= dx /\ d <= dt).
Proof.
  intros (acc & Hpos & Htime & Hdwell & Hchain & _ & Htraj & _).
  rewrite Hpos, Htime, Hdwell.
  assert (Hnth : forall i e e',
             nth_error (acc ++ [(w_x s, w_t s)]) i = Some e ->
             nth_error (acc ++ [(w_x s, w_t s)]) (S i) = Some e' ->
             step_ok dx dt e e' /\ fst e' = trajectory (snd e')).
  { intros i e e' He He'. split.
    - eapply Sorted_nth_error; eassumption.
    - apply nth_error_In in He'.
      rewrite Forall_forall in Htraj. apply Htraj. assumption. }
  assert (Hin : forall i e, nth_error acc i = Some e ->
                            nth_error (acc ++ [(w_x s, w_t s)]) i = Some e).
  { intros i e He. rewrite nth_error_app1; [assumption|].
    apply nth_error_Some. congruence. }
  split.
  - intros i p q a b Hp Hq Ha Hb.
    rewrite nth_error_map in Hp, Hq, Ha, Hb.
    destruct (nth_error acc i) as [e|] eqn:He; [|discriminate].
    destruct (nth_error acc (S i)) as [e'|] eqn:He'; [|discriminate].
    simpl in Hp, Hq, Ha, Hb.
    injection Hp as <-. injection Hq as <-.
    injection Ha as <-. injection Hb as <-.
    destruct (Hnth i e e' (Hin _ _ He) (Hin _ _ He')) as ((H1 & _ & H2) & _).
    rewrite euclidian_dist_sym. split; assumption.
  - intros i p a d Hp Ha Hd.
    rewrite nth_error_map in Hp, Ha.
    destruct (nth_error acc i) as [e|] eqn:He; [|discriminate].
    simpl in Hp, Ha. injection Hp as <-. injection Ha as <-.
    destruct (diffs_nth_error _ _ _ Hd) as (a' & b' & Ha' & Hb' & ->).
    rewrite nth_error_map in Ha', Hb'.
    rewrite (Hin _ _ He) in Ha'. simpl in Ha'. injection Ha' as <-.
    destruct (nth_error (acc ++ [(w_x s, w_t s)]) (S i)) as [e'|] eqn:He';
      [|discriminate].
    simpl in Hb'. injection Hb' as <-.
    destruct (Hnth i e e' (Hin _ _ He) He') as ((H1 & _ & H2) & H3).
    replace (snd e + (snd e' - snd e)) with (snd e') by ring.
    rewrite <- H3, euclidian_dist_sym. split; assumption.
Qed.
Lemma diffs_length (l : list R) (a : R) :
  length (diffs (l ++ [a])) = length l.
Proof.
  induction l as [|b l IH]; [reflexivity|].
  destruct l as [|c l]; [reflexivity|].
  change (diffs ((b :: c :: l) ++ [a]))
    with ((c - b) :: diffs ((c :: l) ++ [a])).
  simpl length in *. rewrite IH. reflexivity.
Qed.

Lemma inv_lengths (s : walk) :
  Inv s ->
  length (w_time s) = length (w_position s) /\
  length (w_dwell s) = length (w_position s).
Proof.
  intros (acc & Hpos & Htime & Hdwell & _).
  rewrite Hpos, Htime, Hdwell, map_app. simpl map.
  rewrite diffs_length, !length_map. auto.
Qed.

(** *** More fuel changes nothing *)

Lemma while_fuel_S (fuel : nat) :
  forall s, run fuel s <> OutOfFuel -> run (S fuel) s = run fuel s.
Proof.
  induction fuel as [|fuel IH]; intros s H.
  - simpl in *. destruct (Rltb (w_t s) tmax); [congruence | reflexivity].
  - rewrite (while_S (S fuel)). rewrite while_S in H |- *.
    destruct (Rltb (w_t s) tmax); [|reflexivity].
    destruct (step s) as [s'| |]; simpl in *; try reflexivity.
    apply IH. assumption.
Qed.

Lemma while_fuel_le (n m : nat) (s : walk) :
  (n <= m)%nat -> run n s <> OutOfFuel -> run m s = run n s.
Proof.
  induction 1 as [|m Hle IH]; intros H; [reflexivity|].
  rewrite while_fuel_S.
  - apply IH. assumption.
  - rewrite IH; assumption.
Qed.

(** The outcome of a run that ends does not depend on the fuel. *)
Lemma while_deterministic (n m : nat) (s : walk) :
  run n s <> OutOfFuel -> run m s <> OutOfFuel -> run n s = run m s.
Proof.
  intros Hn Hm.
  destruct (Nat.le_ge_cases n m) as [H|H].
  - symmetry. apply while_fuel_le; assumption.
  - apply while_fuel_le; assumption.
Qed.

(** C1: in the output of a run of [discrete_trajectory] that returns, two
    recorded points that follow each other are at embedded distance at most
    [dx] and at most [dt] apart in time; and every recorded point, the last
    one too, is within [dx] of the point accepted after it, found [d <= dt]
    later, [d] being its dwell.  Nothing is assumed on how the later point
    was found: from the stack or as a fresh candidate. *)
Theorem discrete_trajectory_steps_bounded (fuel : nat)
    (position : list vec3) (dwell time : list R) :
  discrete_trajectory trajectory tmin tmax dx dt max_iter fuel
  = Return (position, dwell, time) ->
  (forall i p q a b,
      nth_error position i = Some p ->
      nth_error position (S i) = Some q ->
      nth_error time i = Some a ->
      nth_error time (S i) = Some b ->
      euclidian_dist p q <= dx /\ b - a <= dt) /\
  (forall i p a d,
      nth_error position i = Some p ->
      nth_error time i = Some a ->
      nth_error dwell i = Some d ->
      euclidian_dist p (trajectory (a + d)) <= dx /\ d <= dt).
Proof.
  intros Hr.
  destruct (Rlt_dec tmin tmax) as [Hlt|Hge].
  - destruct (discrete_trajectory_return fuel _ Hlt Hr)
      as (_ & s' & HI & _ & E).
    injection E as -> -> ->.
    apply inv_steps. assumption.
  - rewrite discrete_trajectory_degenerate in Hr by lra.
    injection Hr as <- <- <-.
    split; intros [|i]; intros; discriminate.
Qed.

(** C10: a run of [discrete_trajectory] on [tmin < tmax] that returns gives
    strictly increasing times that start at [tmin]; the dwell times are the
    differences between each time and the next, the last one up to [tmax];
    they add up to [tmax - tmin]. *)
Theorem discrete_trajectory_times (fuel : nat)
    (position : list vec3) (dwell time : list R) :
  tmin < tmax ->
  discrete_trajectory trajectory tmin tmax dx dt max_iter fuel
  = Return (position, dwell, time) ->
  StronglySorted Rlt time /\
  hd_error time = Some tmin /\
  dwell = diffs (time ++ [tmax]) /\
  sum_list dwell = tmax - tmin.
Proof.
  intros Hlt Hr.
  destruct (discrete_trajectory_return fuel _ Hlt Hr)
    as (_ & s' & HI & Ht & E).
  injection E as -> -> ->.
  apply inv_times; assumption.
Qed.

(** *** When the walk raises *)

Local Abbreviation reaches := (iterates trajectory tmax dx dt max_iter).

Lemma iterates_cons (s s1 s2 : walk) :
  w_t s < tmax -> step s = Return s1 -> reaches s1 s2 -> reaches s s2.
Proof.
  intros Ht Hb H.
  induction H as [s1 | s1 s2 s3 H12 IH Ht2 Hb2].
  - eapply iterates_step; [apply iterates_refl | assumption | assumption].
  - eapply iterates_step; [apply IH; assumption | assumption | assumption].
Qed.

(** A run raises only from a state it reached with too long a stack. *)
Lemma while_raise_reaches (fuel : nat) :
  forall (s : walk) (e : exn),
    run fuel s = Raise e ->
    e = RuntimeError /\
    exists s', reaches s s' /\ w_t s' < tmax /\ w_nextxt s' <> [] /\
               (max_iter < Z.of_nat (length (w_nextxt s')))%Z.
Proof.
  induction fuel as [|fuel IH]; intros s e Hr.
  - simpl in Hr. destruct (Rltb (w_t s) tmax); discriminate.
  - rewrite while_S in Hr.
    destruct (Rltb (w_t s) tmax) eqn:E; [|discriminate].
    apply Rltb_true in E.
    destruct (body_cases s) as [(c & Hc & Hb) | (_ & Hb & Hne & Hlen)].
    + rewrite Hb in Hr. simpl in Hr.
      destruct (IH _ _ Hr) as (He & s' & Hreach & Hs').
      split; [assumption|].
      exists s'. split; [|assumption].
      eapply iterates_cons; eassumption.
    + rewrite Hb in Hr. simpl in Hr. injection Hr as <-.
      split; [reflexivity|].
      exists s. split; [apply iterates_refl | auto].
Qed.

Lemma reaches_raise (s s' : walk) (e : exn) :
  reaches s s' ->
  (exists fuel, run fuel s' = Raise e) ->
  exists fuel, run fuel s = Raise e.
Proof.
  induction 1 as [s | s s' s'' H IH Ht Hb]; intros [fuel Hr].
  - exists fuel. assumption.
  - apply IH. exists (S fuel).
    rewrite while_S. apply Rltb_true in Ht. rewrite Ht, Hb. assumption.
Qed.

Lemma overflow_raise (s : walk) :
  w_t s < tmax -> w_nextxt s <> [] ->
  (max_iter < Z.of_nat (length (w_nextxt s)))%Z ->
  run 1 s = Raise RuntimeError.
Proof.
  intros Ht Hne Hlen.
  rewrite while_S. apply Rltb_true in Ht. rewrite Ht.
  rewrite candidate_raise by assumption. reflexivity.
Qed.

(** Candidates rejected one after the other: after the candidate at [u]
    come the times halfway to [t], again and again, each on top of the
    others, until the stack is too long. *)
Lemma rejections_raise (n : nat) :
  forall (s : walk) (u : R) (rest : list (vec3 * R)),
    w_nextxt s = (trajectory u, u) :: rest ->
    w_t s < tmax ->
    (forall k, (k < n)%nat ->
               dx < euclidian_dist
                      (trajectory (w_t s + (u - w_t s) / 2 ^ k)) (w_x s)) ->
    (max_iter < Z.of_nat (length (w_nextxt s)) + Z.of_nat n)%Z ->
    exists fuel, run fuel s = Raise RuntimeError.
Proof.
  induction n as [|n IH]; intros s u rest Hstack Ht Hrej Hlen.
  - exists 1%nat. apply overflow_raise; [assumption | congruence | lia].
  - destruct (Z.lt_ge_cases max_iter (Z.of_nat (length (w_nextxt s))))
      as [Hover|Hfits].
    + exists 1%nat. apply overflow_raise; [assumption | congruence | assumption].
    + assert (Hd : dx < euclidian_dist (trajectory u) (w_x s)).
      { generalize (Hrej 0%nat (Nat.lt_0_succ n)). simpl.
        replace (w_t s + (u - w_t s) / 1) with u by field. auto. }
      pose (s' := adv s (trajectory u, u, rest)).
      assert (Hb : step s = Return s').
      { unfold body. rewrite (candidate_pop s _ _ Hstack).
        - reflexivity.
        - rewrite <- Hstack. assumption. }
      assert (Es' : s' = adv s (trajectory u, u, rest)) by reflexivity.
      rewrite advance_reject in Es' by assumption.
      destruct (IH s' ((u + w_t s) / 2) ((trajectory u, u) :: rest))
        as [fuel Hr].
      * rewrite Es'. reflexivity.
      * rewrite Es'. simpl. assumption.
      * intros k Hk. rewrite Es'. simpl w_t. simpl w_x.
        replace (w_t s + ((u + w_t s) / 2 - w_t s) / 2 ^ k)
          with (w_t s + (u - w_t s) / 2 ^ S k).
        -- apply Hrej. lia.
        -- simpl. field. apply pow_nonzero. lra.
      * rewrite Es'. simpl w_nextxt. rewrite Hstack in Hlen.
        simpl length in *. lia.
      * exists (S fuel). rewrite while_S.
        apply Rltb_true in Ht. rewrite Ht, Hb. assumption.
Qed.

(** C3: [discrete_trajectory] raises exactly when the loop is entered with
    more than [max_iter] candidates waiting on the stack, and then it
    raises [RuntimeError] at once; this happens when the first candidate
    and the points halfway to it, again and again, are all farther than
    [dx] from the start, and then no fuel makes the run return; [max_iter]
    is 16 by default. *)
Theorem discrete_trajectory_raises :
  (forall e,
      (exists fuel,
          discrete_trajectory trajectory tmin tmax dx dt max_iter fuel
          = Raise e) <->
      e = RuntimeError /\
      exists s,
        reaches (walk_init trajectory tmin tmax dt) s /\
        w_t s < tmax /\ w_nextxt s <> [] /\
        (max_iter < Z.of_nat (length (w_nextxt s)))%Z) /\
  (tmin < tmax ->
   (forall k : nat,
       (Z.of_nat k < Z.max max_iter 1)%Z ->
       dx < euclidian_dist
              (trajectory (tmin + (Rmin (tmin + dt) tmax - tmin) / 2 ^ k))
              (trajectory tmin)) ->
   (exists fuel,
       discrete_trajectory trajectory tmin tmax dx dt max_iter fuel
       = Raise RuntimeError) /\
   (forall fuel r,
       discrete_trajectory trajectory tmin tmax dx dt max_iter fuel
       <> Return r)) /\
  default_max_iter = 16%Z.
Proof.
  split; [|split; [|reflexivity]].
  - intros e. unfold discrete_trajectory. split.
    + intros [fuel Hr]. eapply while_raise_reaches. eassumption.
    + intros (-> & s & Hreach & Ht & Hne & Hlen).
      eapply reaches_raise; [eassumption|].
      exists 1%nat. apply overflow_raise; assumption.
  - intros Hlt Hrej. unfold discrete_trajectory.
    set (s0 := walk_init trajectory tmin tmax dt).
    set (t1 := Rmin (tmin + dt) tmax) in *.
    assert (Hraise : exists fuel, run fuel s0 = Raise RuntimeError).
    { assert (Hd : dx < euclidian_dist (trajectory t1) (w_x s0)).
      { generalize (Hrej 0%nat). simpl.
        replace (tmin + (t1 - tmin) / 1) with t1 by field.
        intros H. apply H. lia. }
      pose (s1 := adv s0 (trajectory t1, t1, [])).
      assert (Hb : step s0 = Return s1).
      { unfold body. rewrite candidate_empty; reflexivity. }
      assert (Es1 : s1 = adv s0 (trajectory t1, t1, [])) by reflexivity.
      rewrite advance_reject in Es1 by assumption.
      destruct (rejections_raise (Z.to_nat (max_iter - 1)) s1
                  ((t1 + tmin) / 2) [(trajectory t1, t1)])
        as [fuel Hr].
      - rewrite Es1. reflexivity.
      - rewrite Es1. simpl. assumption.
      - intros k Hk. rewrite Es1. simpl w_t. simpl w_x.
        replace (tmin + ((t1 + tmin) / 2 - tmin) / 2 ^ k)
          with (tmin + (t1 - tmin) / 2 ^ S k).
        + apply Hrej. lia.
        + simpl. field. apply pow_nonzero. lra.
      - rewrite Es1. simpl w_nextxt. simpl length. lia.
      - exists (S fuel). rewrite while_S.
        assert (Ht : Rltb (w_t s0) tmax = true) by (apply Rltb_true; assumption).
        rewrite Ht, Hb. assumption. }
    split; [assumption|].
    destruct Hraise as [fuel0 Hr0].
    intros fuel r Hr.
    assert (E : run fuel0 s0 = run fuel s0).
    { apply while_deterministic; congruence. }
    congruence.
Qed.
Lemma body_fresh_accept (s : walk) :
  w_nextxt s = [] ->
  euclidian_dist (trajectory (w_tnext s)) (w_x s) <= dx ->
  step s =
  Return {| w_position := w_position s ++ [w_x s];
            w_time := w_time s ++ [w_t s];
            w_dwell := w_dwell s ++ [w_tnext s - w_t s];
            w_nextxt := [];
            w_x := trajectory (w_tnext s); w_t := w_tnext s;
            w_tnext := Rmin (w_tnext s + dt) tmax |}.
Proof.
  intros Hstack Hd. unfold body. rewrite candidate_empty by assumption.
  unfold bind. rewrite advance_accept by assumption. reflexivity.
Qed.

Lemma body_fresh_reject (s : walk) :
  w_nextxt s = [] ->
  dx < euclidian_dist (trajectory (w_tnext s)) (w_x s) ->
  step s =
  Return {| w_position := w_position s;
            w_time := w_time s;
            w_dwell := w_dwell s;
            w_nextxt :=
              [(trajectory ((w_tnext s + w_t s) / 2), (w_tnext s + w_t s) / 2);
               (trajectory (w_tnext s), w_tnext s)];
            w_x := w_x s; w_t := w_t s;
            w_tnext := (w_tnext s + w_t s) / 2 |}.
Proof.
  intros Hstack Hd. unfold body. rewrite candidate_empty by assumption.
  unfold bind. rewrite advance_reject by assumption. reflexivity.
Qed.

Lemma body_pop_accept (s : walk) (xn : vec3) (tn : R)
    (rest : list (vec3 * R)) :
  w_nextxt s = (xn, tn) :: rest ->
  (Z.of_nat (length ((xn, tn) :: rest)) <= max_iter)%Z ->
  euclidian_dist xn (w_x s) <= dx ->
  step s =
  Return {| w_position := w_position s ++ [w_x s];
            w_time := w_time s ++ [w_t s];
            w_dwell := w_dwell s ++ [tn - w_t s];
            w_nextxt := rest;
            w_x := xn; w_t := tn;
            w_tnext := Rmin (tn + dt) tmax |}.
Proof.
  intros Hstack Hlen Hd. unfold body.
  rewrite (candidate_pop s _ _ Hstack Hlen).
  unfold bind, fst, snd. rewrite advance_accept by assumption. reflexivity.
Qed.

End WalkFacts.

(** ** A path that does not move *)

Lemma Zceil_nonpos (x : R) : x <= 0 -> (Zceil x <= 0)%Z.
Proof.
  intros H. destruct (Zceil_bound x) as [Hlo _].
  assert (IZR (Zceil x) < IZR 1) by (simpl; lra).
  apply lt_IZR in H0. lia.
Qed.

(** From a state with an empty stack the walk along a constant path takes
    one step of [dt = 1] after the other, up to [T]. *)
Lemma constant_walk (c : vec3) (T dx : R) (max_iter : Z) (n : nat) :
  0 <= dx ->
  forall s : walk,
    w_nextxt s = [] -> w_x s = c -> w_tnext s = Rmin (w_t s + 1) T ->
    T - w_t s <= INR n ->
    exists r,
      while (fun _ => c) T dx 1 max_iter n s = Return r /\
      length (fst (fst r))
      = (length (w_position s) + Z.to_nat (Zceil (T - w_t s)))%nat.
Proof.
  intros Hdx.
  induction n as [|n IH]; intros s Hstack Hx Htnext Hn.
  - simpl in Hn. rewrite while_exit by lra.
    eexists. split; [reflexivity|]. simpl.
    assert (Zceil (T - w_t s) <= 0)%Z by (apply Zceil_nonpos; lra).
    lia.
  - destruct (Rlt_dec (w_t s) T) as [Ht|Ht].
    + rewrite while_S.
      rewrite (proj2 (Rltb_true _ _) Ht).
      rewrite body_fresh_accept;
        [|assumption | rewrite Hx, euclidian_dist_refl; assumption].
      unfold bind.
      match goal with |- context [while _ _ _ _ _ n ?s1] => set (s' := s1) end.
      destruct (IH s') as (r & Hr & Hlen); try reflexivity.
      * subst s'. simpl. rewrite Htnext. rewrite S_INR in Hn.
        unfold Rmin. destruct (Rle_dec (w_t s + 1) T); [lra|].
        generalize (pos_INR n). lra.
      * exists r. split; [assumption|].
        rewrite Hlen. subst s'. simpl w_position. simpl w_t.
        rewrite length_app. simpl length.
        rewrite Htnext. unfold Rmin.
        destruct (Rle_dec (w_t s + 1) T) as [Hle|Hgt].
        -- replace (T - (w_t s + 1)) with (T - w_t s + IZR (-1)) by (simpl; lra).
           rewrite Zceil_addz.
           assert (1 <= Zceil (T - w_t s))%Z.
           { destruct (Zceil_bound (T - w_t s)) as [_ Hhi].
             assert (IZR 0 < IZR (Zceil (T - w_t s))) by (simpl; lra).
             apply lt_IZR in H. lia. }
           lia.
        -- rewrite (Zceil_eq 0 (T - T)) by (simpl; lra).
           rewrite (Zceil_eq 1) by (simpl; lra).
           simpl. lia.
    + rewrite while_exit by lra.
      eexists. split; [reflexivity|]. simpl.
      assert (Zceil (T - w_t s) <= 0)%Z by (apply Zceil_nonpos; lra).
      lia.
Qed.

(** C8: on a path that stays at [c], from 0 to [T > 0] with [dt = 1] and
    any [dx >= 0], [discrete_trajectory] returns, with [ceil T] as fuel and
    for every [max_iter]; it records [ceil T] samples, and their dwell
    times add up to [T]. *)
Theorem discrete_trajectory_constant (c : vec3) (T dx : R) (max_iter : Z) :
  0 < T -> 0 <= dx ->
  exists (position : list vec3) (dwell time : list R),
    discrete_trajectory (fun _ => c) 0 T dx 1 max_iter (Z.to_nat (Zceil T))
    = Return (position, dwell, time) /\
    Z.of_nat (length position) = Zceil T /\
    length dwell = length position /\
    length time = length position /\
    sum_list dwell = T.
Proof.
  intros HT Hdx.
  assert (Hceil : (0 <= Zceil T)%Z).
  { destruct (Zceil_bound T) as [_ Hhi].
    assert (IZR 0 < IZR (Zceil T) + 1) by (simpl; lra).
    rewrite <- (plus_IZR _ 1) in H. apply lt_IZR in H. lia. }
  destruct (constant_walk c T dx max_iter (Z.to_nat (Zceil T)) Hdx
              (walk_init (fun _ => c) 0 T 1))
    as ([[position dwell] time] & Hr & Hlen); try reflexivity.
  - simpl. rewrite INR_IZR_INZ, Z2Nat.id by assumption.
    destruct (Zceil_bound T). lra.
  - exists position, dwell, time.
    simpl in Hlen. replace (T - 0) with T in Hlen by ring.
    assert (Hrun : discrete_trajectory (fun _ => c) 0 T dx 1 max_iter
                     (Z.to_nat (Zceil T)) = Return (position, dwell, time))
      by exact Hr.
    destruct (discrete_trajectory_return _ _ _ _ _ _ _ _ HT Hrun)
      as (_ & s' & HI & Ht & E).
    injection E as -> -> ->.
    destruct (inv_lengths _ _ _ _ _ _ HI) as [Hl1 Hl2].
    destruct (inv_times _ _ _ _ _ _ HI Ht HT) as (_ & _ & _ & Hsum).
    repeat split; try assumption.
    + rewrite Hlen. lia.
    + rewrite Hsum. ring.
Qed.

(** ** Two walks, step by step *)

Lemma euclidian_dist_h (theta h h' v : R) :
  euclidian_dist (theta, h, v) (theta, h', v) = Rabs (h - h').
Proof.
  rewrite euclidian_dist_same_theta.
  replace ((h - h') * (h - h') + (v - v) * (v - v)) with (Rsqr (h - h'))
    by (unfold Rsqr; ring).
  apply sqrt_Rsqr_abs.
Qed.

(** The path [ramp] from 0 to 1 with [dx = 1/2] and [dt = 1]: the
    candidate at time 1 is too far and waits on the stack, the one at 1/2
    is accepted, then the one that waited. *)
Lemma ramp_walk :
  discrete_trajectory ramp 0 1 (1 / 2) 1 default_max_iter 3
  = Return ([(0, 0, 0); (0, 1 / 2, 0)], [1 / 2; 1 / 2], [0; 1 / 2]).
Proof.
  unfold discrete_trajectory, walk_init.
  replace (Rmin (0 + 1) 1) with 1
    by (unfold Rmin; destruct (Rle_dec (0 + 1) 1); lra).
  rewrite while_S, (proj2 (Rltb_true _ _)) by (simpl; lra).
  rewrite body_fresh_reject;
    [|reflexivity
     |simpl; unfold ramp; rewrite euclidian_dist_h;
      unfold Rabs; destruct (Rcase_abs (1 - 0)); lra].
  unfold bind. simpl w_tnext. simpl w_t. simpl w_x. simpl w_position.
  simpl w_time. simpl w_dwell.
  rewrite while_S, (proj2 (Rltb_true _ _)) by (simpl; lra).
  rewrite (body_pop_accept _ _ _ _ _ _ (ramp ((1 + 0) / 2)) ((1 + 0) / 2)
             [(ramp 1, 1)]);
    [|reflexivity
     |unfold default_max_iter; simpl; lia
     |simpl; unfold ramp; rewrite euclidian_dist_h;
      unfold Rabs; destruct (Rcase_abs ((1 + 0) / 2 - 0)); lra].
  unfold bind. simpl w_tnext. simpl w_t. simpl w_x. simpl w_position.
  simpl w_time. simpl w_dwell.
  rewrite while_S, (proj2 (Rltb_true _ _)) by (simpl; lra).
  rewrite (body_pop_accept _ _ _ _ _ _ (ramp 1) 1 []);
    [|reflexivity
     |unfold default_max_iter; simpl; lia
     |simpl; unfold ramp; rewrite euclidian_dist_h;
      unfold Rabs; destruct (Rcase_abs (1 - (1 + 0) / 2)); lra].
  unfold bind. simpl w_tnext. simpl w_t. simpl w_x. simpl w_position.
  simpl w_time. simpl w_dwell.
  rewrite while_exit by (simpl; lra).
  simpl. unfold ramp.
  repeat (f_equal; try lra).
Qed.

Lemma discrete_trajectory_steps_bounded_witness :
  discrete_trajectory ramp 0 1 (1 / 2) 1 default_max_iter 3
  = Return ([(0, 0, 0); (0, 1 / 2, 0)], [1 / 2; 1 / 2], [0; 1 / 2]) /\
  (forall i p q a b,
      nth_error [(0, 0, 0); (0, 1 / 2, 0)] i = Some p ->
      nth_error [(0, 0, 0); (0, 1 / 2, 0)] (S i) = Some q ->
      nth_error [0; 1 / 2] i = Some a ->
      nth_error [0; 1 / 2] (S i) = Some b ->
      euclidian_dist p q <= 1 / 2 /\ b - a <= 1) /\
  (forall i p a d,
      nth_error [(0, 0, 0); (0, 1 / 2, 0)] i = Some p ->
      nth_error [0; 1 / 2] i = Some a ->
      nth_error [1 / 2; 1 / 2] i = Some d ->
      euclidian_dist p (ramp (a + d)) <= 1 / 2 /\ d <= 1).
Proof.
  split.
  - exact ramp_walk.
  - exact (discrete_trajectory_steps_bounded
             ramp 0 1 (1 / 2) 1 default_max_iter 3 _ _ _ ramp_walk).
Defined.

Lemma discrete_trajectory_times_witness :
  0 < 1 /\
  discrete_trajectory ramp 0 1 (1 / 2) 1 default_max_iter 3
  = Return ([(0, 0, 0); (0, 1 / 2, 0)], [1 / 2; 1 / 2], [0; 1 / 2]) /\
  StronglySorted Rlt [0; 1 / 2] /\
  hd_error [0; 1 / 2] = Some 0 /\
  [1 / 2; 1 / 2] = diffs ([0; 1 / 2] ++ [1]) /\
  sum_list [1 / 2; 1 / 2] = 1 - 0.
Proof.
  split; [lra|]. split; [exact ramp_walk|].
  exact (discrete_trajectory_times
           ramp 0 1 (1 / 2) 1 default_max_iter 3 _ _ _ Rlt_0_1 ramp_walk).
Defined.

Lemma discrete_trajectory_constant_witness :
  0 < 5 / 2 /\ 0 <= 0 /\
  exists (position : list vec3) (dwell time : list R),
    discrete_trajectory (fun _ => (0, 0, 0)) 0 (5 / 2) 0 1 default_max_iter
                        (Z.to_nat (Zceil (5 / 2)))
    = Return (position, dwell, time) /\
    Z.of_nat (length position) = Zceil (5 / 2) /\
    length dwell = length position /\
    length time = length position /\
    sum_list dwell = 5 / 2.
Proof.
  assert (H1 : 0 < 5 / 2) by lra.
  assert (H2 : 0 <= 0) by lra.
  split; [exact H1|]. split; [exact H2|].
  exact (discrete_trajectory_constant (0, 0, 0) (5 / 2) 0 default_max_iter
                                      H1 H2).
Defined.

(** Every candidate on the path [jump] after time 0 is too far from the
    start for [dx = 1/2]. *)
Lemma jump_rejected (k : nat) :
  1 / 2 < euclidian_dist (jump (0 + (Rmin (0 + 1) 1 - 0) / 2 ^ k)) (jump 0).
Proof.
  replace (Rmin (0 + 1) 1) with 1
    by (unfold Rmin; destruct (Rle_dec (0 + 1) 1); lra).
  assert (Hpos : 0 < 0 + (1 - 0) / 2 ^ k).
  { assert (0 < 2 ^ k) by (apply pow_lt; lra).
    assert (0 < / 2 ^ k) by (apply Rinv_0_lt_compat; assumption).
    unfold Rdiv. lra. }
  unfold jump.
  rewrite (proj2 (Rltb_true _ _) Hpos).
  rewrite (proj2 (Rltb_false 0 0)) by lra.
  rewrite euclidian_dist_h.
  unfold Rabs. destruct (Rcase_abs (1 - 0)); lra.
Qed.

Lemma discrete_trajectory_raises_witness :
  0 < 1 /\
  (exists fuel,
      discrete_trajectory jump 0 1 (1 / 2) 1 default_max_iter fuel
      = Raise RuntimeError) /\
  (forall fuel r,
      discrete_trajectory jump 0 1 (1 / 2) 1 default_max_iter fuel
      <> Return r).
Proof.
  split; [exact Rlt_0_1|].
  exact (proj1 (proj2 (discrete_trajectory_raises
                         jump 0 1 (1 / 2) 1 default_max_iter))
               Rlt_0_1 (fun k _ => jump_rejected k)).
Defined.

(** ** Scalars *)

Lemma Zceil_IZR (z : Z) : Zceil (IZR z) = z.
Proof. apply Zceil_eq. lra. Qed.

Lemma int_of_IZR (z : Z) : int_of (IZR z) = z.
Proof.
  unfold int_of. destruct (Rle_dec 0 (IZR z)); [apply ZfloorZ | apply Zceil_IZR].
Qed.

Lemma int_of_nonneg (x : R) : 0 <= x -> int_of x = Zfloor x /\ (0 <= int_of x)%Z.
Proof.
  intros H. unfold int_of. destruct (Rle_dec 0 x); [|contradiction].
  split; [reflexivity|]. apply Zfloor_lub. simpl. assumption.
Qed.

Lemma pdiv_ok (a b : R) : b <> 0 -> pdiv a b = Return (a / b).
Proof. intros H. unfold pdiv. destruct (Req_dec_T b 0); [contradiction | reflexivity]. Qed.

Lemma np_mod_zero (p x : R) : p <> 0 -> (np_mod x p = 0 <-> multiple_of p x).
Proof.
  intros Hp. unfold np_mod, multiple_of. split.
  - intros H. exists (Zfloor (x / p)). lra.
  - intros [k ->].
    replace (IZR k * p / p) with (IZR k) by (field; assumption).
    rewrite ZfloorZ. ring.
Qed.

Lemma Zceil_ge_1 (x : R) : 1 <= x -> (1 <= Zceil x)%Z.
Proof.
  intros H. destruct (Zceil_bound x) as [_ Hhi].
  assert (IZR 0 < IZR (Zceil x)) by (simpl; lra).
  apply lt_IZR in H0. lia.
Qed.

Lemma div_ge_1 (a b : R) : 0 < b -> b <= a -> 1 <= a / b.
Proof.
  intros Hb Hab.
  apply (Rmult_le_reg_r b); [assumption|].
  replace (a / b * b) with a by (field; lra). lra.
Qed.

(** ** [Probe.line_offsets] *)

Lemma fit_line_width_small (self : Probe) (pixel_size : R) :
  width self < pixel_size / 16 \/
  width self * aspect self < pixel_size / 16 ->
  fit_line_width pixel_size self
  = (with_line_width self (pixel_size / 16), Raise NotImplementedError).
Proof.
  intros H. unfold fit_line_width, mbind, get_self, set_line_width, lift.
  simpl.
  destruct H as [H|H]; apply Rltb_true in H; rewrite H;
    [reflexivity | rewrite orb_true_r; reflexivity].
Qed.

Lemma fit_line_width_fits (self : Probe) (pixel_size : R) :
  0 < pixel_size ->
  pixel_size / 16 <= width self ->
  pixel_size / 16 <= width self * aspect self ->
  fit_line_width pixel_size self
  = (with_line_width self
       (width self / IZR (Zceil (width self / (pixel_size / 16)))),
     Return tt).
Proof.
  intros Hp Hw Hh. unfold fit_line_width, mbind, get_self, set_line_width, lift.
  simpl.
  rewrite (proj2 (Rltb_false _ _) Hw), (proj2 (Rltb_false _ _) Hh). simpl.
  rewrite pdiv_ok by lra.
  assert (1 <= Zceil (width self / (pixel_size / 16)))%Z.
  { apply Zceil_ge_1, div_ge_1; lra. }
  rewrite pdiv_ok; [reflexivity|].
  apply IZR_le in H. simpl in H. lra.
Qed.

Lemma axis_offsets_ok (extent lw : R) :
  lw <> 0 -> 0 <= extent / lw ->
  axis_offsets extent lw
  = Return (axis_points extent lw (int_of (extent / lw))).
Proof.
  intros Hlw Hq. unfold axis_offsets. rewrite pdiv_ok by assumption.
  simpl. unfold linspace.
  destruct (int_of_nonneg _ Hq) as [_ Hn].
  destruct (Z.ltb_spec (int_of (extent / lw)) 0); [lia|].
  reflexivity.
Qed.

Lemma combine_app_same {A B : Type} (l1 l2 : list A) (k1 k2 : list B) :
  length l1 = length k1 ->
  combine (l1 ++ l2) (k1 ++ k2) = combine l1 k1 ++ combine l2 k2.
Proof.
  revert k1. induction l1 as [|a l1 IH]; intros [|b k1] H; try discriminate.
  - reflexivity.
  - simpl. rewrite IH; [reflexivity|]. simpl in H. lia.
Qed.

Lemma combine_const {A B : Type} (l : list A) (b : B) :
  combine l (map (fun _ => b) l) = map (fun a => (a, b)) l.
Proof. induction l as [|a l IH]; simpl; [|rewrite IH]; reflexivity. Qed.

(** The rows that [meshgrid], [flatten] and [stack] build are the grid. *)
Lemma meshgrid_rows (profile : R -> R -> number) (gh gv : list R) :
  map (fun row : vec3 => (row, profile (snd (fst row)) (snd row)))
      (map (fun hv => (0, fst hv, snd hv))
           (combine (flatten (fst (meshgrid_xy gh gv)))
                    (flatten (snd (meshgrid_xy gh gv)))))
  = grid_lines profile gh gv.
Proof.
  unfold meshgrid_xy, flatten, grid_lines. simpl.
  induction gv as [|v gv IH]; [reflexivity|].
  simpl. rewrite combine_app_same by (rewrite length_map; reflexivity).
  rewrite !map_app. f_equal; [|exact IH].
  rewrite combine_const, !map_map. reflexivity.
Qed.

(** [line_offsets] on a probe that is not too small. *)
Lemma line_offsets_ok (self : Probe) (pixel_size : R) :
  0 < pixel_size ->
  pixel_size / 16 <= width self ->
  pixel_size / 16 <= width self * aspect self ->
  let ncells := Zceil (width self / (pixel_size / 16)) in
  let lw := width self / IZR ncells in
  line_offsets pixel_size self
  = (with_line_width self lw,
     Return (grid_lines (density_profile self)
               (axis_points (width self) lw ncells)
               (axis_points (width self * aspect self) lw
                            (int_of (width self * aspect self / lw))))) /\
  (1 <= ncells)%Z /\
  0 < lw <= pixel_size / 16 /\
  width self = IZR ncells * lw.
Proof.
  intros Hp Hw Hh ncells lw.
  assert (Hn : (1 <= ncells)%Z) by (apply Zceil_ge_1, div_ge_1; lra).
  assert (Hn' : 1 <= IZR ncells) by (apply IZR_le in Hn; assumption).
  assert (Hwpos : 0 < width self) by lra.
  assert (Hlw : 0 < lw).
  { unfold lw. apply Rdiv_lt_0_compat; lra. }
  assert (Hle : lw <= pixel_size / 16).
  { unfold lw.
    destruct (Zceil_bound (width self / (pixel_size / 16))) as [_ Hhi].
    fold ncells in Hhi.
    apply (Rmult_le_reg_r (IZR ncells)); [lra|].
    replace (width self / IZR ncells * IZR ncells) with (width self)
      by (field; lra).
    apply (Rmult_le_compat_r (pixel_size / 16)) in Hhi; [|lra].
    replace (width self / (pixel_size / 16) * (pixel_size / 16))
      with (width self) in Hhi by (field; lra).
    lra. }
  assert (Hwn : width self = IZR ncells * lw) by (unfold lw; field; lra).
  repeat split; try assumption.
  unfold line_offsets, mbind, get_self, lift.
  rewrite fit_line_width_fits by assumption.
  fold ncells. fold lw. simpl.
  rewrite axis_offsets_ok;
    [|lra | left; apply Rdiv_lt_0_compat; assumption].
  rewrite axis_offsets_ok;
    [|lra | left; apply Rdiv_lt_0_compat; lra].
  unfold mret. f_equal. f_equal.
  replace (width self / lw) with (IZR ncells) by (unfold lw; field; lra).
  rewrite int_of_IZR. apply meshgrid_rows.
Qed.

Lemma line_offsets_small (self : Probe) (pixel_size : R) :
  width self < pixel_size / 16 \/
  width self * aspect self < pixel_size / 16 ->
  line_offsets pixel_size self
  = (with_line_width self (pixel_size / 16), Raise NotImplementedError).
Proof.
  intros H. unfold line_offsets, mbind, get_self.
  rewrite fit_line_width_small by assumption. reflexivity.
Qed.

(** C7: for a pixel size [0 < pixel_size], [line_offsets] raises exactly
    when the width or the height [width * aspect] of the probe is less
    than [pixel_size / 16]; what it raises is [NotImplementedError], and it
    raises it before any subline is built; otherwise it returns the list
    of sublines. *)
Theorem line_offsets_fails_iff (self : Probe) (pixel_size : R) :
  0 < pixel_size ->
  ((exists e, snd (line_offsets pixel_size self) = Raise e) <->
   (width self < pixel_size / 16 \/
    width self * aspect self < pixel_size / 16)) /\
  (forall e, snd (line_offsets pixel_size self) = Raise e ->
             e = NotImplementedError) /\
  (~ (width self < pixel_size / 16 \/
      width self * aspect self < pixel_size / 16) ->
   exists lines, snd (line_offsets pixel_size self) = Return lines).
Proof.
  intros Hp.
  destruct (Rlt_dec (width self) (pixel_size / 16)) as [Hw|Hw].
  { rewrite line_offsets_small by (left; assumption). simpl.
    repeat split; try tauto.
    - intros _. eexists. reflexivity.
    - intros e H. congruence. }
  destruct (Rlt_dec (width self * aspect self) (pixel_size / 16)) as [Hh|Hh].
  { rewrite line_offsets_small by (right; assumption). simpl.
    repeat split; try tauto.
    - intros _. eexists. reflexivity.
    - intros e H. congruence. }
  destruct (line_offsets_ok self pixel_size Hp) as (E & _); try lra.
  rewrite E. simpl.
  repeat split.
  - intros [e H]. discriminate.
  - tauto.
  - intros e H. discriminate.
  - intros _. eexists. reflexivity.
Qed.

Lemma line_offsets_fails_iff_witness :
  0 < 1 / 100 /\
  ((exists e, snd (line_offsets (1 / 100) (Probe_init None None)) = Raise e) <->
   (width (Probe_init None None) < 1 / 100 / 16 \/
    width (Probe_init None None) * aspect (Probe_init None None)
    < 1 / 100 / 16)) /\
  (forall e, snd (line_offsets (1 / 100) (Probe_init None None)) = Raise e ->
             e = NotImplementedError) /\
  (~ (width (Probe_init None None) < 1 / 100 / 16 \/
      width (Probe_init None None) * aspect (Probe_init None None)
      < 1 / 100 / 16) ->
   exists lines,
     snd (line_offsets (1 / 100) (Probe_init None None)) = Return lines).
Proof.
  assert (H : 0 < 1 / 100) by lra.
  split; [exact H|].
  exact (line_offsets_fails_iff (Probe_init None None) (1 / 100) H).
Defined.

Lemma length_axis_points (extent lw : R) (num : Z) :
  length (axis_points extent lw num) = Z.to_nat num.
Proof. unfold axis_points. rewrite !length_map, length_seq. reflexivity. Qed.

Lemma length_grid_lines (profile : R -> R -> number) (gh gv : list R) :
  length (grid_lines profile gh gv) = (length gv * length gh)%nat.
Proof.
  unfold grid_lines. induction gv as [|v gv IH]; [reflexivity|].
  simpl. rewrite length_app, length_map. f_equal. exact IH.
Qed.

(** C2: on a probe that [line_offsets] accepts, for [0 < pixel_size] and a
    width above [pixel_size / 16], the line width that the call leaves in
    the probe is [width / ceil(width / (pixel_size / 16))]; it is at most
    [pixel_size / 16], the width is a whole number of line widths, and no
    [width / k] with [k] a positive integer lies above it and still within
    [pixel_size / 16].  For the width 0.16, the aspect 1 and the pixel size
    0.01 there are 256 sublines on each axis, 256 line widths make up the
    width, and the line width is at most [0.01 / 16]. *)
Theorem line_offsets_line_width :
  (forall (self : Probe) (pixel_size : R),
      0 < pixel_size ->
      pixel_size / 16 < width self ->
      pixel_size / 16 <= width self * aspect self ->
      let lw := line_width (fst (line_offsets pixel_size self)) in
      lw = width self / IZR (Zceil (width self / (pixel_size / 16))) /\
      lw <= pixel_size / 16 /\
      (exists n : Z, (1 <= n)%Z /\ width self = IZR n * lw) /\
      (forall k : Z, (1 <= k)%Z ->
                     width self / IZR k <= pixel_size / 16 ->
                     width self / IZR k <= lw)) /\
  (let self := Probe_init None (Some (0.16, 1)) in
   exists (self' : Probe) (lines : list (vec3 * number)),
     line_offsets 0.01 self = (self', Return lines) /\
     line_width self' <= 0.01 / 16 /\
     int_of (width self / line_width self') = 256%Z /\
     int_of (width self * aspect self / line_width self') = 256%Z /\
     256 * line_width self' = 0.16 /\
     length lines = (256 * 256)%nat).
Proof.
  split.
  - intros self pixel_size Hp Hw Hh lw.
    destruct (line_offsets_ok self pixel_size Hp) as (E & Hn & Hlw & Hwn);
      try lra.
    unfold lw. rewrite E. simpl.
    repeat split.
    + apply Hlw.
    + eexists. split; eassumption.
    + intros k Hk Hle.
      assert (Hk' : 1 <= IZR k) by (apply IZR_le in Hk; assumption).
      assert (Hq : width self / (pixel_size / 16) <= IZR k).
      { apply (Rmult_le_reg_r (pixel_size / 16)); [lra|].
        replace (width self / (pixel_size / 16) * (pixel_size / 16))
          with (width self) by (field; lra).
        apply (Rmult_le_compat_r (IZR k)) in Hle; [|lra].
        replace (width self / IZR k * IZR k) with (width self) in Hle
          by (field; lra).
        lra. }
      apply Zceil_le in Hq. rewrite Zceil_IZR in Hq.
      apply IZR_le in Hq. apply IZR_le in Hn. simpl in Hn.
      unfold Rdiv. apply Rmult_le_compat_l; [lra|].
      apply Rinv_le_contravar; lra.
  - intros self.
    assert (Hp : 0 < 0.01) by lra.
    destruct (line_offsets_ok self 0.01 Hp) as (E & _ & _ & _).
    { simpl. lra. }
    { simpl. lra. }
    assert (Hc : Zceil (width self / (0.01 / 16)) = 256%Z).
    { apply Zceil_eq. simpl. lra. }
    rewrite Hc in E.
    assert (Hlw : width self / 256 = 0.01 / 16) by (simpl; lra).
    rewrite Hlw in E.
    assert (Hv : int_of (width self * aspect self / (0.01 / 16)) = 256%Z).
    { replace (width self * aspect self / (0.01 / 16)) with (IZR 256)
        by (simpl; lra).
      apply int_of_IZR. }
    rewrite Hv in E.
    eexists. eexists. split; [exact E|].
    simpl line_width.
    split; [|split; [|split; [|split]]].
    + lra.
    + replace (width self / (0.01 / 16)) with (IZR 256) by (simpl; lra).
      apply int_of_IZR.
    + exact Hv.
    + lra.
    + rewrite length_grid_lines, !length_axis_points. reflexivity.
Qed.

Lemma line_offsets_line_width_witness :
  let self := Probe_init None (Some (0.16, 1)) in
  0 < 0.01 /\
  0.01 / 16 < width self /\
  0.01 / 16 <= width self * aspect self /\
  let lw := line_width (fst (line_offsets 0.01 self)) in
  lw = width self / IZR (Zceil (width self / (0.01 / 16))) /\
  lw <= 0.01 / 16 /\
  (exists n : Z, (1 <= n)%Z /\ width self = IZR n * lw) /\
  (forall k : Z, (1 <= k)%Z ->
                 width self / IZR k <= 0.01 / 16 ->
                 width self / IZR k <= lw).
Proof.
  intros self.
  assert (H1 : 0 < 0.01) by lra.
  assert (H2 : 0.01 / 16 < width self) by (simpl; lra).
  assert (H3 : 0.01 / 16 <= width self * aspect self) by (simpl; lra).
  split; [exact H1|]. split; [exact H2|]. split; [exact H3|].
  exact (proj1 line_offsets_line_width self 0.01 H1 H2 H3).
Defined.

(** The centres of the horizontal axis are symmetric about 0 whenever the
    axis is cut into [num] cells of the line width. *)
Lemma axis_points_symmetric (extent lw : R) (num : Z) (c : R) :
  (1 <= num)%Z -> extent = IZR num * lw ->
  In c (axis_points extent lw num) -> In (- c) (axis_points extent lw num).
Proof.
  intros Hn He. unfold axis_points. rewrite !map_map, !in_map_iff.
  intros (i & <- & Hi). apply in_seq in Hi.
  exists (Z.to_nat num - 1 - i)%nat. split.
  - assert (Hnum : INR (Z.to_nat num) = IZR num).
    { rewrite INR_IZR_INZ, Z2Nat.id by lia. reflexivity. }
    rewrite !minus_INR by lia. rewrite Hnum. simpl INR.
    assert (IZR num <> 0) by (apply IZR_le in Hn; lra).
    rewrite He. field. assumption.
  - apply in_seq. lia.
Qed.

(** C6, evaluated on the probe of width 1 and aspect 3/2 with the pixel
    size 16: the line width is 1, each axis has one centre, and the only
    subline is at [(0, 0, -1/4)]; its mirror image [(0, 0, 1/4)] is not in
    the list, and the vertical offsets add up to [-1/4]. *)
Theorem line_offsets_not_symmetric :
  let self := Probe_init None (Some (1, 3 / 2)) in
  line_offsets 16 self
  = (with_line_width self 1, Return [((0, 0, - (1 / 4)), PyInt 1)]) /\
  width self >= 16 / 16 /\ width self * aspect self >= 16 / 16 /\
  ~ In (0, - 0, - - (1 / 4)) (map fst [((0, 0, - (1 / 4)), PyInt 1)]) /\
  sum_list (map (fun l : vec3 * number => snd (fst l))
                [((0, 0, - (1 / 4)), PyInt 1)])
  <> 0.
Proof.
  intros self.
  assert (Hp : 0 < 16) by lra.
  destruct (line_offsets_ok self 16 Hp) as (E & _ & _ & _).
  { simpl. lra. }
  { simpl. lra. }
  assert (Hc : Zceil (width self / (16 / 16)) = 1%Z).
  { apply Zceil_eq. simpl. lra. }
  rewrite Hc in E.
  assert (Hlw : width self / 1 = 1) by (simpl; lra).
  rewrite Hlw in E.
  assert (Hv : int_of (width self * aspect self / 1) = 1%Z).
  { destruct (int_of_nonneg (width self * aspect self / 1)) as [-> _].
    - simpl. lra.
    - apply Zfloor_eq. simpl. lra. }
  rewrite Hv in E.
  split; [|split; [|split; [|split]]].
  - rewrite E. unfold grid_lines, axis_points. simpl.
    repeat (f_equal; try lra).
  - simpl. lra.
  - simpl. lra.
  - simpl. intros [H|[]]. injection H as H. lra.
  - unfold sum_list. simpl. lra.
Qed.

(** ** [Probe.procedure] *)

Lemma concatenate_columns_ok (position : list vec3) (column : list R)
    (rays : list (vec3 * R)) :
  concatenate_columns position column = Return rays ->
  position <> [] /\ length position = length column /\
  rays = combine position column.
Proof.
  unfold concatenate_columns. destruct position as [|p position].
  - discriminate.
  - destruct (Nat.eqb_spec (length (p :: position)) (length column)) as [E|E];
      [|discriminate].
    intros H. injection H as <-. repeat split; [discriminate | assumption].
Qed.

(** A run that returns a sample started with [tmin < tmax]. *)
Lemma discrete_trajectory_nonempty (trajectory : R -> vec3)
    (tmin tmax dx dt : R) (max_iter : Z) (fuel : nat)
    (position : list vec3) (dwell time : list R) :
  discrete_trajectory trajectory tmin tmax dx dt max_iter fuel
  = Return (position, dwell, time) ->
  position <> [] -> tmin < tmax.
Proof.
  intros Hr Hne. destruct (Rlt_dec tmin tmax) as [H|H]; [assumption|].
  rewrite discrete_trajectory_degenerate in Hr by lra.
  injection Hr as <- _ _. contradiction.
Qed.

Lemma length_concat_repeat (l : list R) (m : nat) :
  length (concat (repeat l m)) = (m * length l)%nat.
Proof.
  induction m as [|m IH]; [reflexivity|].
  cbn [repeat concat]. rewrite length_app, IH. reflexivity.
Qed.

(** [dwell * weight] has as many entries as [dwell], a list that is not
    empty, only for the integer 1. *)
Lemma list_times_column (dwell column : list R) (weight : number) :
  list_times dwell weight = Return column ->
  dwell <> [] -> length column = length dwell ->
  weight = PyInt 1 /\ column = dwell.
Proof.
  destruct weight as [k|x]; [|discriminate].
  intros H Hne Hlen. injection H as <-.
  rewrite length_concat_repeat in Hlen.
  assert (Hpos : (0 < length dwell)%nat).
  { destruct dwell; [contradiction|simpl; lia]. }
  assert (Hk : Z.to_nat k = 1%nat) by nia.
  rewrite Hk. cbn [repeat concat]. rewrite app_nil_r.
  split; [f_equal; lia|reflexivity].
Qed.

Lemma procedure_loop_rays (fuel : nat) (trajectory : R -> vec3)
    (tmin tmax dx dt : R) (lines : list (vec3 * number)) :
  forall acc positions,
    procedure_loop fuel trajectory tmin tmax dx dt lines acc
    = Return positions ->
    exists new,
      positions = acc ++ new /\
      Forall2 (subline_rays fuel trajectory tmin tmax dx dt) lines new.
Proof.
  induction lines as [|[offset weight] lines IH]; intros acc positions H.
  - simpl in H. injection H as <-. exists []. rewrite app_nil_r.
    split; [reflexivity | constructor].
  - simpl in H.
    destruct (discrete_trajectory (fun t => vadd (trajectory t) offset)
                tmin tmax dx dt default_max_iter fuel)
      as [[[position dwell] time]| |] eqn:Hrun; simpl in H; try discriminate.
    destruct (list_times dwell weight) as [column| |] eqn:Htimes;
      simpl in H; try discriminate.
    destruct (concatenate_columns position column)
      as [rays| |] eqn:Hcat; simpl in H; try discriminate.
    destruct (IH _ _ H) as (new & -> & Hnew).
    exists (rays :: new). rewrite <- app_assoc. split; [reflexivity|].
    constructor; [|assumption].
    destruct (concatenate_columns_ok _ _ _ Hcat) as (Hne & Hlen & ->).
    assert (Hlt : tmin < tmax)
      by (eapply discrete_trajectory_nonempty; eassumption).
    destruct (discrete_trajectory_return _ _ _ _ _ _ _ _ Hlt Hrun)
      as (_ & s' & HI & Ht & E).
    injection E as -> -> ->.
    destruct (inv_lengths _ _ _ _ _ _ HI) as [Hl1 Hl2].
    destruct (inv_times _ _ _ _ _ _ HI Ht Hlt) as (Hsorted & _).
    destruct (list_times_column _ _ _ Htimes) as [-> ->].
    { intros E. rewrite E in Hl2. destruct (w_position s');
        [contradiction|discriminate]. }
    { congruence. }
    exists (w_position s'), (w_dwell s'), (w_time s').
    repeat split; assumption.
Qed.

(** When [Probe.procedure] returns, the probe holds the line width set by
    [line_offsets], every subline has the integer weight 1, and the result
    has one list of rays for each subline, in their order. *)
Lemma procedure_returns_rays (fuel : nat) (trajectory : R -> vec3)
    (pixel_size tmin tmax dt : R) (self self' : Probe)
    (positions : list (list (vec3 * R))) :
  procedure fuel trajectory pixel_size tmin tmax dt self
  = (self', Return positions) ->
  exists lines,
    line_offsets pixel_size self = (self', Return lines) /\
    Forall2 (subline_rays fuel trajectory tmin tmax (line_width self') dt)
            lines positions.
Proof.
  unfold procedure, mbind, get_self, lift.
  destruct (line_offsets pixel_size self) as [self1 [lines| |]];
    intros H; try (injection H as _ H; discriminate).
  injection H as -> H.
  exists lines. split; [reflexivity|].
  destruct (procedure_loop_rays _ _ _ _ _ _ _ _ _ H) as (new & -> & Hnew).
  exact Hnew.
Qed.

(** A path at rest for one second, with [dt = 1]: one sample. *)
Lemma rest_walk (c : vec3) (dx : R) (max_iter : Z) :
  0 <= dx ->
  discrete_trajectory (fun _ => c) 0 1 dx 1 max_iter 1
  = Return ([c], [Rmin (0 + 1) 1 - 0], [0]).
Proof.
  intros Hdx. unfold discrete_trajectory.
  rewrite while_S, (proj2 (Rltb_true _ _)) by (simpl; lra).
  rewrite body_fresh_accept;
    [|reflexivity | simpl; rewrite euclidian_dist_refl; assumption].
  unfold bind.
  rewrite while_exit; [reflexivity|].
  simpl. unfold Rmin. destruct (Rle_dec (0 + 1) 1); lra.
Qed.

(** The probe of width 1 and aspect 1 at rest for one second, on pixels
    of size 16: one subline with one sample, whose dwell time [d] is
    multiplied by the weight that the profile gives. *)
Lemma procedure_unit_probe (profile : option (R -> R -> number)) :
  let self := Probe_init profile (Some (1, 1)) in
  exists (self' : Probe) (c : vec3) (d h v : R),
    procedure 1 (fun _ => (0, 0, 0)) 16 0 1 1 self
    = (self',
       (column <- list_times [d] (density_profile self h v) ;;
        position' <- concatenate_columns [c] column ;;
        Return [position'])%outcome).
Proof.
  intros self.
  assert (Hp : 0 < 16) by lra.
  destruct (line_offsets_ok self 16 Hp) as (E & _ & _ & _).
  { simpl. lra. }
  { simpl. lra. }
  assert (Hc : Zceil (width self / (16 / 16)) = 1%Z).
  { apply Zceil_eq. simpl. lra. }
  rewrite Hc in E.
  assert (Hv : int_of (width self * aspect self / (width self / 1)) = 1%Z).
  { replace (width self * aspect self / (width self / 1)) with (IZR 1)
      by (simpl; lra).
    apply int_of_IZR. }
  rewrite Hv in E.
  unfold procedure, mbind, get_self, lift. rewrite E.
  unfold grid_lines, axis_points. simpl flat_map. simpl line_width.
  unfold procedure_loop.
  match goal with
  | |- context [discrete_trajectory (fun t => vadd _ ?o) _ _ ?dx _ _ _] =>
      assert (Hrun := rest_walk (vadd (0, 0, 0) o) dx default_max_iter)
  end.
  rewrite Hrun by lra. cbn [bind app].
  do 5 eexists. reflexivity.
Qed.

(** C5: [Probe.procedure] does not weight the rays.  [dwell] is a Python
    list, so that [dwell * weight] raises [TypeError] for a profile that
    returns a float and repeats the list for an integer, which
    [np.concatenate] refuses unless the integer is 1.  On the probe of
    width 1 and aspect 1 at rest for one second, with the pixel size 16,
    the profile 0.5 gives [TypeError] and the profile 2 gives
    [ValueError]; and whenever the call returns, every subline has the
    integer weight 1, and its rays are the samples that
    [discrete_trajectory] returns for the path [t |-> trajectory t + offset]
    with [dx] the line width, the caller's [dt] and the default [max_iter],
    in the order of their increasing times, each with its bare dwell time
    as its fourth entry. *)
Theorem procedure_rays_not_weighted :
  snd (procedure 1 (fun _ => (0, 0, 0)) 16 0 1 1
         (Probe_init (Some (fun _ _ => PyFloat 0.5)) (Some (1, 1))))
  = Raise TypeError /\
  snd (procedure 1 (fun _ => (0, 0, 0)) 16 0 1 1
         (Probe_init (Some (fun _ _ => PyInt 2)) (Some (1, 1))))
  = Raise ValueError /\
  (forall (fuel : nat) (trajectory : R -> vec3)
          (pixel_size tmin tmax dt : R) (self self' : Probe)
          (positions : list (list (vec3 * R))),
      procedure fuel trajectory pixel_size tmin tmax dt self
      = (self', Return positions) ->
      exists lines,
        line_offsets pixel_size self = (self', Return lines) /\
        Forall2 (subline_rays fuel trajectory tmin tmax (line_width self') dt)
                lines positions).
Proof.
  split; [|split].
  - destruct (procedure_unit_probe (Some (fun _ _ => PyFloat 0.5)))
      as (self' & c & d & h & v & E).
    rewrite E. reflexivity.
  - destruct (procedure_unit_probe (Some (fun _ _ => PyInt 2)))
      as (self' & c & d & h & v & E).
    rewrite E. reflexivity.
  - intros. eapply procedure_returns_rays. eassumption.
Qed.

(** ** [coverage_approx] *)

Lemma misaligned_iff (box : list (R * R)) (pixel_size : R) :
  pixel_size <> 0 ->
  (misaligned box pixel_size = true <->
   Exists (fun b => ~ multiple_of pixel_size (fst b) \/
                    ~ multiple_of pixel_size (snd b)) box).
Proof.
  intros Hp. unfold misaligned.
  rewrite existsb_exists, Exists_exists.
  split; intros (b & Hin & Hb); exists b; (split; [assumption|]).
  - apply orb_true_iff in Hb.
    destruct Hb as [Hb|Hb]; [left|right]; intros Hm;
      apply (np_mod_zero _ _ Hp) in Hm; apply Reqb_true in Hm;
      rewrite Hm in Hb; discriminate.
  - apply orb_true_iff.
    destruct Hb as [Hb|Hb]; [left|right]; apply negb_true_iff;
      unfold Reqb; destruct (Req_dec_T _ 0) as [E|E]; try reflexivity;
      apply (np_mod_zero _ _ Hp) in E; contradiction.
Qed.

Lemma ibox_shape_eq (box : list (R * R)) (pixel_size : R) :
  ibox_shape box pixel_size
  = map (fun b => (Zceil (snd b / pixel_size)
                   - Zfloor (fst b / pixel_size))%Z) box.
Proof.
  unfold ibox_shape, ibox. rewrite map_map. apply map_ext.
  intros b. simpl. rewrite <- minus_IZR. apply int_of_IZR.
Qed.

Lemma ordered_region (box : list (R * R)) :
  Forall (fun b => fst b <= snd b) box ->
  forallb (fun b => Rleb (fst b) (snd b)) box = true.
Proof.
  intros H. apply forallb_forall. rewrite Forall_forall in H.
  intros b Hb. apply Rleb_true. apply H. assumption.
Qed.

Lemma ibox_shape_nonneg (box : list (R * R)) (pixel_size : R) :
  0 < pixel_size ->
  Forall (fun b => fst b <= snd b) box ->
  np_zeros (ibox_shape box pixel_size) = Return (ibox_shape box pixel_size).
Proof.
  intros Hp Hord. unfold np_zeros.
  destruct (existsb (fun d => (d <? 0)%Z) (ibox_shape box pixel_size)) eqn:E;
    [|reflexivity].
  apply existsb_exists in E. destruct E as (d & Hin & Hd).
  rewrite ibox_shape_eq in Hin. apply in_map_iff in Hin.
  destruct Hin as (b & <- & Hb).
  rewrite Forall_forall in Hord. specialize (Hord b Hb).
  apply Z.ltb_lt in Hd.
  destruct (Zfloor_bound (fst b / pixel_size)) as [Hlo _].
  destruct (Zceil_bound (snd b / pixel_size)) as [_ Hhi].
  assert (fst b / pixel_size <= snd b / pixel_size).
  { unfold Rdiv. apply Rmult_le_compat_r; [|assumption].
    left. apply Rinv_0_lt_compat. assumption. }
  assert (Hle : IZR (Zfloor (fst b / pixel_size))
                <= IZR (Zceil (snd b / pixel_size))) by lra.
  apply le_IZR in Hle. lia.
Qed.

(** The warnings and the grid of a call on an ordered region. *)
Lemma coverage_approx_ok (procedure : list (vec3 * R))
    (region : list (R * R)) (pixel_size line_width : R) :
  0 < pixel_size ->
  Forall (fun b => fst b <= snd b) region ->
  exists call,
    coverage_approx procedure region pixel_size line_width false
    = (if misaligned region pixel_size then [UserWarning] else [],
       Return call) /\
    coverage_map_shape call
    = map (fun b => (Zceil (snd b / pixel_size)
                     - Zfloor (fst b / pixel_size))%Z) region.
Proof.
  intros Hp Hord. unfold coverage_approx.
  rewrite (ordered_region _ Hord). simpl.
  rewrite (ibox_shape_nonneg _ _ Hp Hord). simpl.
  eexists. split; [reflexivity|]. simpl. apply ibox_shape_eq.
Qed.

(** C4: on a region with [min <= max] on every axis and [0 < pixel_size],
    [coverage_approx] hands a grid to the kernel; it warns exactly when
    some bound of the region is not an integer multiple of the pixel size;
    the grid has [ceil(max / pixel_size) - floor(min / pixel_size)] cells
    on each axis, and the bounds these stand for enclose the region.  The
    unit cube with pixels of 0.5 gives no warning and the shape
    [(2, 2, 2)]; with 0.97 as a maximum there is a warning, and that bound
    becomes [ceil(0.97 / 0.5) * 0.5 = 1]. *)
Theorem coverage_approx_aligns :
  (forall (procedure : list (vec3 * R)) (region : list (R * R))
          (pixel_size line_width : R),
      0 < pixel_size ->
      Forall (fun b => fst b <= snd b) region ->
      let out := coverage_approx procedure region pixel_size line_width false in
      (fst out = [UserWarning] <->
       Exists (fun b => ~ multiple_of pixel_size (fst b) \/
                        ~ multiple_of pixel_size (snd b)) region) /\
      (fst out = [UserWarning] \/ fst out = []) /\
      (exists call,
          snd out = Return call /\
          coverage_map_shape call
          = map (fun b => (Zceil (snd b / pixel_size)
                           - Zfloor (fst b / pixel_size))%Z) region) /\
      Forall (fun b =>
                IZR (Zfloor (fst b / pixel_size)) * pixel_size <= fst b /\
                snd b <= IZR (Zceil (snd b / pixel_size)) * pixel_size)
             region) /\
  (forall procedure line_width,
      exists call,
        coverage_approx procedure [(0, 1); (0, 1); (0, 1)] 0.5 line_width false
        = ([], Return call) /\
        coverage_map_shape call = [2; 2; 2]%Z) /\
  (forall procedure line_width,
      exists call,
        coverage_approx procedure [(0, 0.97); (0, 1); (0, 1)] 0.5
                        line_width false
        = ([UserWarning], Return call) /\
        IZR (Zceil (0.97 / 0.5)) * 0.5 = 1 /\
        coverage_map_shape call = [2; 2; 2]%Z).
Proof.
  assert (Hf0 : Zfloor (0 / 0.5) = 0%Z) by (apply Zfloor_eq; simpl; lra).
  assert (Hc1 : Zceil (1 / 0.5) = 2%Z) by (apply Zceil_eq; simpl; lra).
  assert (Hc97 : Zceil (0.97 / 0.5) = 2%Z) by (apply Zceil_eq; simpl; lra).
  assert (Hm0 : multiple_of 0.5 0) by (exists 0%Z; simpl; lra).
  assert (Hm1 : multiple_of 0.5 1) by (exists 2%Z; simpl; lra).
  assert (Hp : (0.5 : R) <> 0) by lra.
  split; [|split].
  - intros procedure region pixel_size line_width Hpos Hord out.
    destruct (coverage_approx_ok procedure region pixel_size line_width
                                 Hpos Hord) as (call & E & Hshape).
    assert (Hne : pixel_size <> 0) by lra.
    unfold out. rewrite E. simpl fst. simpl snd.
    split; [|split; [|split]].
    + rewrite <- (misaligned_iff _ _ Hne).
      destruct (misaligned region pixel_size); split; intros H;
        try reflexivity; discriminate.
    + destruct (misaligned region pixel_size); auto.
    + exists call. split; [reflexivity | assumption].
    + apply Forall_forall. intros b _.
      destruct (Zfloor_bound (fst b / pixel_size)) as [Hlo _].
      destruct (Zceil_bound (snd b / pixel_size)) as [_ Hhi].
      apply (Rmult_le_compat_r pixel_size) in Hlo; [|lra].
      apply (Rmult_le_compat_r pixel_size) in Hhi; [|lra].
      replace (fst b / pixel_size * pixel_size) with (fst b) in Hlo
        by (field; assumption).
      replace (snd b / pixel_size * pixel_size) with (snd b) in Hhi
        by (field; assumption).
      split; assumption.
  - intros procedure line_width.
    destruct (coverage_approx_ok procedure [(0, 1); (0, 1); (0, 1)] 0.5
                                 line_width) as (call & E & Hshape).
    { lra. }
    { repeat constructor; simpl; lra. }
    exists call. split.
    + rewrite E. f_equal.
      destruct (misaligned [(0, 1); (0, 1); (0, 1)] 0.5) eqn:Hmis;
        [|reflexivity].
      apply (misaligned_iff _ _ Hp) in Hmis.
      apply Exists_exists in Hmis. destruct Hmis as (b & Hin & Hb).
      simpl in Hin.
      destruct Hin as [<-|[<-|[<-|[]]]]; simpl in Hb; tauto.
    + rewrite Hshape. simpl. rewrite Hf0, Hc1. reflexivity.
  - intros procedure line_width.
    destruct (coverage_approx_ok procedure [(0, 0.97); (0, 1); (0, 1)] 0.5
                                 line_width) as (call & E & Hshape).
    { lra. }
    { repeat constructor; simpl; lra. }
    exists call. split; [|split].
    + rewrite E. f_equal.
      destruct (misaligned [(0, 0.97); (0, 1); (0, 1)] 0.5) eqn:Hmis;
        [reflexivity|].
      assert (Hex : misaligned [(0, 0.97); (0, 1); (0, 1)] 0.5 = true).
      { apply (misaligned_iff _ _ Hp). apply Exists_cons_hd. right.
        simpl. intros [k Hk].
        assert (H1 : IZR 1 < IZR k) by (simpl; lra).
        assert (H2 : IZR k < IZR 2) by (simpl; lra).
        apply lt_IZR in H1, H2. lia. }
      congruence.
    + rewrite Hc97. simpl. lra.
    + rewrite Hshape. simpl. rewrite Hf0, Hc1, Hc97. reflexivity.
Qed.

Lemma coverage_approx_aligns_witness :
  0 < 0.5 /\
  Forall (fun b : R * R => fst b <= snd b) [(0, 0.97); (0, 1); (0, 1)] /\
  let out := coverage_approx [] [(0, 0.97); (0, 1); (0, 1)] 0.5 1 false in
  (fst out = [UserWarning] <->
   Exists (fun b => ~ multiple_of 0.5 (fst b) \/ ~ multiple_of 0.5 (snd b))
          [(0, 0.97); (0, 1); (0, 1)]) /\
  (fst out = [UserWarning] \/ fst out = []) /\
  (exists call,
      snd out = Return call /\
      coverage_map_shape call
      = map (fun b => (Zceil (snd b / 0.5) - Zfloor (fst b / 0.5))%Z)
            [(0, 0.97); (0, 1); (0, 1)]) /\
  Forall (fun b =>
            IZR (Zfloor (fst b / 0.5)) * 0.5 <= fst b /\
            snd b <= IZR (Zceil (snd b / 0.5)) * 0.5)
         [(0, 0.97); (0, 1); (0, 1)].
Proof.
  assert (H1 : 0 < 0.5) by lra.
  assert (H2 : Forall (fun b : R * R => fst b <= snd b)
                      [(0, 0.97); (0, 1); (0, 1)])
    by (repeat constructor; simpl; lra).
  split; [exact H1|]. split; [exact H2|].
  exact (proj1 coverage_approx_aligns [] [(0, 0.97); (0, 1); (0, 1)] 0.5 1
               H1 H2).
Defined.

(** ** Symmetry of the grid of sublines *)

Lemma grid_lines_In (profile : R -> R -> number) (gh gv : list R)
    (l : vec3 * number) :
  In l (grid_lines profile gh gv) <->
  exists h v, In h gh /\ In v gv /\ l = ((0, h, v), profile h v).
Proof.
  unfold grid_lines. rewrite in_flat_map. split.
  - intros (v & Hv & Hl). apply in_map_iff in Hl.
    destruct Hl as (h & <- & Hh). exists h, v. auto.
  - intros (h & v & Hh & Hv & ->). exists v. split; [assumption|].
    apply in_map_iff. exists h. auto.
Qed.

(** When the height too is a whole number [m] of line widths, every
    subline has its mirror image in the list. *)
Lemma line_offsets_symmetric (self : Probe) (pixel_size : R) (m : Z)
    (lines : list (vec3 * number)) :
  0 < pixel_size ->
  pixel_size / 16 <= width self ->
  pixel_size / 16 <= width self * aspect self ->
  (1 <= m)%Z ->
  width self * aspect self
  = IZR m * (width self / IZR (Zceil (width self / (pixel_size / 16)))) ->
  snd (line_offsets pixel_size self) = Return lines ->
  forall h v w,
    In ((0, h, v), w) lines -> exists w', In ((0, - h, - v), w') lines.
Proof.
  intros Hp Hw Hh Hm Hheight Hlines h v w Hin.
  destruct (line_offsets_ok self pixel_size Hp Hw Hh) as (E & Hn & Hlw & Hwn).
  rewrite E in Hlines. simpl in Hlines. injection Hlines as <-.
  set (lw := width self / IZR (Zceil (width self / (pixel_size / 16)))) in *.
  assert (Hcount : int_of (width self * aspect self / lw) = m).
  { rewrite Hheight.
    replace (IZR m * lw / lw) with (IZR m) by (field; lra).
    apply int_of_IZR. }
  rewrite Hcount in Hin |- *.
  apply grid_lines_In in Hin.
  destruct Hin as (h' & v' & Hh' & Hv' & Heq).
  injection Heq as -> -> _.
  exists (density_profile self (- h') (- v')).
  apply grid_lines_In. exists (- h'), (- v').
  repeat split.
  - apply axis_points_symmetric; assumption.
  - apply axis_points_symmetric; assumption.
Qed.

(** C2 as first stated, on the probe of width 1.5 and aspect 0.1 with the
    pixel size 16: the width is above [16 / 16], the height 0.15 is below
    it, so [line_offsets] raises and leaves the line width at [16 / 16],
    which is not [1.5 / ceil(1.5 / (16 / 16)) = 0.75]. *)
Lemma line_offsets_thin_probe :
  let self := Probe_init None (Some (1.5, 0.1)) in
  16 / 16 < width self /\
  line_offsets 16 self
  = (with_line_width self (16 / 16), Raise NotImplementedError) /\
  line_width (fst (line_offsets 16 self))
  <> width self / IZR (Zceil (width self / (16 / 16))).
Proof.
  intros self.
  assert (E : line_offsets 16 self
              = (with_line_width self (16 / 16), Raise NotImplementedError)).
  { apply line_offsets_small. right. simpl. lra. }
  split; [simpl; lra|]. split; [exact E|].
  rewrite E. simpl.
  assert (Hc : Zceil (1.5 / (16 / 16)) = 2%Z) by (apply Zceil_eq; simpl; lra).
  rewrite Hc. lra.
Qed.

(** * Further properties *)

(** ** The output of [discrete_trajectory] *)


Lemma diffs_positive (l : list R) :
  Sorted Rlt l -> Forall (fun d => 0 < d) (diffs l).
Proof.
  induction 1 as [|a l Hs IH Hhd]; [constructor|].
  destruct l as [|b l]; [constructor|].
  change (diffs (a :: b :: l)) with ((b - a) :: diffs (b :: l)).
  constructor; [|assumption].
  inversion Hhd; subst. lra.
Qed.

Lemma sum_list_le (l : list R) (c : R) :
  Forall (fun d => d <= c) l -> sum_list l <= INR (length l) * c.
Proof.
  induction 1 as [|d l Hd Hl IH].
  - simpl. unfold sum_list. simpl. lra.
  - change (sum_list (d :: l)) with (d + sum_list l).
    change (length (d :: l)) with (S (length l)).
    rewrite S_INR. lra.
Qed.

Lemma StronglySorted_below_last (l : list R) (b : R) :
  StronglySorted Rlt (l ++ [b]) -> Forall (fun a => a < b) l.
Proof.
  induction l as [|c l IH]; simpl; intros Hs; [constructor|].
  inversion Hs as [|? ? Hs' Hall]; subst.
  constructor; [|apply IH; assumption].
  apply Forall_app in Hall. destruct Hall as [_ Hb].
  inversion Hb; subst. assumption.
Qed.

Lemma StronglySorted_above_head (l : list R) (a : R) :
  StronglySorted Rlt (a :: l) -> Forall (fun b => a <= b) (a :: l).
Proof.
  intros Hs. inversion Hs as [|? ? _ Hall]; subst.
  constructor; [lra|].
  eapply Forall_impl; [|exact Hall]. simpl. intros. lra.
Qed.

Section WalkProperties.

Variable trajectory : R -> vec3.
Variables tmin tmax dx dt : R.
Variable max_iter : Z.

Local Abbreviation sample :=
  (discrete_trajectory trajectory tmin tmax dx dt max_iter).

(** The recorded points of a state of the invariant. *)
Lemma inv_output (s : walk) :
  walk_inv trajectory tmin tmax dx dt s ->
  w_position s = map trajectory (w_time s) /\
  Sorted Rlt (w_time s ++ [w_t s]) /\
  Forall (fun d => 0 < d <= dt) (w_dwell s).
Proof.
  intros (acc & Hpos & Htime & Hdwell & Hchain & _ & Htraj & _).
  assert (Hts : map snd (acc ++ [(w_x s, w_t s)]) = w_time s ++ [w_t s]).
  { rewrite map_app, Htime. reflexivity. }
  assert (Hsorted : Sorted Rlt (w_time s ++ [w_t s])).
  { rewrite <- Hts. apply (Sorted_map (step_ok dx dt)); [|assumption].
    intros a b (_ & H & _). assumption. }
  split; [|split].
  - rewrite Hpos, Htime, map_map. apply map_ext_in.
    intros c Hc. apply Forall_app in Htraj. destruct Htraj as [Htraj _].
    rewrite Forall_forall in Htraj. apply Htraj. assumption.
  - assumption.
  - apply Forall_forall. intros d Hd.
    apply In_nth_error in Hd. destruct Hd as [i Hi].
    rewrite Hdwell in Hi.
    destruct (diffs_nth_error _ _ _ Hi) as (a & b & Ha & Hb & ->).
    rewrite nth_error_map in Ha, Hb.
    destruct (nth_error (acc ++ [(w_x s, w_t s)]) i) as [e|] eqn:He;
      [|discriminate].
    destruct (nth_error (acc ++ [(w_x s, w_t s)]) (S i)) as [e'|] eqn:He';
      [|discriminate].
    simpl in Ha, Hb. injection Ha as <-. injection Hb as <-.
    destruct (Sorted_nth_error _ _ Hchain _ _ _ He He') as (_ & H1 & H2).
    lra.
Qed.

(** X1: the three lists of a run that returns have the same length; each
    position is the path at its time; every dwell time is positive and at
    most [dt]; every time lies in [[tmin, tmax)]. *)
Theorem discrete_trajectory_output (fuel : nat)
    (position : list vec3) (dwell time : list R) :
  sample fuel = Return (position, dwell, time) ->
  length dwell = length position /\
  length time = length position /\
  position = map trajectory time /\
  Forall (fun d => 0 < d <= dt) dwell /\
  Forall (fun a => tmin <= a < tmax) time.
Proof.
  intros Hr.
  destruct (Rlt_dec tmin tmax) as [Hlt|Hge].
  - destruct (discrete_trajectory_return _ _ _ _ _ _ _ _ Hlt Hr)
      as (_ & s' & HI & Ht & E).
    injection E as -> -> ->.
    destruct (inv_lengths _ _ _ _ _ _ HI) as [Hl1 Hl2].
    destruct (inv_output _ HI) as (Hpos & Hsorted & Hdwell).
    destruct (inv_times _ _ _ _ _ _ HI Ht Hlt) as (_ & Hhd & _).
    repeat split; try assumption.
    rewrite Ht in Hsorted.
    apply Sorted_StronglySorted in Hsorted; [|exact Rlt_trans].
    assert (Hup := StronglySorted_below_last _ _ Hsorted).
    apply StronglySorted_app_l in Hsorted.
    destruct (w_time s') as [|a l]; [constructor|].
    simpl in Hhd. injection Hhd as ->.
    assert (Hlow := StronglySorted_above_head _ _ Hsorted).
    apply Forall_forall. intros b Hb.
    rewrite Forall_forall in Hup, Hlow.
    split; [apply Hlow | apply Hup]; assumption.
  - rewrite discrete_trajectory_degenerate in Hr by lra.
    injection Hr as <- <- <-.
    repeat split; constructor.
Qed.


(** X2: the number of samples of a run that returns is at least
    [(tmax - tmin) / dt]: the dwell times are at most [dt] each and add up
    to [tmax - tmin]. *)
Theorem discrete_trajectory_count_lower (fuel : nat)
    (position : list vec3) (dwell time : list R) :
  tmin < tmax ->
  sample fuel = Return (position, dwell, time) ->
  0 < dt /\
  tmax - tmin <= INR (length position) * dt /\
  (Zceil ((tmax - tmin) / dt) <= Z.of_nat (length position))%Z.
Proof.
  intros Hlt Hr.
  destruct (discrete_trajectory_return _ _ _ _ _ _ _ _ Hlt Hr)
    as (Hdt & s' & HI & Ht & E).
  injection E as -> -> ->.
  destruct (inv_lengths _ _ _ _ _ _ HI) as [_ Hl].
  destruct (inv_output _ HI) as (_ & _ & Hdwell).
  destruct (inv_times _ _ _ _ _ _ HI Ht Hlt) as (_ & _ & _ & Hsum).
  assert (Hle : tmax - tmin <= INR (length (w_position s')) * dt).
  { rewrite <- Hsum, <- Hl. apply sum_list_le.
    eapply Forall_impl; [|exact Hdwell]. simpl. intros. lra. }
  split; [assumption|]. split; [assumption|].
  assert (Hq : (tmax - tmin) / dt <= IZR (Z.of_nat (length (w_position s')))).
  { rewrite <- INR_IZR_INZ.
    apply (Rmult_le_reg_r dt); [assumption|].
    replace ((tmax - tmin) / dt * dt) with (tmax - tmin) by (field; lra).
    assumption. }
  apply Zceil_le in Hq. rewrite Zceil_IZR in Hq. assumption.
Qed.

(** The walk with [dt = 0] accepts its own position for ever. *)
Lemma while_standstill (fuel : nat) :
  dt = 0 -> 0 <= dx -> tmin < tmax ->
  forall s : walk,
    w_nextxt s = [] -> w_t s = tmin -> w_x s = trajectory tmin ->
    w_tnext s = tmin ->
    while trajectory tmax dx dt max_iter fuel s = OutOfFuel.
Proof.
  intros Hdt Hdx Hlt.
  induction fuel as [|fuel IH]; intros s Hstack Ht Hx Htnext.
  - simpl. rewrite (proj2 (Rltb_true _ _)) by lra. reflexivity.
  - rewrite while_S, (proj2 (Rltb_true _ _)) by lra.
    rewrite body_fresh_accept;
      [|assumption | rewrite Htnext, Hx, euclidian_dist_refl; assumption].
    unfold bind. apply IH; simpl; try reflexivity; try assumption.
    + rewrite Htnext. reflexivity.
    + rewrite Htnext, Hdt. unfold Rmin.
      destruct (Rle_dec (tmin + 0) tmax); lra.
Qed.

(** X3: with [tmin < tmax] and [dt <= 0] no amount of fuel makes
    [discrete_trajectory] return; with [dt = 0] and [0 <= dx] it does not
    raise either: the loop records the starting point again and again. *)
Theorem discrete_trajectory_nonpositive_dt :
  tmin < tmax -> dt <= 0 ->
  (forall fuel r,
      discrete_trajectory trajectory tmin tmax dx dt max_iter fuel
      <> Return r) /\
  (dt = 0 -> 0 <= dx ->
   forall fuel,
     discrete_trajectory trajectory tmin tmax dx dt max_iter fuel
     = OutOfFuel).
Proof.
  intros Hlt Hdt. split.
  - intros fuel r. unfold discrete_trajectory.
    apply (stuck_while trajectory tmin); try assumption.
    apply stuck_init. assumption.
  - intros H0 Hdx fuel. unfold discrete_trajectory.
    apply while_standstill; try assumption; try reflexivity.
    simpl. rewrite H0. unfold Rmin.
    destruct (Rle_dec (tmin + 0) tmax); lra.
Qed.

(** X4: on an empty interval, [tmax <= tmin], [discrete_trajectory]
    returns three empty lists without asking the path for more than its
    starting point, whatever the other arguments; on [tmin < tmax] a run
    that returns has recorded at least the starting point, at time
    [tmin]. *)
Theorem discrete_trajectory_empty_iff (fuel : nat)
    (position : list vec3) (dwell time : list R) :
  sample fuel = Return (position, dwell, time) ->
  (tmax <= tmin -> position = [] /\ dwell = [] /\ time = []) /\
  (tmin < tmax ->
   exists position' dwell' time',
     position = trajectory tmin :: position' /\
     dwell = (hd tmax time' - tmin) :: dwell' /\
     time = tmin :: time').
Proof.
  intros Hr. split.
  - intros Hge. rewrite discrete_trajectory_degenerate in Hr by assumption.
    injection Hr as <- <- <-. auto.
  - intros Hlt.
    destruct (discrete_trajectory_return _ _ _ _ _ _ _ _ Hlt Hr)
      as (_ & s' & HI & Ht & E).
    injection E as -> -> ->.
    destruct (inv_output _ HI) as (Hpos & _ & _).
    destruct (inv_times _ _ _ _ _ _ HI Ht Hlt) as (_ & Hhd & Hdwell & _).
    destruct (w_time s') as [|a l]; [discriminate|].
    simpl in Hhd. injection Hhd as ->.
    rewrite Hpos, Hdwell. simpl map.
    exists (map trajectory l).
    destruct l as [|b l].
    + exists [], []. simpl. auto.
    + exists (diffs ((b :: l) ++ [tmax])), (b :: l). simpl. auto.
Qed.

Lemma candidate_max_iter (M : Z) (s : walk)
    (c : vec3 * R * list (vec3 * R)) :
  (max_iter <= M)%Z ->
  candidate trajectory max_iter s = Return c ->
  candidate trajectory M s = Return c.
Proof.
  unfold candidate. intros HM.
  destruct (w_nextxt s) as [|top rest]; [auto|].
  destruct (Z.ltb_spec max_iter (Z.of_nat (length (top :: rest))));
    [discriminate|].
  destruct (Z.ltb_spec M (Z.of_nat (length (top :: rest)))); [lia | auto].
Qed.

Lemma while_max_iter (M : Z) (fuel : nat) :
  (max_iter <= M)%Z ->
  forall s : walk,
    while trajectory tmax dx dt max_iter fuel s = Raise RuntimeError \/
    while trajectory tmax dx dt max_iter fuel s
    = while trajectory tmax dx dt M fuel s.
Proof.
  intros HM. induction fuel as [|fuel IH]; intros s.
  - right. reflexivity.
  - rewrite !while_S. destruct (Rltb (w_t s) tmax); [|right; reflexivity].
    destruct (body_cases trajectory tmax dx dt max_iter s)
      as [(c & Hc & Hb) | (_ & Hb & _)].
    + rewrite Hb. unfold body.
      rewrite (candidate_max_iter M s c HM Hc). simpl. apply IH.
    + left. rewrite Hb. reflexivity.
Qed.

(** X5: a larger [max_iter] changes nothing in a run that does not raise:
    with [max_iter <= M], the run with [max_iter] either raises
    [RuntimeError] or has the outcome of the run with [M]. *)
Theorem discrete_trajectory_max_iter_mono (M : Z) (fuel : nat) :
  (max_iter <= M)%Z ->
  sample fuel = Raise RuntimeError \/
  sample fuel = discrete_trajectory trajectory tmin tmax dx dt M fuel.
Proof. intros HM. unfold discrete_trajectory. apply while_max_iter. exact HM. Qed.

(** The times a walk with [0 <= dt] may still ask the path for. *)
Definition in_range (s : walk) : Prop :=
  tmin <= w_t s <= tmax /\
  tmin <= w_tnext s <= tmax /\
  Forall (fun c => tmin <= snd c <= tmax) (w_nextxt s).

Lemma in_range_body (g : R -> vec3) (s : walk) :
  0 <= dt ->
  (forall u, tmin <= u <= tmax -> trajectory u = g u) ->
  in_range s ->
  body trajectory tmax dx dt max_iter s = body g tmax dx dt max_iter s /\
  (forall s', body trajectory tmax dx dt max_iter s = Return s' ->
              in_range s').
Proof.
  intros Hdt Hfg (Ht & Htn & Hstack).
  unfold body, candidate.
  destruct (w_nextxt s) as [|[xn tn] rest] eqn:E.
  - rewrite (Hfg _ Htn). simpl. unfold advance.
    destruct (Rleb (euclidian_dist (g (w_tnext s)) (w_x s)) dx).
    + split; [reflexivity|]. intros s' H. injection H as <-.
      unfold in_range. simpl. repeat split; try lra; try (constructor; fail);
        unfold Rmin; destruct (Rle_dec (w_tnext s + dt) tmax); lra.
    + rewrite (Hfg ((w_tnext s + w_t s) / 2)) by lra.
      split; [reflexivity|]. intros s' H. injection H as <-.
      unfold in_range. simpl. repeat split; try lra.
      constructor; [simpl; lra|]. constructor; [simpl; lra | constructor].
  - destruct (max_iter <? Z.of_nat (length ((xn, tn) :: rest)))%Z.
    + split; [reflexivity|]. intros s' H. discriminate.
    + inversion Hstack as [|? ? Hc Hrest]; subst. simpl in Hc.
      simpl. unfold advance.
      destruct (Rleb (euclidian_dist xn (w_x s)) dx).
      * split; [reflexivity|]. intros s' H. injection H as <-.
        unfold in_range. simpl. repeat split; try lra; try assumption;
          unfold Rmin; destruct (Rle_dec (tn + dt) tmax); lra.
      * rewrite (Hfg ((tn + w_t s) / 2)) by lra.
        split; [reflexivity|]. intros s' H. injection H as <-.
        unfold in_range. simpl. repeat split; try lra.
        constructor; [simpl; lra|]. constructor; [simpl; lra | assumption].
Qed.

Lemma while_agree (g : R -> vec3) (fuel : nat) :
  0 <= dt ->
  (forall u, tmin <= u <= tmax -> trajectory u = g u) ->
  forall s, in_range s ->
            while trajectory tmax dx dt max_iter fuel s
            = while g tmax dx dt max_iter fuel s.
Proof.
  intros Hdt Hfg. induction fuel as [|fuel IH]; intros s Hs.
  - reflexivity.
  - rewrite !while_S. destruct (Rltb (w_t s) tmax); [|reflexivity].
    destruct (in_range_body g s Hdt Hfg Hs) as [Hb Hnext].
    rewrite <- Hb.
    destruct (body trajectory tmax dx dt max_iter s) as [s'| |] eqn:E;
      simpl; try reflexivity.
    apply IH. apply Hnext. reflexivity.
Qed.

(** X6: with [0 <= dt] the outcome depends on the path only through its
    values on the closed interval [[tmin, tmax]]: two paths that agree
    there give the same outcome with every fuel. *)
Theorem discrete_trajectory_agree (g : R -> vec3) (fuel : nat) :
  0 <= dt ->
  (forall u, tmin <= u <= tmax -> trajectory u = g u) ->
  sample fuel = discrete_trajectory g tmin tmax dx dt max_iter fuel.
Proof.
  intros Hdt Hfg. unfold discrete_trajectory.
  destruct (Rle_dec tmin tmax) as [Hle|Hgt].
  - unfold walk_init. rewrite (Hfg tmin) by lra.
    apply while_agree; try assumption.
    unfold in_range. simpl. repeat split; try lra; try (constructor; fail);
      unfold Rmin; destruct (Rle_dec (tmin + dt) tmax); lra.
  - rewrite !while_exit by (simpl; lra). reflexivity.
Qed.
End WalkProperties.

(** ** Convergence of [discrete_trajectory] *)


Section Convergence.

Variable trajectory : R -> vec3.
Variables tmin tmax dx dt : R.
Variable max_iter : Z.

(** The path moves by at most [dx] in any stretch of time of length
    [delta], and [N] halvings bring [dt] down to [delta]. *)
Variable delta : R.
Variable N : nat.
Hypothesis Hdt : 0 < dt.
Hypothesis Hdelta : 0 < delta.
Hypothesis Hmod :
  forall a b, tmin <= a -> a < b -> b <= tmax -> b - a <= delta ->
              euclidian_dist (trajectory b) (trajectory a) <= dx.
Hypothesis HN : dt <= 2 ^ N * delta.
Hypothesis Hiter : (Z.of_nat N < max_iter)%Z.



(** What is left to do: the time to go, in steps of [mu], and the room on
    the stack. *)
Definition mu : R := Rmin dt (delta / 2).

Definition phi (s : walk) : R :=
  (INR N + 2) * ((tmax - w_t s) / mu)
  + (INR N + 1 - INR (length (w_nextxt s))).










End Convergence.

(** ** Slow paths are sampled at the rate [dt] *)


Section Uniform.

Variable trajectory : R -> vec3.
Variables tmin tmax dx dt : R.
Variable max_iter : Z.

Hypothesis Hdt : 0 < dt.
Hypothesis Hslow :
  forall a b, tmin <= a -> a < b -> b <= tmax -> b - a <= dt ->
              euclidian_dist (trajectory b) (trajectory a) <= dx.








End Uniform.

(** ** Instances *)


Lemma discrete_trajectory_output_witness :
  discrete_trajectory ramp 0 1 (1 / 2) 1 default_max_iter 3
  = Return ([(0, 0, 0); (0, 1 / 2, 0)], [1 / 2; 1 / 2], [0; 1 / 2]) /\
  length [1 / 2; 1 / 2] = length [(0, 0, 0); (0, 1 / 2, 0)] /\
  length [0; 1 / 2] = length [(0, 0, 0); (0, 1 / 2, 0)] /\
  [(0, 0, 0); (0, 1 / 2, 0)] = map ramp [0; 1 / 2] /\
  Forall (fun d => 0 < d <= 1) [1 / 2; 1 / 2] /\
  Forall (fun a => 0 <= a < 1) [0; 1 / 2].
Proof.
  split; [exact ramp_walk|].
  exact (discrete_trajectory_output
           ramp 0 1 (1 / 2) 1 default_max_iter 3 _ _ _ ramp_walk).
Defined.

Lemma discrete_trajectory_count_lower_witness :
  0 < 1 /\
  discrete_trajectory ramp 0 1 (1 / 2) 1 default_max_iter 3
  = Return ([(0, 0, 0); (0, 1 / 2, 0)], [1 / 2; 1 / 2], [0; 1 / 2]) /\
  0 < 1 /\
  1 - 0 <= INR (length [(0, 0, 0); (0, 1 / 2, 0)]) * 1 /\
  (Zceil ((1 - 0) / 1) <= Z.of_nat (length [(0, 0, 0); (0, 1 / 2, 0)]))%Z.
Proof.
  split; [exact Rlt_0_1|]. split; [exact ramp_walk|].
  exact (discrete_trajectory_count_lower
           ramp 0 1 (1 / 2) 1 default_max_iter 3 _ _ _ Rlt_0_1 ramp_walk).
Defined.

Lemma discrete_trajectory_nonpositive_dt_witness :
  0 < 1 /\ 0 <= 0 /\
  (forall fuel r,
      discrete_trajectory ramp 0 1 (1 / 2) 0 default_max_iter fuel
      <> Return r) /\
  (0 = 0 -> 0 <= 1 / 2 ->
   forall fuel,
     discrete_trajectory ramp 0 1 (1 / 2) 0 default_max_iter fuel
     = OutOfFuel).
Proof.
  split; [exact Rlt_0_1|]. split; [exact (Rle_refl 0)|].
  exact (discrete_trajectory_nonpositive_dt
           ramp 0 1 (1 / 2) 0 default_max_iter Rlt_0_1 (Rle_refl 0)).
Defined.

Lemma discrete_trajectory_empty_iff_witness :
  discrete_trajectory ramp 0 1 (1 / 2) 1 default_max_iter 3
  = Return ([(0, 0, 0); (0, 1 / 2, 0)], [1 / 2; 1 / 2], [0; 1 / 2]) /\
  (1 <= 0 ->
   [(0, 0, 0); (0, 1 / 2, 0)] = [] /\ [1 / 2; 1 / 2] = [] /\
   [0; 1 / 2] = []) /\
  (0 < 1 ->
   exists position' dwell' time',
     [(0, 0, 0); (0, 1 / 2, 0)] = ramp 0 :: position' /\
     [1 / 2; 1 / 2] = (hd 1 time' - 0) :: dwell' /\
     [0; 1 / 2] = 0 :: time').
Proof.
  split; [exact ramp_walk|].
  exact (discrete_trajectory_empty_iff
           ramp 0 1 (1 / 2) 1 default_max_iter 3 _ _ _ ramp_walk).
Defined.

Lemma discrete_trajectory_max_iter_mono_witness :
  (2 <= default_max_iter)%Z /\
  (discrete_trajectory ramp 0 1 (1 / 2) 1 2 3 = Raise RuntimeError \/
   discrete_trajectory ramp 0 1 (1 / 2) 1 2 3
   = discrete_trajectory ramp 0 1 (1 / 2) 1 default_max_iter 3).
Proof.
  assert (H : (2 <= default_max_iter)%Z) by (unfold default_max_iter; lia).
  split; [exact H|].
  exact (discrete_trajectory_max_iter_mono
           ramp 0 1 (1 / 2) 1 2 default_max_iter 3 H).
Defined.

(** A path that follows [ramp] up to time 1 and rests afterwards. *)
Definition ramp_stop (t : R) : vec3 := (0, Rmin t 1, 0).

Lemma ramp_stop_agrees (u : R) : 0 <= u <= 1 -> ramp u = ramp_stop u.
Proof.
  intros Hu. unfold ramp, ramp_stop, Rmin.
  destruct (Rle_dec u 1); [reflexivity | lra].
Qed.

Lemma discrete_trajectory_agree_witness :
  0 <= 1 /\
  (forall u, 0 <= u <= 1 -> ramp u = ramp_stop u) /\
  discrete_trajectory ramp 0 1 (1 / 2) 1 default_max_iter 3
  = discrete_trajectory ramp_stop 0 1 (1 / 2) 1 default_max_iter 3.
Proof.
  split; [exact Rle_0_1|]. split; [exact ramp_stop_agrees|].
  exact (discrete_trajectory_agree
           ramp 0 1 (1 / 2) 1 default_max_iter ramp_stop 3 Rle_0_1
           ramp_stop_agrees).
Defined.



(** ** The embedded distance *)

(** The length of a vector of the embedding space. *)
Definition norm3 (u : vec3) : R := sqrt (vdot u u).

Lemma vdot_self_nonneg (u : vec3) : 0 <= vdot u u.
Proof.
  destruct u as [[a b] c]. simpl.
  generalize (Rle_0_sqr a) (Rle_0_sqr b) (Rle_0_sqr c). unfold Rsqr. lra.
Qed.

Lemma norm3_nonneg (u : vec3) : 0 <= norm3 u.
Proof. apply sqrt_pos. Qed.

Lemma norm3_sqr (u : vec3) : norm3 u * norm3 u = vdot u u.
Proof. apply sqrt_sqrt, vdot_self_nonneg. Qed.

Lemma cauchy_schwarz (u w : vec3) :
  vdot u w * vdot u w <= vdot u u * vdot w w.
Proof.
  destruct u as [[a0 a1] a2]. destruct w as [[b0 b1] b2]. simpl.
  assert (H : 0 <= (a0 * b1 - a1 * b0) * (a0 * b1 - a1 * b0)
                   + (a0 * b2 - a2 * b0) * (a0 * b2 - a2 * b0)
                   + (a1 * b2 - a2 * b1) * (a1 * b2 - a2 * b1)).
  { generalize (Rle_0_sqr (a0 * b1 - a1 * b0))
               (Rle_0_sqr (a0 * b2 - a2 * b0))
               (Rle_0_sqr (a1 * b2 - a2 * b1)).
    unfold Rsqr. lra. }
  replace ((a0 * a0 + a1 * a1 + a2 * a2) * (b0 * b0 + b1 * b1 + b2 * b2))
    with ((a0 * b0 + a1 * b1 + a2 * b2) * (a0 * b0 + a1 * b1 + a2 * b2)
          + ((a0 * b1 - a1 * b0) * (a0 * b1 - a1 * b0)
             + (a0 * b2 - a2 * b0) * (a0 * b2 - a2 * b0)
             + (a1 * b2 - a2 * b1) * (a1 * b2 - a2 * b1))) by ring.
  lra.
Qed.

Lemma vdot_le_norm3 (u w : vec3) : vdot u w <= norm3 u * norm3 w.
Proof.
  destruct (Rle_dec (vdot u w) 0) as [Hneg|Hpos].
  - assert (0 <= norm3 u * norm3 w)
      by (apply Rmult_le_pos; apply norm3_nonneg).
    lra.
  - unfold norm3. rewrite <- sqrt_mult by apply vdot_self_nonneg.
    rewrite <- (sqrt_square (vdot u w)) by lra.
    apply sqrt_le_1.
    + nra.
    + apply Rmult_le_pos; apply vdot_self_nonneg.
    + apply cauchy_schwarz.
Qed.

Lemma norm3_triangle (u w : vec3) : norm3 (vadd u w) <= norm3 u + norm3 w.
Proof.
  assert (Hu := norm3_nonneg u). assert (Hw := norm3_nonneg w).
  rewrite <- (sqrt_square (norm3 u + norm3 w)) by lra.
  unfold norm3 at 1. apply sqrt_le_1.
  - apply vdot_self_nonneg.
  - nra.
  - assert (Huw := vdot_le_norm3 u w).
    assert (Huu := norm3_sqr u). assert (Hww := norm3_sqr w).
    replace (vdot (vadd u w) (vadd u w))
      with (vdot u u + 2 * vdot u w + vdot w w)
      by (destruct u as [[a0 a1] a2]; destruct w as [[b0 b1] b2];
          simpl; ring).
    nra.
Qed.

Lemma euclidian_dist_triangle (a b c : vec3) :
  euclidian_dist a c <= euclidian_dist a b + euclidian_dist b c.
Proof.
  unfold euclidian_dist.
  set (A := thetahv_to_xyz a default_radius).
  set (B := thetahv_to_xyz b default_radius).
  set (C := thetahv_to_xyz c default_radius).
  replace (vsub A C) with (vadd (vsub A B) (vsub B C)).
  - apply norm3_triangle.
  - destruct A as [[a0 a1] a2]. destruct B as [[b0 b1] b2].
    destruct C as [[c0 c1] c2]. simpl. vec_ring.
Qed.

(** X9: the embedded distance is a distance on the embedded points: it is
    not negative, it is zero from a point to itself, it is symmetric, and
    it obeys the triangle inequality. *)
Theorem euclidian_dist_metric (a b c : vec3) :
  0 <= euclidian_dist a b /\
  euclidian_dist a a = 0 /\
  euclidian_dist a b = euclidian_dist b a /\
  euclidian_dist a c <= euclidian_dist a b + euclidian_dist b c.
Proof.
  split; [apply sqrt_pos|]. split; [apply euclidian_dist_refl|].
  split; [apply euclidian_dist_sym | apply euclidian_dist_triangle].
Qed.

(** The square of the distance, in the two angles' difference. *)
Definition dist_sqr (radius dtheta h h' v v' : R) : R :=
  2 * (radius * radius) + h * h + h' * h' + (v - v') * (v - v')
  - 2 * ((radius * radius + h * h') * cos dtheta
         + radius * (h - h') * sin dtheta).

Lemma euclidian_dist_closed (theta h v theta' h' v' : R) :
  euclidian_dist (theta, h, v) (theta', h', v')
  = sqrt (dist_sqr default_radius (theta - theta') h h' v v').
Proof.
  unfold euclidian_dist. rewrite !thetahv_to_xyz_eq. simpl.
  f_equal. unfold dist_sqr. rewrite cos_minus, sin_minus.
  generalize (sin2_cos2 theta) (sin2_cos2 theta'). unfold Rsqr.
  set (s := sin theta). set (c := cos theta).
  set (s' := sin theta'). set (c' := cos theta').
  set (r := default_radius).
  intros H H'.
  transitivity
    ((r * r + h * h) * (s * s + c * c)
     + (r * r + h' * h') * (s' * s' + c' * c')
     + (v - v') * (v - v')
     - 2 * ((r * r + h * h') * (c * c' + s * s')
            + r * (h - h') * (s * c' - c * s'))).
  - ring.
  - rewrite H, H'. ring.
Qed.

(** X10: the embedded distance depends on the two angles only through
    their difference: its square is
    [2 r^2 + h^2 + h'^2 + (v - v')^2
     - 2 ((r^2 + h h') cos (theta - theta') + r (h - h') sin (theta - theta'))]
    with [r] the default radius; so turning both points by the same angle
    keeps their distance, a full turn of one point leaves it where it was,
    and an embedded point is at distance [sqrt (r^2 + h^2 + v^2)] from the
    origin. *)
Theorem euclidian_dist_angles (theta h v theta' h' v' phi : R) :
  euclidian_dist (theta, h, v) (theta', h', v')
  = sqrt (dist_sqr default_radius (theta - theta') h h' v v') /\
  euclidian_dist (theta + phi, h, v) (theta' + phi, h', v')
  = euclidian_dist (theta, h, v) (theta', h', v') /\
  euclidian_dist (theta + 2 * PI, h, v) (theta, h, v) = 0 /\
  norm3 (thetahv_to_xyz (theta, h, v) default_radius)
  = sqrt (default_radius * default_radius + h * h + v * v).
Proof.
  split; [apply euclidian_dist_closed|]. split; [|split].
  - rewrite !euclidian_dist_closed. f_equal. f_equal. ring.
  - rewrite euclidian_dist_closed.
    replace (theta + 2 * PI - theta) with (2 * PI) by ring.
    unfold dist_sqr. rewrite cos_2PI, sin_2PI.
    replace (2 * (default_radius * default_radius) + h * h + h * h
             + (v - v) * (v - v)
             - 2 * ((default_radius * default_radius + h * h) * 1
                    + default_radius * (h - h) * 0)) with 0 by ring.
    apply sqrt_0.
  - unfold norm3. rewrite thetahv_to_xyz_eq. simpl. f_equal.
    generalize (sin2_cos2 theta). unfold Rsqr.
    set (s := sin theta). set (c := cos theta). set (r := default_radius).
    intros H.
    transitivity ((r * r + h * h) * (s * s + c * c) + v * v).
    + ring.
    + rewrite H. ring.
Qed.

(** ** From the start of the path to its end *)

Lemma last_cons_any {A : Type} (l : list A) (a b : A) :
  last (b :: l) a = last l b.
Proof.
  revert a b.
  induction l as [|c l IH]; intros a b.
  - reflexivity.
  - change (last (b :: c :: l) a) with (last (c :: l) a).
    rewrite (IH a c), (IH b c). reflexivity.
Qed.

Lemma chain_dist (dx dt : R) (l : list (vec3 * R)) :
  forall c : vec3 * R,
    Sorted (step_ok dx dt) (c :: l) ->
    euclidian_dist (fst c) (fst (last l c)) <= INR (length l) * dx.
Proof.
  induction l as [|c' l IH]; intros c Hs.
  - simpl. rewrite euclidian_dist_refl. lra.
  - inversion Hs as [|? ? Hs' Hhd]; subst.
    inversion Hhd as [|? ? (Hd & _)]; subst.
    change (length (c' :: l)) with (S (length l)). rewrite S_INR.
    replace (last (c' :: l) c) with (last l c').
    + assert (H1 := IH c' Hs').
      assert (H2 := euclidian_dist_triangle (fst c) (fst c') (fst (last l c'))).
      rewrite (euclidian_dist_sym (fst c) (fst c')) in H2. lra.
    + symmetry. apply last_cons_any.
Qed.

(** X11: in a run on [tmin < tmax] that returns [n] samples, the end of
    the path is within [n * dx] of its start, in the embedded distance. *)
Theorem discrete_trajectory_span (trajectory : R -> vec3)
    (tmin tmax dx dt : R) (max_iter : Z) (fuel : nat)
    (position : list vec3) (dwell time : list R) :
  tmin < tmax ->
  discrete_trajectory trajectory tmin tmax dx dt max_iter fuel
  = Return (position, dwell, time) ->
  euclidian_dist (trajectory tmin) (trajectory tmax)
  <= INR (length position) * dx.
Proof.
  intros Hlt Hr.
  destruct (discrete_trajectory_return _ _ _ _ _ _ _ _ Hlt Hr)
    as (_ & s' & HI & Ht & E).
  injection E as -> -> ->.
  destruct HI as (acc & Hpos & _ & _ & Hchain & Hhd & Htraj & _).
  rewrite Hpos, length_map.
  destruct acc as [|c acc].
  - simpl in Hhd. lra.
  - simpl in Hhd, Hchain, Htraj.
    assert (H := chain_dist dx dt _ c Hchain).
    rewrite last_last in H. simpl fst in H.
    rewrite length_app in H. simpl length in H.
    apply Forall_cons_iff in Htraj. destruct Htraj as [Hc Hrest].
    apply Forall_app in Hrest. destruct Hrest as [_ Hlast].
    apply Forall_cons_iff in Hlast. destruct Hlast as [Hx _]. simpl in Hx.
    rewrite Hc, Hhd, Hx, Ht in H.
    simpl length. rewrite Nat.add_1_r in H. exact H.
Qed.

Lemma discrete_trajectory_span_witness :
  0 < 1 /\
  discrete_trajectory ramp 0 1 (1 / 2) 1 default_max_iter 3
  = Return ([(0, 0, 0); (0, 1 / 2, 0)], [1 / 2; 1 / 2], [0; 1 / 2]) /\
  euclidian_dist (ramp 0) (ramp 1)
  <= INR (length [(0, 0, 0); (0, 1 / 2, 0)]) * (1 / 2).
Proof.
  split; [exact Rlt_0_1|]. split; [exact ramp_walk|].
  exact (discrete_trajectory_span
           ramp 0 1 (1 / 2) 1 default_max_iter 3 _ _ _ Rlt_0_1 ramp_walk).
Defined.

(** ** The sublines of a probe *)

Lemma axis_points_bounds (extent lw : R) (num : Z) (c : R) :
  (1 <= num)%Z -> 0 < lw -> IZR num * lw <= extent ->
  In c (axis_points extent lw num) ->
  - extent / 2 < c < extent / 2.
Proof.
  intros Hn Hlw Hfit. unfold axis_points. rewrite map_map, in_map_iff.
  intros (i & <- & Hi). apply in_seq in Hi.
  assert (Hnum : 1 <= IZR num) by (apply IZR_le in Hn; assumption).
  assert (Hi' : INR i <= IZR num - 1).
  { assert (H : (Z.of_nat i <= num - 1)%Z) by lia.
    apply IZR_le in H. rewrite minus_IZR, <- INR_IZR_INZ in H.
    simpl in H. lra. }
  assert (Hi0 := pos_INR i).
  set (p := (extent - 0) / IZR num).
  assert (Hp : IZR num * p = extent) by (unfold p; field; lra).
  assert (Hplw : lw <= p).
  { apply (Rmult_le_reg_l (IZR num)); lra. }
  assert (Hip : 0 <= INR i * p) by (apply Rmult_le_pos; lra).
  assert (Hip' : INR i * p <= (IZR num - 1) * p)
    by (apply Rmult_le_compat_r; lra).
  lra.
Qed.

(** X12: on a probe that [line_offsets] accepts, for [0 < pixel_size], no
    offset has a component along theta; every centre lies strictly inside
    the rectangle of the probe, [|h| < width / 2] and [|v| < height / 2];
    and the weight of a subline is what the density profile returns at
    its centre. *)
Theorem line_offsets_inside (self : Probe) (pixel_size : R)
    (lines : list (vec3 * number)) :
  0 < pixel_size ->
  pixel_size / 16 <= width self ->
  pixel_size / 16 <= width self * aspect self ->
  snd (line_offsets pixel_size self) = Return lines ->
  Forall (fun l : vec3 * number =>
            let '(theta, h, v, w) := l in
            theta = 0 /\
            - width self / 2 < h < width self / 2 /\
            - (width self * aspect self) / 2 < v
              < width self * aspect self / 2 /\
            w = density_profile self h v) lines.
Proof.
  intros Hp Hw Hh Hlines.
  destruct (line_offsets_ok self pixel_size Hp Hw Hh) as (E & Hn & Hlw & Hwn).
  rewrite E in Hlines. simpl in Hlines.
  injection Hlines as <-.
  set (n := Zceil (width self / (pixel_size / 16))) in *.
  set (w := width self / IZR n) in *.
  set (height := width self * aspect self) in *.
  assert (Hq : 1 <= height / w) by (apply div_ge_1; lra).
  destruct (int_of_nonneg (height / w)) as [Hint _]; [lra|].
  assert (Hm : (1 <= Zfloor (height / w))%Z).
  { apply Zfloor_lub. simpl. assumption. }
  assert (Hfit : IZR (Zfloor (height / w)) * w <= height).
  { destruct (Zfloor_bound (height / w)) as [Hlo _].
    apply (Rmult_le_compat_r w) in Hlo; [|lra].
    replace (height / w * w) with height in Hlo by (field; lra).
    assumption. }
  apply Forall_forall. intros l Hl.
  apply grid_lines_In in Hl. destruct Hl as (h & v & Hgh & Hgv & ->).
  rewrite Hint in Hgv.
  split; [reflexivity|]. split; [|split; [|reflexivity]].
  - apply (axis_points_bounds _ w n); try assumption; lra.
  - apply (axis_points_bounds _ w (Zfloor (height / w))); try assumption.
    lra.
Qed.

(** The probe of width 2 and aspect 1 on pixels of size 16 has the line
    width 1 and four sublines, two across and two up. *)
Lemma line_offsets_square_probe (profile : option (R -> R -> number)) :
  let self := Probe_init profile (Some (2, 1)) in
  exists lines,
    line_offsets 16 self = (with_line_width self 1, Return lines) /\
    length lines = 4%nat /\
    Forall (fun l => snd l = density_profile self (snd (fst (fst l)))
                                             (snd (fst l))) lines.
Proof.
  intros self.
  assert (Hp : 0 < 16) by lra.
  destruct (line_offsets_ok self 16 Hp) as (E & _ & _ & _).
  { simpl. lra. }
  { simpl. lra. }
  assert (Hc : Zceil (width self / (16 / 16)) = 2%Z).
  { apply Zceil_eq. simpl. lra. }
  rewrite Hc in E.
  assert (Hlw : width self / 2 = 1) by (simpl; lra).
  rewrite Hlw in E.
  assert (Hv : int_of (width self * aspect self / 1) = 2%Z).
  { replace (width self * aspect self / 1) with (IZR 2) by (simpl; lra).
    apply int_of_IZR. }
  rewrite Hv in E.
  eexists. split; [exact E|]. split.
  - rewrite length_grid_lines, !length_axis_points. reflexivity.
  - apply Forall_forall. intros l Hl. apply grid_lines_In in Hl.
    destruct Hl as (h & v & _ & _ & ->). reflexivity.
Qed.

Lemma line_offsets_inside_witness :
  let self := Probe_init None (Some (2, 1)) in
  0 < 16 /\ 16 / 16 <= width self /\ 16 / 16 <= width self * aspect self /\
  exists lines,
    snd (line_offsets 16 self) = Return lines /\
    length lines = 4%nat /\
    Forall (fun l : vec3 * number =>
              let '(theta, h, v, w) := l in
              theta = 0 /\
              - width self / 2 < h < width self / 2 /\
              - (width self * aspect self) / 2 < v
                < width self * aspect self / 2 /\
              w = density_profile self h v) lines.
Proof.
  intros self.
  assert (H1 : 0 < 16) by lra.
  assert (H2 : 16 / 16 <= width self) by (simpl; lra).
  assert (H3 : 16 / 16 <= width self * aspect self) by (simpl; lra).
  destruct (line_offsets_square_probe None) as (lines & E & Hlen & _).
  fold self in E.
  assert (H4 : snd (line_offsets 16 self) = Return lines)
    by (rewrite E; reflexivity).
  split; [exact H1|]. split; [exact H2|]. split; [exact H3|].
  exists lines. split; [exact H4|]. split; [exact Hlen|].
  exact (line_offsets_inside self 16 lines H1 H2 H3 H4).
Defined.

(** ** The rays of a procedure *)








Lemma grid_lines_nonempty (profile : R -> R -> number) (gh gv : list R) :
  gh <> [] -> gv <> [] -> grid_lines profile gh gv <> [].
Proof.
  destruct gh as [|h gh]; [congruence|].
  destruct gv as [|v gv]; [congruence|].
  intros _ _. unfold grid_lines. simpl. discriminate.
Qed.

Lemma axis_points_nonempty (extent lw : R) (num : Z) :
  (1 <= num)%Z -> axis_points extent lw num <> [].
Proof.
  intros Hn H. apply (f_equal (@length R)) in H.
  rewrite length_axis_points in H. simpl in H. lia.
Qed.

(** X14: on an empty interval, [tmax <= tmin], [Probe.procedure] does not
    return an empty procedure: for [0 < pixel_size] and a probe that
    [line_offsets] accepts, it raises.  The sampling of the first subline
    returns no point; with a profile of integers the empty list times the
    weight is empty, and joining the empty position list to that column
    raises [ValueError]; with a profile of floats the product itself
    raises [TypeError]. *)
Theorem procedure_empty_interval (fuel : nat) (trajectory : R -> vec3)
    (pixel_size tmin tmax dt : R) (self : Probe) :
  0 < pixel_size ->
  pixel_size / 16 <= width self ->
  pixel_size / 16 <= width self * aspect self ->
  tmax <= tmin ->
  (exists e,
      snd (procedure fuel trajectory pixel_size tmin tmax dt self) = Raise e /\
      (e = ValueError \/ e = TypeError)) /\
  ((forall h v, exists k, density_profile self h v = PyInt k) ->
   snd (procedure fuel trajectory pixel_size tmin tmax dt self)
   = Raise ValueError) /\
  ((forall h v, exists x, density_profile self h v = PyFloat x) ->
   snd (procedure fuel trajectory pixel_size tmin tmax dt self)
   = Raise TypeError).
Proof.
  intros Hp Hw Hh Hge.
  destruct (line_offsets_ok self pixel_size Hp Hw Hh) as (E & Hn & Hlw & Hwn).
  unfold procedure, mbind, get_self, lift. rewrite E. simpl snd.
  set (lw := width self / IZR (Zceil (width self / (pixel_size / 16)))) in *.
  assert (Hq : 1 <= width self * aspect self / lw)
    by (apply div_ge_1; lra).
  destruct (int_of_nonneg (width self * aspect self / lw)) as [Hint _];
    [lra|].
  assert (Hm : (1 <= int_of (width self * aspect self / lw))%Z).
  { rewrite Hint. apply Zfloor_lub. simpl. assumption. }
  set (lines := grid_lines (density_profile self)
                  (axis_points (width self) lw
                     (Zceil (width self / (pixel_size / 16))))
                  (axis_points (width self * aspect self) lw
                     (int_of (width self * aspect self / lw)))).
  assert (Hne : lines <> [])
    by (apply grid_lines_nonempty; apply axis_points_nonempty; assumption).
  assert (Hin : forall l, In l lines ->
                          exists h v, snd l = density_profile self h v).
  { intros l Hl. apply grid_lines_In in Hl.
    destruct Hl as (h & v & _ & _ & ->). exists h, v. reflexivity. }
  destruct lines as [|[offset weight] rest]; [congruence|].
  destruct (Hin (offset, weight) (or_introl eq_refl)) as (h & v & Hwt).
  simpl in Hwt.
  cbn [procedure_loop].
  rewrite discrete_trajectory_degenerate by assumption.
  cbn [bind].
  destruct weight as [k|x]; cbn [list_times bind].
  - assert (Hcol : concat (repeat (@nil R) (Z.to_nat k)) = []).
    { induction (Z.to_nat k) as [|m IH]; [reflexivity|exact IH]. }
    rewrite Hcol. cbn [concatenate_columns bind].
    split; [exists ValueError; split; [reflexivity|left; reflexivity]|].
    split; [reflexivity|].
    intros Hfl. destruct (Hfl h v) as (x & Hx). congruence.
  - split; [exists TypeError; split; [reflexivity|right; reflexivity]|].
    split; [|reflexivity].
    intros Hint'. destruct (Hint' h v) as (k & Hk). congruence.
Qed.

Lemma procedure_empty_interval_witness :
  let self := Probe_init None (Some (2, 1)) in
  0 < 16 /\ 16 / 16 <= width self /\ 16 / 16 <= width self * aspect self /\
  1 <= 1 /\
  (exists e,
      snd (procedure 5 ramp 16 1 1 1 self) = Raise e /\
      (e = ValueError \/ e = TypeError)) /\
  ((forall h v, exists k, density_profile self h v = PyInt k) ->
   snd (procedure 5 ramp 16 1 1 1 self) = Raise ValueError) /\
  ((forall h v, exists x, density_profile self h v = PyFloat x) ->
   snd (procedure 5 ramp 16 1 1 1 self) = Raise TypeError).
Proof.
  intros self.
  assert (H1 : 0 < 16) by lra.
  assert (H2 : 16 / 16 <= width self) by (simpl; lra).
  assert (H3 : 16 / 16 <= width self * aspect self) by (simpl; lra).
  split; [exact H1|]. split; [exact H2|]. split; [exact H3|].
  split; [exact (Rle_refl 1)|].
  exact (procedure_empty_interval 5 ramp 16 1 1 1 self H1 H2 H3 (Rle_refl 1)).
Defined.

(** ** Reusing a probe *)

(** [line_offsets] writes the line width before it reads it. *)
Lemma line_offsets_forgets (pixel_size x : R) (self : Probe) :
  line_offsets pixel_size (with_line_width self x)
  = line_offsets pixel_size self.
Proof.
  unfold line_offsets, fit_line_width, mbind, get_self, set_line_width, lift,
    mret.
  simpl.
  destruct (Rltb (width self) (pixel_size / 16)
            || Rltb (width self * aspect self) (pixel_size / 16));
    [reflexivity|].
  destruct (pdiv (width self) (pixel_size / 16)) as [q| |];
    reflexivity.
Qed.

Lemma line_offsets_state (pixel_size : R) (self : Probe) :
  exists x, fst (line_offsets pixel_size self) = with_line_width self x.
Proof.
  unfold line_offsets, fit_line_width, mbind, get_self, set_line_width, lift,
    mret.
  simpl.
  destruct (Rltb (width self) (pixel_size / 16)
            || Rltb (width self * aspect self) (pixel_size / 16));
    [eexists; reflexivity|].
  destruct (pdiv (width self) (pixel_size / 16)) as [q| |];
    try (eexists; reflexivity).
  destruct (pdiv (width self) (IZR (Zceil q))) as [lw| |];
    try (eexists; reflexivity).
  simpl.
  destruct (axis_offsets (width self) lw) as [gh| |];
    try (eexists; reflexivity).
  destruct (axis_offsets (width self * aspect self) lw) as [gv| |];
    eexists; reflexivity.
Qed.

(** X15: [line_offsets] may be called again on the probe it has written
    to: whatever pixel size the earlier call had, and whether it returned
    or raised, the later call has the outcome and leaves the probe that
    it would on the fresh probe; density profile, width and aspect are
    never written. *)
Theorem line_offsets_reentrant (pixel_size pixel_size' : R) (self : Probe) :
  line_offsets pixel_size (fst (line_offsets pixel_size' self))
  = line_offsets pixel_size self /\
  width (fst (line_offsets pixel_size' self)) = width self /\
  aspect (fst (line_offsets pixel_size' self)) = aspect self /\
  density_profile (fst (line_offsets pixel_size' self))
  = density_profile self.
Proof.
  destruct (line_offsets_state pixel_size' self) as [x ->].
  split; [apply line_offsets_forgets|]. repeat split.
Qed.

(** ** What [coverage_approx] refuses, and the size of its grid *)

Lemma ordered_region_iff (box : list (R * R)) :
  forallb (fun b => Rleb (fst b) (snd b)) box = true <->
  Forall (fun b => fst b <= snd b) box.
Proof.
  rewrite forallb_forall, Forall_forall.
  split; intros H b Hb; apply Rleb_true; apply H; assumption.
Qed.

(** One case of an outcome: the hypotheses are opened, and the goal is
    closed by what they say. *)
Ltac outcome_case :=
  intros;
  repeat match goal with
         | H : exists _, _ |- _ => destruct H
         | H : _ /\ _ |- _ => destruct H
         end;
  try discriminate; try contradiction; try tauto;
  try (eexists; reflexivity);
  try match goal with
      | H : Return _ = Return _ |- _ =>
          injection H as <-; simpl; apply length_map
      end.

(** X16: for [0 < pixel_size], [coverage_approx] raises [AssertionError],
    with no warning, exactly when some axis of the region has
    [min > max]; on an ordered region it raises [NotImplementedError]
    exactly when [anisotropy] is asked for, and otherwise it calls the
    kernel with one entry per ray in each of the four columns. *)
Theorem coverage_approx_outcomes (procedure : list (vec3 * R))
    (region : list (R * R)) (pixel_size lw : R) (anisotropy : bool) :
  0 < pixel_size ->
  let out := coverage_approx procedure region pixel_size lw anisotropy in
  (snd out = Raise AssertionError <->
   ~ Forall (fun b => fst b <= snd b) region) /\
  (snd out = Raise AssertionError -> fst out = []) /\
  (snd out = Raise NotImplementedError <->
   Forall (fun b => fst b <= snd b) region /\ anisotropy = true) /\
  ((exists call, snd out = Return call) <->
   Forall (fun b => fst b <= snd b) region /\ anisotropy = false) /\
  (forall call,
      snd out = Return call ->
      length (k_theta call) = length procedure /\
      length (k_h call) = length procedure /\
      length (k_v call) = length procedure /\
      length (line_weight call) = length procedure).
Proof.
  intros Hp out. unfold out, coverage_approx.
  destruct (forallb (fun b => Rleb (fst b) (snd b)) region) eqn:Hord.
  - assert (Hord' := proj1 (ordered_region_iff region) Hord).
    simpl negb. cbv iota.
    destruct anisotropy.
    + simpl. repeat split; outcome_case.
    + rewrite (ibox_shape_nonneg _ _ Hp Hord'). simpl.
      repeat split; outcome_case.
  - assert (Hnot : ~ Forall (fun b => fst b <= snd b) region).
    { intros H. apply ordered_region_iff in H. congruence. }
    simpl. repeat split; outcome_case.
Qed.

Lemma coverage_approx_outcomes_witness :
  0 < 0.5 /\
  let out := coverage_approx [] [(1, 0)] 0.5 1 false in
  (snd out = Raise AssertionError <->
   ~ Forall (fun b : R * R => fst b <= snd b) [(1, 0)]) /\
  (snd out = Raise AssertionError -> fst out = []) /\
  (snd out = Raise NotImplementedError <->
   Forall (fun b : R * R => fst b <= snd b) [(1, 0)] /\ false = true) /\
  ((exists call, snd out = Return call) <->
   Forall (fun b : R * R => fst b <= snd b) [(1, 0)] /\ false = false) /\
  (forall call,
      snd out = Return call ->
      length (k_theta call) = length (@nil (vec3 * R)) /\
      length (k_h call) = length (@nil (vec3 * R)) /\
      length (k_v call) = length (@nil (vec3 * R)) /\
      length (line_weight call) = length (@nil (vec3 * R))).
Proof.
  assert (H : 0 < 0.5) by lra.
  split; [exact H|].
  exact (coverage_approx_outcomes [] [(1, 0)] 0.5 1 false H).
Defined.

(** X17: on an ordered region, for [0 < pixel_size], the grid of
    [coverage_approx] is, on each axis, at least as long as the region and
    less than two pixels longer; it is exactly as long as the region when
    both bounds of the axis are integer multiples of the pixel size. *)
Theorem coverage_approx_grid_span (region : list (R * R)) (pixel_size : R) :
  0 < pixel_size ->
  Forall (fun b => fst b <= snd b) region ->
  Forall2 (fun (b : R * R) (n : Z) =>
             (0 <= n)%Z /\
             0 <= IZR n * pixel_size - (snd b - fst b) < 2 * pixel_size /\
             (multiple_of pixel_size (fst b) ->
              multiple_of pixel_size (snd b) ->
              IZR n * pixel_size = snd b - fst b))
          region (ibox_shape region pixel_size).
Proof.
  intros Hp Hord. rewrite ibox_shape_eq.
  induction Hord as [|b region Hb Hord IH]; simpl; constructor;
    [|exact IH].
  destruct (Zfloor_bound (fst b / pixel_size)) as [Hlo1 Hlo2].
  destruct (Zceil_bound (snd b / pixel_size)) as [Hhi1 Hhi2].
  set (f := Zfloor (fst b / pixel_size)) in *.
  set (c := Zceil (snd b / pixel_size)) in *.
  assert (Hfst : fst b = fst b / pixel_size * pixel_size) by (field; lra).
  assert (Hsnd : snd b = snd b / pixel_size * pixel_size) by (field; lra).
  assert (H1 : IZR f * pixel_size <= fst b).
  { apply (Rmult_le_compat_r pixel_size) in Hlo1; [|lra].
    rewrite <- Hfst in Hlo1. exact Hlo1. }
  assert (H2 : fst b < (IZR f + 1) * pixel_size).
  { apply (Rmult_lt_compat_r pixel_size) in Hlo2; [|lra].
    rewrite <- Hfst in Hlo2. exact Hlo2. }
  assert (H3 : (IZR c - 1) * pixel_size < snd b).
  { apply (Rmult_lt_compat_r pixel_size) in Hhi1; [|lra].
    rewrite <- Hsnd in Hhi1. exact Hhi1. }
  assert (H4 : snd b <= IZR c * pixel_size).
  { apply (Rmult_le_compat_r pixel_size) in Hhi2; [|lra].
    rewrite <- Hsnd in Hhi2. exact Hhi2. }
  rewrite minus_IZR.
  split; [|split].
  - assert (Hq : fst b / pixel_size <= snd b / pixel_size).
    { unfold Rdiv. apply Rmult_le_compat_r; [|assumption].
      left. apply Rinv_0_lt_compat. assumption. }
    assert (Hle : IZR f <= IZR c) by lra.
    apply le_IZR in Hle. lia.
  - lra.
  - intros [k Hk] [k' Hk'].
    assert (Hf : f = k).
    { unfold f. rewrite Hk.
      replace (IZR k * pixel_size / pixel_size) with (IZR k) by (field; lra).
      apply ZfloorZ. }
    assert (Hc : c = k').
    { unfold c. rewrite Hk'.
      replace (IZR k' * pixel_size / pixel_size) with (IZR k') by (field; lra).
      apply Zceil_IZR. }
    rewrite Hf, Hc, Hk, Hk'. ring.
Qed.

Lemma coverage_approx_grid_span_witness :
  0 < 0.5 /\
  Forall (fun b : R * R => fst b <= snd b) [(0, 0.97); (0, 1)] /\
  Forall2 (fun (b : R * R) (n : Z) =>
             (0 <= n)%Z /\
             0 <= IZR n * 0.5 - (snd b - fst b) < 2 * 0.5 /\
             (multiple_of 0.5 (fst b) -> multiple_of 0.5 (snd b) ->
              IZR n * 0.5 = snd b - fst b))
          [(0, 0.97); (0, 1)] (ibox_shape [(0, 0.97); (0, 1)] 0.5).
Proof.
  assert (H1 : 0 < 0.5) by lra.
  assert (H2 : Forall (fun b : R * R => fst b <= snd b) [(0, 0.97); (0, 1)])
    by (repeat constructor; simpl; lra).
  split; [exact H1|]. split; [exact H2|].
  exact (coverage_approx_grid_span [(0, 0.97); (0, 1)] 0.5 H1 H2).
Defined.

(** ** The weight that [Probe.coverage] hands to the kernel *)








(** ** Waveforms *)

Lemma sin_period_Z (x : R) (k : Z) : sin (x + 2 * IZR k * PI) = sin x.
Proof.
  destruct (Z_le_gt_dec 0 k) as [Hk|Hk].
  - rewrite <- (Z2Nat.id k Hk), <- INR_IZR_INZ. apply sin_period.
  - rewrite <- (sin_period (x + 2 * IZR k * PI) (Z.to_nat (- k))).
    f_equal. rewrite INR_IZR_INZ, Z2Nat.id by lia. rewrite opp_IZR. ring.
Qed.

Lemma sinusoid_eq (A f p t hz : R) :
  sinusoid A f p t hz = A * sin (2 * PI * f * t - p).
Proof.
  unfold sinusoid, f2w, np_mod. f_equal.
  rewrite <- (sin_period_Z (2 * PI * f * t - p)
                           (Zfloor (p / (2 * PI)))).
  f_equal. ring.
Qed.

(** X20: [sinusoid] is [A * sin(2 pi f t - p)]: reducing the phase modulo
    [2 pi] changes nothing.  Its values lie within [|A|], for [f <> 0] it
    repeats after every [1 / f], and a phase moved by a whole number of
    turns gives the same wave. *)
Theorem sinusoid_wave (A f p t hz : R) (k : Z) :
  f <> 0 ->
  sinusoid A f p t hz = A * sin (2 * PI * f * t - p) /\
  Rabs (sinusoid A f p t hz) <= Rabs A /\
  sinusoid A f p (t + IZR k / f) hz = sinusoid A f p t hz /\
  sinusoid A f (p + 2 * PI * IZR k) t hz = sinusoid A f p t hz.
Proof.
  intros Hf. rewrite !sinusoid_eq.
  split; [reflexivity|]. split; [|split].
  - rewrite Rabs_mult.
    rewrite <- (Rmult_1_r (Rabs A)) at 2.
    apply Rmult_le_compat_l; [apply Rabs_pos|].
    apply Rabs_le. apply SIN_bound.
  - f_equal.
    rewrite <- (sin_period_Z (2 * PI * f * t - p) k).
    f_equal. field. exact Hf.
  - f_equal.
    rewrite <- (sin_period_Z (2 * PI * f * t - (p + 2 * PI * IZR k)) k).
    f_equal. ring.
Qed.

Lemma sinusoid_wave_witness :
  1 <> 0 /\
  sinusoid 1 1 0 0 1 = 1 * sin (2 * PI * 1 * 0 - 0) /\
  Rabs (sinusoid 1 1 0 0 1) <= Rabs 1 /\
  sinusoid 1 1 0 (0 + IZR 1 / 1) 1 = sinusoid 1 1 0 0 1 /\
  sinusoid 1 1 (0 + 2 * PI * IZR 1) 0 1 = sinusoid 1 1 0 0 1.
Proof.
  assert (H : 1 <> 0) by lra.
  split; [exact H|].
  exact (sinusoid_wave 1 1 0 0 1 1 H).
Defined.

(** The phase of a sample in half periods, and the two shapes that the
    waveforms are built from. *)
Definition half_periods (f p t : R) : R := 2 * f * (t - p / (2 * PI) / f).

Definition tooth (x : R) : R := x - IZR (Zfloor (x + 0.5)).

Definition tri (x : R) : R := 2 * tooth x * power_m1 (Zfloor (x + 0.5)).

Lemma half_eq : 0.5 = 1 / 2.
Proof. lra. Qed.

Ltac wave_field :=
  field; repeat split; first [assumption | apply PI_neq0].

Lemma half_periods_shift (f p t s : R) :
  f <> 0 -> half_periods f p (t + s) = half_periods f p t + 2 * f * s.
Proof. intros Hf. unfold half_periods. wave_field. Qed.

Lemma tooth_bounds (x : R) : - 0.5 <= tooth x < 0.5.
Proof.
  unfold tooth. destruct (Zfloor_bound (x + 0.5)) as [H1 H2]. lra.
Qed.

Lemma tooth_shift (x : R) (k : Z) : tooth (x + IZR k) = tooth x.
Proof.
  unfold tooth.
  replace (x + IZR k + 0.5) with (x + 0.5 + IZR k) by ring.
  rewrite Zfloor_addz, plus_IZR. ring.
Qed.

Lemma power_m1_cases (q : Z) : power_m1 q = 1 \/ power_m1 q = -1.
Proof. unfold power_m1. destruct (Z.even q); [left|right]; reflexivity. Qed.

Lemma power_m1_succ (q : Z) : power_m1 (q + 1) = - power_m1 q.
Proof.
  unfold power_m1. rewrite Z.add_1_r, Z.even_succ, <- Z.negb_even.
  destruct (Z.even q); simpl; ring.
Qed.

Lemma power_m1_even (q k : Z) : power_m1 (q + 2 * k) = power_m1 q.
Proof. unfold power_m1. rewrite Z.even_add_mul_2. reflexivity. Qed.

Lemma tri_bound (x : R) : -1 <= tri x <= 1.
Proof.
  unfold tri. pose proof (tooth_bounds x) as H.
  destruct (power_m1_cases (Zfloor (x + 0.5))) as [-> | ->]; lra.
Qed.

Lemma tri_shift_even (x : R) (k : Z) : tri (x + IZR (2 * k)) = tri x.
Proof.
  unfold tri. rewrite tooth_shift.
  replace (x + IZR (2 * k) + 0.5) with (x + 0.5 + IZR (2 * k)) by ring.
  rewrite Zfloor_addz, power_m1_even. reflexivity.
Qed.

Lemma tri_shift_one (x : R) : tri (x + 1) = - tri x.
Proof.
  unfold tri. rewrite (tooth_shift x 1).
  replace (x + 1 + 0.5) with (x + 0.5 + IZR 1) by ring.
  rewrite Zfloor_addz, power_m1_succ. ring.
Qed.

Lemma tri_lipschitz_le (x y : R) :
  x <= y -> Rabs (tri y - tri x) <= 2 * (y - x).
Proof.
  intros Hxy.
  pose proof (tri_bound x) as Bx. pose proof (tri_bound y) as By.
  assert (Hq : (Zfloor (x + 0.5) <= Zfloor (y + 0.5))%Z)
    by (apply Zfloor_le; lra).
  destruct (Zfloor_bound (x + 0.5)) as [X1 X2].
  destruct (Zfloor_bound (y + 0.5)) as [Y1 Y2].
  destruct (Z.eq_dec (Zfloor (y + 0.5)) (Zfloor (x + 0.5))) as [E|NE].
  - unfold tri, tooth. rewrite E in *.
    apply Rabs_le.
    destruct (power_m1_cases (Zfloor (x + 0.5))) as [-> | ->]; lra.
  - destruct (Z.eq_dec (Zfloor (y + 0.5)) (Zfloor (x + 0.5) + 1)) as [E|NE'].
    + unfold tri, tooth. rewrite E in *. rewrite power_m1_succ.
      rewrite plus_IZR in *.
      apply Rabs_le.
      destruct (power_m1_cases (Zfloor (x + 0.5))) as [-> | ->]; lra.
    + assert (H2 : (Zfloor (x + 0.5) + 2 <= Zfloor (y + 0.5))%Z) by lia.
      apply IZR_le in H2. rewrite plus_IZR in H2.
      apply Rabs_le. lra.
Qed.

Lemma tri_lipschitz (x y : R) : Rabs (tri y - tri x) <= 2 * Rabs (y - x).
Proof.
  destruct (Rle_lt_dec x y) as [H|H].
  - rewrite (Rabs_pos_eq (y - x)) by lra. apply tri_lipschitz_le, H.
  - rewrite Rabs_minus_sym, (Rabs_minus_sym y x).
    rewrite (Rabs_pos_eq (x - y)) by lra. apply tri_lipschitz_le. lra.
Qed.

Lemma triangle_eq (A f p t hz : R) :
  f <> 0 -> triangle A f p t hz = Return (A * tri (half_periods f p t)).
Proof.
  intros Hf. unfold triangle, period, pdiv.
  destruct (Req_dec_T f 0) as [E|_]; [contradiction|].
  cbn [bind].
  assert (Hx : (t - p / (2 * PI) / f) / (0.5 * (1 / f))
               = half_periods f p t).
  { unfold half_periods. rewrite half_eq. wave_field. }
  rewrite Hx. f_equal. unfold tri, tooth.
  set (q := Zfloor (half_periods f p t + 0.5)).
  unfold half_periods. rewrite half_eq. wave_field.
Qed.

Lemma sawtooth_eq (A f p t hz : R) :
  f <> 0 ->
  sawtooth A f p t hz = Return (A * (2 * tooth (half_periods f p t))).
Proof.
  intros Hf. unfold sawtooth, period, pdiv.
  destruct (Req_dec_T f 0) as [E|_]; [contradiction|].
  cbn [bind].
  assert (Hx : (t - p / (2 * PI) / f) / (0.5 * (1 / f))
               = half_periods f p t).
  { unfold half_periods. rewrite half_eq. wave_field. }
  rewrite Hx. reflexivity.
Qed.

Lemma square_eq (A f p t hz : R) :
  f <> 0 ->
  square A f p t hz = Return (A * power_m1 (Zfloor (half_periods f p t))).
Proof.
  intros Hf. unfold square, pdiv.
  destruct (Req_dec_T f 0) as [E|_]; [contradiction|]. reflexivity.
Qed.

Lemma staircase_eq (A f p t hz : R) :
  f <> 0 ->
  staircase A f p t hz
  = Return (A / f / 2 * IZR (Zfloor (half_periods f p t)) - A).
Proof.
  intros Hf. unfold staircase, pdiv.
  destruct (Req_dec_T f 0) as [E|_]; [contradiction|]. reflexivity.
Qed.

Lemma half_periods_origin (f p s : R) :
  f <> 0 -> half_periods f p (p / (2 * PI) / f + s) = 2 * f * s.
Proof. intros Hf. unfold half_periods. wave_field. Qed.

Lemma Rabs_scale (A x : R) : -1 <= x <= 1 -> Rabs (A * x) <= Rabs A.
Proof.
  intros H. rewrite Rabs_mult.
  rewrite <- (Rmult_1_r (Rabs A)) at 2.
  apply Rmult_le_compat_l; [apply Rabs_pos|]. apply Rabs_le. exact H.
Qed.

(** X21: for [f <> 0], [triangle] returns a value within [|A|]; the wave
    repeats after every [1 / f] and changes sign after [1 / (2 f)]; it is
    0 at [t0 = p / (2 pi) / f] and reaches [A] a quarter period later; and
    it is continuous, as its docstring says: two samples differ by at most
    [4 |A| |f|] times the time between them. *)
Theorem triangle_wave (A f p t hz : R) :
  f <> 0 ->
  exists v,
    triangle A f p t hz = Return v /\
    Rabs v <= Rabs A /\
    (forall k : Z, triangle A f p (t + IZR k / f) hz = Return v) /\
    triangle A f p (t + 1 / (2 * f)) hz = Return (- v) /\
    triangle A f p (p / (2 * PI) / f + 0) hz = Return 0 /\
    triangle A f p (p / (2 * PI) / f + 1 / (4 * f)) hz = Return A /\
    (forall t', exists v',
        triangle A f p t' hz = Return v' /\
        Rabs (v' - v) <= 4 * Rabs A * Rabs f * Rabs (t' - t)).
Proof.
  intros Hf. exists (A * tri (half_periods f p t)).
  split; [apply triangle_eq, Hf|].
  split; [apply Rabs_scale, tri_bound|].
  split; [|split; [|split; [|split]]].
  - intros k. rewrite (triangle_eq _ _ _ _ _ Hf). do 2 f_equal.
    rewrite (half_periods_shift _ _ _ _ Hf).
    replace (2 * f * (IZR k / f)) with (IZR (2 * k))
      by (rewrite mult_IZR; field; exact Hf).
    apply tri_shift_even.
  - rewrite (triangle_eq _ _ _ _ _ Hf). f_equal.
    rewrite (half_periods_shift _ _ _ _ Hf).
    replace (2 * f * (1 / (2 * f))) with 1 by (field; exact Hf).
    rewrite tri_shift_one. ring.
  - rewrite (triangle_eq _ _ _ _ _ Hf). f_equal.
    rewrite (half_periods_origin _ _ _ Hf).
    replace (2 * f * 0) with 0 by ring.
    unfold tri, tooth.
    assert (E : Zfloor (0 + 0.5) = 0%Z) by (apply Zfloor_eq; simpl; lra).
    rewrite E. simpl. ring.
  - rewrite (triangle_eq _ _ _ _ _ Hf). f_equal.
    rewrite (half_periods_origin _ _ _ Hf).
    replace (2 * f * (1 / (4 * f))) with 0.5 by (rewrite half_eq; field; exact Hf).
    unfold tri, tooth.
    assert (E : Zfloor (0.5 + 0.5) = 1%Z) by (apply Zfloor_eq; simpl; lra).
    rewrite E. unfold power_m1. simpl. lra.
  - intros t'. exists (A * tri (half_periods f p t')).
    split; [apply triangle_eq, Hf|].
    replace (A * tri (half_periods f p t') - A * tri (half_periods f p t))
      with (A * (tri (half_periods f p t') - tri (half_periods f p t)))
      by ring.
    rewrite Rabs_mult.
    pose proof (tri_lipschitz (half_periods f p t) (half_periods f p t'))
      as HL.
    replace (half_periods f p t' - half_periods f p t)
      with (2 * (f * (t' - t))) in HL
      by (unfold half_periods; wave_field).
    rewrite Rabs_mult, (Rabs_pos_eq 2), Rabs_mult in HL by lra.
    pose proof (Rabs_pos A) as HA.
    apply Rle_trans with (Rabs A * (2 * (2 * (Rabs f * Rabs (t' - t))))).
    + apply Rmult_le_compat_l; assumption.
    + lra.
Qed.

Lemma triangle_wave_witness :
  1 <> 0 /\
  exists v,
    triangle 1 1 0 0 1 = Return v /\
    Rabs v <= Rabs 1 /\
    (forall k : Z, triangle 1 1 0 (0 + IZR k / 1) 1 = Return v) /\
    triangle 1 1 0 (0 + 1 / (2 * 1)) 1 = Return (- v) /\
    triangle 1 1 0 (0 / (2 * PI) / 1 + 0) 1 = Return 0 /\
    triangle 1 1 0 (0 / (2 * PI) / 1 + 1 / (4 * 1)) 1 = Return 1 /\
    (forall t', exists v',
        triangle 1 1 0 t' 1 = Return v' /\
        Rabs (v' - v) <= 4 * Rabs 1 * Rabs 1 * Rabs (t' - 0)).
Proof.
  assert (H : 1 <> 0) by lra.
  split; [exact H|].
  exact (triangle_wave 1 1 0 0 1 H).
Defined.

(** X22: for [f <> 0], [sawtooth] returns a value within [|A|], and for
    [0 < A] in [[-A, A)]: the top is never reached.  The wave repeats
    after every [1 / (2 f)], half the period of the other waveforms; it is
    0 at [t0 = p / (2 pi) / f] and is [-A] a quarter of [1 / f] later,
    where it jumps. *)
Theorem sawtooth_wave (A f p t hz : R) :
  f <> 0 ->
  exists v,
    sawtooth A f p t hz = Return v /\
    Rabs v <= Rabs A /\
    (0 < A -> - A <= v < A) /\
    (forall k : Z, sawtooth A f p (t + IZR k / (2 * f)) hz = Return v) /\
    sawtooth A f p (p / (2 * PI) / f + 0) hz = Return 0 /\
    sawtooth A f p (p / (2 * PI) / f + 1 / (4 * f)) hz = Return (- A).
Proof.
  intros Hf. exists (A * (2 * tooth (half_periods f p t))).
  pose proof (tooth_bounds (half_periods f p t)) as Hb.
  split; [apply sawtooth_eq, Hf|].
  split; [apply Rabs_scale; lra|].
  split; [|split; [|split]].
  - intros HA. split; nra.
  - intros k. rewrite (sawtooth_eq _ _ _ _ _ Hf). do 3 f_equal.
    rewrite (half_periods_shift _ _ _ _ Hf).
    replace (2 * f * (IZR k / (2 * f))) with (IZR k) by (field; exact Hf).
    apply tooth_shift.
  - rewrite (sawtooth_eq _ _ _ _ _ Hf). f_equal.
    rewrite (half_periods_origin _ _ _ Hf).
    replace (2 * f * 0) with 0 by ring.
    unfold tooth.
    assert (E : Zfloor (0 + 0.5) = 0%Z) by (apply Zfloor_eq; simpl; lra).
    rewrite E. simpl. ring.
  - rewrite (sawtooth_eq _ _ _ _ _ Hf). f_equal.
    rewrite (half_periods_origin _ _ _ Hf).
    replace (2 * f * (1 / (4 * f))) with 0.5 by (rewrite half_eq; field; exact Hf).
    unfold tooth.
    assert (E : Zfloor (0.5 + 0.5) = 1%Z) by (apply Zfloor_eq; simpl; lra).
    rewrite E. lra.
Qed.

Lemma sawtooth_wave_witness :
  1 <> 0 /\
  exists v,
    sawtooth 1 1 0 0 1 = Return v /\
    Rabs v <= Rabs 1 /\
    (0 < 1 -> - 1 <= v < 1) /\
    (forall k : Z, sawtooth 1 1 0 (0 + IZR k / (2 * 1)) 1 = Return v) /\
    sawtooth 1 1 0 (0 / (2 * PI) / 1 + 0) 1 = Return 0 /\
    sawtooth 1 1 0 (0 / (2 * PI) / 1 + 1 / (4 * 1)) 1 = Return (- 1).
Proof.
  assert (H : 1 <> 0) by lra.
  split; [exact H|].
  exact (sawtooth_wave 1 1 0 0 1 H).
Defined.

(** X23: for [f <> 0], [square] returns [A] or [-A]; the wave repeats after
    every [1 / f], changes sign after [1 / (2 f)], and is [A] at
    [t0 = p / (2 pi) / f]. *)
Theorem square_wave (A f p t hz : R) :
  f <> 0 ->
  exists v,
    square A f p t hz = Return v /\
    (v = A \/ v = - A) /\
    (forall k : Z, square A f p (t + IZR k / f) hz = Return v) /\
    square A f p (t + 1 / (2 * f)) hz = Return (- v) /\
    square A f p (p / (2 * PI) / f + 0) hz = Return A.
Proof.
  intros Hf. exists (A * power_m1 (Zfloor (half_periods f p t))).
  split; [apply square_eq, Hf|].
  split; [|split; [|split]].
  - destruct (power_m1_cases (Zfloor (half_periods f p t))) as [-> | ->];
      [left|right]; ring.
  - intros k. rewrite (square_eq _ _ _ _ _ Hf). do 2 f_equal.
    rewrite (half_periods_shift _ _ _ _ Hf).
    replace (2 * f * (IZR k / f)) with (IZR (2 * k))
      by (rewrite mult_IZR; field; exact Hf).
    rewrite Zfloor_addz. apply power_m1_even.
  - rewrite (square_eq _ _ _ _ _ Hf). f_equal.
    rewrite (half_periods_shift _ _ _ _ Hf).
    replace (2 * f * (1 / (2 * f))) with (IZR 1) by (field; exact Hf).
    rewrite Zfloor_addz, power_m1_succ. ring.
  - rewrite (square_eq _ _ _ _ _ Hf). f_equal.
    rewrite (half_periods_origin _ _ _ Hf).
    replace (2 * f * 0) with (IZR 0) by ring.
    rewrite ZfloorZ. unfold power_m1. simpl. ring.
Qed.

Lemma square_wave_witness :
  1 <> 0 /\
  exists v,
    square 1 1 0 0 1 = Return v /\
    (v = 1 \/ v = - 1) /\
    (forall k : Z, square 1 1 0 (0 + IZR k / 1) 1 = Return v) /\
    square 1 1 0 (0 + 1 / (2 * 1)) 1 = Return (- v) /\
    square 1 1 0 (0 / (2 * PI) / 1 + 0) 1 = Return 1.
Proof.
  assert (H : 1 <> 0) by lra.
  split; [exact H|].
  exact (square_wave 1 1 0 0 1 H).
Defined.

(** X24: for [f <> 0], [staircase] climbs by [A / f / 2] after every
    [1 / (2 f)]; it stays within one step of the line
    [A * (t - t0) - A], [t0 = p / (2 pi) / f]; and for [0 <= A] it never
    comes down as [t] grows, whatever the sign of [f]. *)
Theorem staircase_steps (A f p t hz : R) :
  f <> 0 ->
  exists v,
    staircase A f p t hz = Return v /\
    (forall k : Z,
        staircase A f p (t + IZR k / (2 * f)) hz
        = Return (v + IZR k * (A / f / 2))) /\
    Rabs (v - (A * (t - p / (2 * PI) / f) - A)) <= Rabs (A / f / 2) /\
    (forall t', 0 <= A -> t <= t' ->
        exists v', staircase A f p t' hz = Return v' /\ v <= v').
Proof.
  intros Hf.
  exists (A / f / 2 * IZR (Zfloor (half_periods f p t)) - A).
  split; [apply staircase_eq, Hf|].
  split; [|split].
  - intros k. rewrite (staircase_eq _ _ _ _ _ Hf). f_equal.
    rewrite (half_periods_shift _ _ _ _ Hf).
    replace (2 * f * (IZR k / (2 * f))) with (IZR k) by (field; exact Hf).
    rewrite Zfloor_addz, plus_IZR. ring.
  - destruct (Zfloor_bound (half_periods f p t)) as [H1 H2].
    replace (A / f / 2 * IZR (Zfloor (half_periods f p t)) - A
             - (A * (t - p / (2 * PI) / f) - A))
      with (A / f / 2
            * (IZR (Zfloor (half_periods f p t)) - half_periods f p t))
      by (unfold half_periods; wave_field).
    rewrite Rabs_mult.
    rewrite <- (Rmult_1_r (Rabs (A / f / 2))) at 2.
    apply Rmult_le_compat_l; [apply Rabs_pos|].
    apply Rabs_le. lra.
  - intros t' HA Ht.
    exists (A / f / 2 * IZR (Zfloor (half_periods f p t')) - A).
    split; [apply staircase_eq, Hf|].
    assert (Hd : half_periods f p t' - half_periods f p t
                 = 2 * (f * (t' - t)))
      by (unfold half_periods; wave_field).
    destruct (Rlt_le_dec 0 f) as [Hpos|Hneg].
    + assert (Hc : 0 <= A / f / 2).
      { unfold Rdiv. apply Rmult_le_pos; [|lra].
        apply Rmult_le_pos; [exact HA|].
        left. apply Rinv_0_lt_compat. exact Hpos. }
      assert (Hx : half_periods f p t <= half_periods f p t') by nra.
      apply Zfloor_le, IZR_le in Hx.
      apply Rplus_le_compat_r. apply Rmult_le_compat_l; assumption.
    + assert (Hlt : f < 0) by lra.
      assert (Hc : 0 <= - (A / f / 2)).
      { replace (- (A / f / 2)) with (A * / (- f) * / 2)
          by (field; exact Hf).
        apply Rmult_le_pos; [|lra].
        apply Rmult_le_pos; [exact HA|].
        left. apply Rinv_0_lt_compat. lra. }
      assert (Hx : half_periods f p t' <= half_periods f p t) by nra.
      apply Zfloor_le, IZR_le in Hx.
      apply Rplus_le_compat_r.
      apply Ropp_le_cancel.
      rewrite !Ropp_mult_distr_l.
      apply Rmult_le_compat_l; assumption.
Qed.

Lemma staircase_steps_witness :
  1 <> 0 /\
  exists v,
    staircase 1 1 0 0 1 = Return v /\
    (forall k : Z,
        staircase 1 1 0 (0 + IZR k / (2 * 1)) 1
        = Return (v + IZR k * (1 / 1 / 2))) /\
    Rabs (v - (1 * (0 - 0 / (2 * PI) / 1) - 1)) <= Rabs (1 / 1 / 2) /\
    (forall t', 0 <= 1 -> 0 <= t' ->
        exists v', staircase 1 1 0 t' 1 = Return v' /\ v <= v').
Proof.
  assert (H : 1 <> 0) by lra.
  split; [exact H|].
  exact (staircase_steps 1 1 0 0 1 H).
Defined.

(** The four waveforms that divide by the frequency fail exactly when
    [f = 0], with [ZeroDivisionError] and whatever the other arguments;
    so does [period]. *)
Theorem waveforms_raise_iff (A f p t hz : R) (e : exn) :
  (period f = Raise e <-> f = 0 /\ e = ZeroDivisionError) /\
  (triangle A f p t hz = Raise e <-> f = 0 /\ e = ZeroDivisionError) /\
  (sawtooth A f p t hz = Raise e <-> f = 0 /\ e = ZeroDivisionError) /\
  (square A f p t hz = Raise e <-> f = 0 /\ e = ZeroDivisionError) /\
  (staircase A f p t hz = Raise e <-> f = 0 /\ e = ZeroDivisionError).
Proof.
  destruct (Req_dec_T f 0) as [E|NE].
  - assert (G : @Raise R ZeroDivisionError = Raise e
                <-> f = 0 /\ e = ZeroDivisionError).
    { split.
      - intros H. injection H as <-. split; [exact E|reflexivity].
      - intros [_ ->]. reflexivity. }
    unfold triangle, sawtooth, square, staircase, period, pdiv.
    destruct (Req_dec_T f 0) as [_|N]; [|contradiction].
    cbn [bind].
    repeat (split; [exact G|]). exact G.
  - assert (G : forall v : R,
                 Return v = Raise e <-> f = 0 /\ e = ZeroDivisionError).
    { intros v. split; [discriminate|]. intros [H _]. contradiction. }
    rewrite (triangle_eq _ _ _ _ _ NE), (sawtooth_eq _ _ _ _ _ NE),
      (square_eq _ _ _ _ _ NE), (staircase_eq _ _ _ _ _ NE).
    unfold period, pdiv.
    destruct (Req_dec_T f 0) as [E|_]; [contradiction|].
    repeat (split; [apply G|]). apply G.
Qed.

(** ** The length of a sampled path *)

(** What [lengths] computes from three arrays of differences of one
    length. *)
Definition segments (a b c : list R) : list R :=
  map sqrt
      (map (fun uv => fst uv + snd uv)
           (combine (map (fun uv => fst uv + snd uv)
                         (combine (map (fun u => u * u) a)
                                  (map (fun u => u * u) b)))
                    (map (fun u => u * u) c))).

Definition chord (a b c : R) : R := sqrt (a * a + b * b + c * c).

Lemma length_diffs (l : list R) : length (diffs l) = pred (length l).
Proof.
  induction l as [|a l IH]; [reflexivity|].
  destruct l as [|b l]; [reflexivity|].
  change (diffs (a :: b :: l)) with ((b - a) :: diffs (b :: l)).
  simpl length in *. rewrite IH. reflexivity.
Qed.

Lemma broadcast_add_same (a b : list R) :
  length a = length b ->
  broadcast_add a b = Return (map (fun ab => fst ab + snd ab) (combine a b)).
Proof.
  intros H. unfold broadcast_add. rewrite H, Nat.eqb_refl. reflexivity.
Qed.

Lemma lengths_same (x y z : list R) :
  length y = length x -> length z = length x ->
  lengths x (Some y) (Some z)
  = Return (segments (diffs x) (diffs y) (diffs z)).
Proof.
  intros Hy Hz. unfold lengths.
  rewrite broadcast_add_same
    by (rewrite !length_map, !length_diffs, Hy; reflexivity).
  cbn [bind].
  rewrite broadcast_add_same
    by (rewrite !length_map, length_combine, !length_map, !length_diffs,
          Hy, Hz, Nat.min_id; reflexivity).
  reflexivity.
Qed.

Lemma chord_triangle (a b c a' b' c' : R) :
  chord (a + a') (b + b') (c + c') <= chord a b c + chord a' b' c'.
Proof. exact (norm3_triangle (a, b, c) (a', b', c')). Qed.

Lemma polyline_chord (x y z : list R) (x0 y0 z0 : R) :
  length y = length x -> length z = length x ->
  chord (last x x0 - x0) (last y y0 - y0) (last z z0 - z0)
  <= sum_list (segments (diffs (x0 :: x)) (diffs (y0 :: y))
                        (diffs (z0 :: z))).
Proof.
  revert y z x0 y0 z0.
  induction x as [|x1 x IH]; intros y z x0 y0 z0 Hy Hz.
  - destruct y; [|discriminate]. destruct z; [|discriminate].
    simpl. unfold chord, sum_list. simpl.
    replace ((x0 - x0) * (x0 - x0) + (y0 - y0) * (y0 - y0)
             + (z0 - z0) * (z0 - z0)) with 0 by ring.
    rewrite sqrt_0. lra.
  - destruct y as [|y1 y]; [discriminate|].
    destruct z as [|z1 z]; [discriminate|].
    injection Hy as Hy. injection Hz as Hz.
    rewrite !last_cons_any.
    change (diffs (x0 :: x1 :: x)) with ((x1 - x0) :: diffs (x1 :: x)).
    change (diffs (y0 :: y1 :: y)) with ((y1 - y0) :: diffs (y1 :: y)).
    change (diffs (z0 :: z1 :: z)) with ((z1 - z0) :: diffs (z1 :: z)).
    change (sum_list (segments ((x1 - x0) :: diffs (x1 :: x))
                               ((y1 - y0) :: diffs (y1 :: y))
                               ((z1 - z0) :: diffs (z1 :: z))))
      with (chord (x1 - x0) (y1 - y0) (z1 - z0)
            + sum_list (segments (diffs (x1 :: x)) (diffs (y1 :: y))
                                 (diffs (z1 :: z)))).
    specialize (IH y z x1 y1 z1 Hy Hz).
    pose proof (chord_triangle (x1 - x0) (y1 - y0) (z1 - z0)
                  (last x x1 - x1) (last y y1 - y1) (last z z1 - z1))
      as Ht.
    replace (x1 - x0 + (last x x1 - x1)) with (last x x1 - x0) in Ht
      by ring.
    replace (y1 - y0 + (last y y1 - y1)) with (last y y1 - y0) in Ht
      by ring.
    replace (z1 - z0 + (last z z1 - z1)) with (last z z1 - z0) in Ht
      by ring.
    lra.
Qed.

(** X25: on three arrays of one length, [distance] returns the length of
    the polyline through the samples, which is at least the straight-line
    distance from the first sample to the last. *)
Theorem distance_chord (x y z : list R) (x0 y0 z0 : R) :
  length y = length x -> length z = length x ->
  exists d,
    distance (x0 :: x) (Some (y0 :: y)) (Some (z0 :: z)) = Return d /\
    sqrt ((last x x0 - x0) * (last x x0 - x0)
          + (last y y0 - y0) * (last y y0 - y0)
          + (last z z0 - z0) * (last z z0 - z0)) <= d.
Proof.
  intros Hy Hz. unfold distance.
  rewrite lengths_same by (simpl; congruence).
  cbn [bind]. eexists. split; [reflexivity|].
  exact (polyline_chord x y z x0 y0 z0 Hy Hz).
Qed.

Lemma distance_chord_witness :
  length [4] = length [3] /\ length [0] = length [3] /\
  exists d,
    distance [0; 3] (Some [0; 4]) (Some [0; 0]) = Return d /\
    sqrt ((last [3] 0 - 0) * (last [3] 0 - 0)
          + (last [4] 0 - 0) * (last [4] 0 - 0)
          + (last [0] 0 - 0) * (last [0] 0 - 0)) <= d.
Proof.
  assert (Hy : length [4] = length [3]) by reflexivity.
  assert (Hz : length [0] = length [3]) by reflexivity.
  split; [exact Hy|]. split; [exact Hz|].
  exact (distance_chord [3] [4] [0] 0 0 0 Hy Hz).
Defined.

Lemma lengths_line (x : list R) :
  lengths x None None
  = Return (segments (diffs x) (diffs (map (fun _ => 0) x))
                     (diffs (map (fun _ => 0) x))).
Proof.
  unfold lengths.
  rewrite broadcast_add_same
    by (rewrite !length_map, !length_diffs, length_map; reflexivity).
  cbn [bind].
  rewrite broadcast_add_same
    by (rewrite !length_map, length_combine, !length_map, !length_diffs,
          length_map, Nat.min_id; reflexivity).
  reflexivity.
Qed.

Lemma segments_line (x : list R) (x0 : R) :
  sum_list (segments (diffs (x0 :: x))
                     (diffs (map (fun _ => 0) (x0 :: x)))
                     (diffs (map (fun _ => 0) (x0 :: x))))
  = sum_list (map Rabs (diffs (x0 :: x))).
Proof.
  revert x0.
  induction x as [|x1 x IH]; intros x0; [reflexivity|].
  change (diffs (x0 :: x1 :: x)) with ((x1 - x0) :: diffs (x1 :: x)).
  change (map (fun _ : R => 0) (x0 :: x1 :: x))
    with (0 :: map (fun _ : R => 0) (x1 :: x)).
  change (diffs (0 :: map (fun _ : R => 0) (x1 :: x)))
    with ((0 - 0) :: diffs (map (fun _ : R => 0) (x1 :: x))).
  change (sum_list (segments ((x1 - x0) :: diffs (x1 :: x))
                      ((0 - 0) :: diffs (map (fun _ : R => 0) (x1 :: x)))
                      ((0 - 0) :: diffs (map (fun _ : R => 0) (x1 :: x)))))
    with (sqrt ((x1 - x0) * (x1 - x0) + (0 - 0) * (0 - 0)
                + (0 - 0) * (0 - 0))
          + sum_list (segments (diffs (x1 :: x))
                        (diffs (map (fun _ : R => 0) (x1 :: x)))
                        (diffs (map (fun _ : R => 0) (x1 :: x))))).
  rewrite IH.
  change (sum_list (map Rabs ((x1 - x0) :: diffs (x1 :: x))))
    with (Rabs (x1 - x0) + sum_list (map Rabs (diffs (x1 :: x)))).
  f_equal.
  replace ((x1 - x0) * (x1 - x0) + (0 - 0) * (0 - 0) + (0 - 0) * (0 - 0))
    with (Rsqr (x1 - x0)) by (unfold Rsqr; ring).
  apply sqrt_Rsqr_abs.
Qed.

Lemma sum_abs_diffs (x : list R) (x0 : R) :
  Rabs (last x x0 - x0) <= sum_list (map Rabs (diffs (x0 :: x))) /\
  (Sorted Rle (x0 :: x) ->
   sum_list (map Rabs (diffs (x0 :: x))) = last x x0 - x0).
Proof.
  revert x0.
  induction x as [|x1 x IH]; intros x0.
  - simpl. unfold sum_list. simpl.
    replace (x0 - x0) with 0 by ring. rewrite Rabs_R0.
    split; [lra|reflexivity].
  - rewrite last_cons_any.
    change (diffs (x0 :: x1 :: x)) with ((x1 - x0) :: diffs (x1 :: x)).
    change (sum_list (map Rabs ((x1 - x0) :: diffs (x1 :: x))))
      with (Rabs (x1 - x0) + sum_list (map Rabs (diffs (x1 :: x)))).
    destruct (IH x1) as [Hle Heq].
    split.
    + replace (last x x1 - x0) with ((x1 - x0) + (last x x1 - x1)) by ring.
      pose proof (Rabs_triang (x1 - x0) (last x x1 - x1)). lra.
    + intros Hs. inversion Hs as [|? ? Hs' Hhd]; subst.
      inversion Hhd as [|? ? H01]; subst.
      rewrite (Heq Hs'), Rabs_pos_eq by lra. ring.
Qed.

(** X26: on one array, [y] and [z] left out, [distance] returns the sum of
    the absolute differences of neighbours, at least the distance from the
    first sample to the last, and exactly that when the samples never
    decrease; on fewer than two samples it returns 0. *)
Theorem distance_line (x : list R) (x0 : R) :
  distance [] None None = Return 0 /\
  distance [x0] None None = Return 0 /\
  distance (x0 :: x) None None
  = Return (sum_list (map Rabs (diffs (x0 :: x)))) /\
  Rabs (last x x0 - x0) <= sum_list (map Rabs (diffs (x0 :: x))) /\
  (Sorted Rle (x0 :: x) ->
   distance (x0 :: x) None None = Return (last x x0 - x0)).
Proof.
  assert (E : distance (x0 :: x) None None
              = Return (sum_list (map Rabs (diffs (x0 :: x))))).
  { unfold distance. rewrite lengths_line. cbn [bind].
    rewrite segments_line. reflexivity. }
  destruct (sum_abs_diffs x x0) as [Hle Heq].
  split; [reflexivity|]. split; [reflexivity|].
  split; [exact E|]. split; [exact Hle|].
  intros Hs. rewrite E, (Heq Hs). reflexivity.
Qed.

Lemma broadcast_add_mismatch (a0 a1 b0 b1 : R) (a b : list R) :
  length a <> length b ->
  broadcast_add (a0 :: a1 :: a) (b0 :: b1 :: b) = Raise ValueError.
Proof.
  intros H. unfold broadcast_add. cbn [length].
  destruct (Nat.eqb_spec (S (S (length a))) (S (S (length b))));
    [lia|reflexivity].
Qed.

(** [lengths] refuses two arrays of three samples or more whose
    lengths differ, with the [ValueError] of [numpy]'s broadcasting, and
    so does [distance]. *)
Theorem lengths_mismatch (x y : list R) (z : option (list R)) :
  (3 <= length x)%nat -> (3 <= length y)%nat -> length y <> length x ->
  lengths x (Some y) z = Raise ValueError /\
  distance x (Some y) z = Raise ValueError.
Proof.
  intros Hx Hy Hne.
  assert (E : lengths x (Some y) z = Raise ValueError).
  { unfold lengths.
    destruct x as [|x0 [|x1 [|x2 x]]]; simpl in Hx; try lia.
    destruct y as [|y0 [|y1 [|y2 y]]]; simpl in Hy; try lia.
    change (diffs (x0 :: x1 :: x2 :: x))
      with ((x1 - x0) :: (x2 - x1) :: diffs (x2 :: x)).
    change (diffs (y0 :: y1 :: y2 :: y))
      with ((y1 - y0) :: (y2 - y1) :: diffs (y2 :: y)).
    cbn [map].
    rewrite broadcast_add_mismatch; [reflexivity|].
    rewrite !length_map, !length_diffs. simpl in *. lia. }
  split; [exact E|]. unfold distance. rewrite E. reflexivity.
Qed.

Lemma lengths_mismatch_witness :
  (3 <= length [0; 0; 0])%nat /\ (3 <= length [0; 0; 0; 0])%nat /\
  length [0; 0; 0; 0] <> length [0; 0; 0] /\
  lengths [0; 0; 0] (Some [0; 0; 0; 0]) None = Raise ValueError /\
  distance [0; 0; 0] (Some [0; 0; 0; 0]) None = Raise ValueError.
Proof.
  assert (Hx : (3 <= length [0; 0; 0])%nat) by (simpl; lia).
  assert (Hy : (3 <= length [0; 0; 0; 0])%nat) by (simpl; lia).
  assert (Hne : length [0; 0; 0; 0] <> length [0; 0; 0])
    by (simpl; lia).
  split; [exact Hx|]. split; [exact Hy|]. split; [exact Hne|].
  exact (lengths_mismatch [0; 0; 0] [0; 0; 0; 0] None Hx Hy Hne).
Defined.

Lemma stretch_segments (a : list R) (b0 : R) :
  (ab <- broadcast_add (map (fun u => u * u) a) [b0 * b0] ;;
   abc <- broadcast_add ab (map (fun u => u * u) (map (fun _ => 0 - 0) a)) ;;
   Return (map sqrt abc))%outcome
  = Return (map (fun u => sqrt (u * u + b0 * b0 + (0 - 0) * (0 - 0))) a).
Proof.
  assert (E : broadcast_add (map (fun u => u * u) a) [b0 * b0]
              = Return (map (fun x => x + b0 * b0)
                            (map (fun u => u * u) a))).
  { destruct a as [|a0 [|a1 a]]; reflexivity. }
  rewrite E. cbn [bind].
  rewrite broadcast_add_same by (rewrite !length_map; reflexivity).
  cbn [bind]. f_equal. clear E.
  induction a as [|u a IH]; [reflexivity|].
  cbn [map combine fst snd]. f_equal. exact IH.
Qed.

Lemma diffs_zeros (x : list R) :
  diffs (map (fun _ => 0) x) = map (fun _ => 0 - 0) (diffs x).
Proof.
  induction x as [|a x IH]; [reflexivity|].
  destruct x as [|b x]; [reflexivity|].
  change (diffs (a :: b :: x)) with ((b - a) :: diffs (b :: x)).
  change (map (fun _ : R => 0) (a :: b :: x))
    with (0 :: 0 :: map (fun _ : R => 0) x).
  change (diffs (0 :: 0 :: map (fun _ : R => 0) x))
    with ((0 - 0) :: diffs (map (fun _ : R => 0) (b :: x))).
  rewrite IH. reflexivity.
Qed.

(** X27: a [y] of exactly two samples is accepted beside an [x] of any
    length: its one difference is stretched by [numpy] over every segment
    of [x], so that [lengths] returns [sqrt(dx_i ** 2 + (y1 - y0) ** 2)]
    for each difference [dx_i] of [x] instead of failing on the
    mismatch. *)
Theorem lengths_stretch (x : list R) (y0 y1 : R) :
  lengths x (Some [y0; y1]) None
  = Return (map (fun u => sqrt (u * u + (y1 - y0) * (y1 - y0)))
                (diffs x)).
Proof.
  unfold lengths.
  change (diffs [y0; y1]) with [y1 - y0]. cbn [map].
  rewrite diffs_zeros, stretch_segments.
  f_equal. apply map_ext. intros u. f_equal. ring.
Qed.

(** ** The sublines of [tike.coverage.line_offsets] *)

(** The centre of cell [i] of an axis of [n] cells. *)
Definition centre (size : R) (n i : nat) : R :=
  (INR i + 1 / 2) * (size / INR n).

Definition nonzero (probe_grid : array2) (i j : nat) : bool :=
  negb (Reqb (entry probe_grid i j) 0).

Lemma axis_centres_ok (size : R) (n : nat) :
  (1 <= n)%nat ->
  tike_coverage.axis_centres size n = Return (map (centre size n) (seq 0 n)).
Proof.
  intros Hn. unfold tike_coverage.axis_centres, linspace, pdiv.
  assert (Hlt : (Z.of_nat n <? 0)%Z = false) by (apply Z.ltb_ge; lia).
  rewrite Hlt. cbn [bind].
  assert (Hne : INR n <> 0) by (apply not_0_INR; lia).
  destruct (Req_dec_T (INR n) 0) as [E|_]; [contradiction|].
  cbn [bind]. rewrite Nat2Z.id, map_map. f_equal.
  apply map_ext. intros i. unfold centre.
  rewrite <- INR_IZR_INZ. field. exact Hne.
Qed.

Lemma select_row {A : Type} (m : A -> bool) (F : A -> R) (J : list A) :
  map snd (filter fst (combine (map m J) (map F J))) = map F (filter m J).
Proof.
  induction J as [|j J IH]; [reflexivity|].
  cbn [map combine filter fst]. destruct (m j); cbn [map snd]; rewrite IH;
    reflexivity.
Qed.

Lemma select_rows {A B : Type} (m : A -> B -> bool) (F : A -> B -> R)
    (I : list A) (J : list B) :
  mask_select (map (fun i => map (m i) J) I) (map (fun i => map (F i) J) I)
  = flat_map (fun i => map (F i) (filter (m i) J)) I.
Proof.
  unfold mask_select.
  induction I as [|i I IH]; [reflexivity|].
  cbn [map combine concat flat_map fst snd].
  rewrite select_row. f_equal. exact IH.
Qed.

Lemma combine_flat_map {A B : Type} (c : A -> R) (g : B -> R)
    (L : A -> list B) (I : list A) :
  combine (flat_map (fun i => map (fun _ => c i) (L i)) I)
          (flat_map (fun i => map g (L i)) I)
  = flat_map (fun i => map (fun j => (c i, g j)) (L i)) I.
Proof.
  induction I as [|i I IH]; [reflexivity|].
  cbn [flat_map].
  rewrite combine_app_same by (rewrite !length_map; reflexivity).
  rewrite IH. f_equal.
  induction (L i) as [|j l IHl]; [reflexivity|].
  cbn [map combine]. f_equal. exact IHl.
Qed.

Lemma length_flat_map_same {A B : Type} (c : A -> R) (g : B -> R)
    (L : A -> list B) (I : list A) :
  length (flat_map (fun i => map (fun _ => c i) (L i)) I)
  = length (flat_map (fun i => map g (L i)) I).
Proof.
  induction I as [|i I IH]; [reflexivity|].
  cbn [flat_map]. rewrite !length_app, !length_map, IH. reflexivity.
Qed.

Lemma line_offsets_cells (probe_grid : array2) (probe_size : R * R) :
  (1 <= shape0 probe_grid)%nat -> (1 <= shape1 probe_grid)%nat ->
  exists h v,
    tike_coverage.line_offsets probe_grid probe_size = Return (h, v) /\
    length h = length v /\
    combine h v
    = flat_map (fun i =>
                  map (fun j => (centre (fst probe_size)
                                        (shape0 probe_grid) i,
                                 centre (snd probe_size)
                                        (shape1 probe_grid) j))
                      (filter (nonzero probe_grid i)
                              (seq 0 (shape1 probe_grid))))
               (seq 0 (shape0 probe_grid)).
Proof.
  intros H0 H1. unfold tike_coverage.line_offsets.
  rewrite (axis_centres_ok _ _ H0), (axis_centres_ok _ _ H1).
  cbn [bind]. unfold meshgrid_ij.
  set (I := seq 0 (shape0 probe_grid)).
  set (J := seq 0 (shape1 probe_grid)).
  set (ch := centre (fst probe_size) (shape0 probe_grid)).
  set (cv := centre (snd probe_size) (shape1 probe_grid)).
  assert (Eh : mask_select
                 (map (fun i => map (fun j => negb (Reqb (entry probe_grid i j) 0)) J) I)
                 (map (fun h => map (fun _ => h) (map cv J)) (map ch I))
               = flat_map (fun i => map (fun _ => ch i)
                                        (filter (nonzero probe_grid i) J)) I).
  { rewrite map_map.
    rewrite (map_ext (fun i => map (fun _ : R => ch i) (map cv J))
                     (fun i => map (fun _ : nat => ch i) J))
      by (intros i; apply map_map).
    apply (select_rows (nonzero probe_grid) (fun i _ => ch i)). }
  assert (Ev : mask_select
                 (map (fun i => map (fun j => negb (Reqb (entry probe_grid i j) 0)) J) I)
                 (map (fun _ => map cv J) (map ch I))
               = flat_map (fun i => map cv
                                        (filter (nonzero probe_grid i) J)) I).
  { rewrite map_map.
    apply (select_rows (nonzero probe_grid) (fun _ j => cv j)). }
  rewrite Eh, Ev.
  eexists. eexists. split; [reflexivity|].
  split; [apply length_flat_map_same|apply combine_flat_map].
Qed.

Lemma nonzero_iff (probe_grid : array2) (i j : nat) :
  nonzero probe_grid i j = true <-> entry probe_grid i j <> 0.
Proof.
  unfold nonzero, Reqb.
  destruct (Req_dec_T (entry probe_grid i j) 0) as [E|NE]; simpl.
  - split; [discriminate|]. intros H. contradiction.
  - split; [intros _; exact NE|reflexivity].
Qed.

Lemma centre_inside (size : R) (n i : nat) :
  0 < size -> (i < n)%nat -> 0 < centre size n i < size.
Proof.
  intros Hs Hi. unfold centre.
  assert (Hn : 0 < INR n) by (apply lt_0_INR; lia).
  assert (Hi' : INR i + 1 <= INR n).
  { rewrite <- S_INR. apply le_INR. lia. }
  pose proof (pos_INR i) as Hi0.
  assert (Hq : 0 < size / INR n) by (apply Rdiv_lt_0_compat; assumption).
  split.
  - apply Rmult_lt_0_compat; lra.
  - replace size with (INR n * (size / INR n)) at 2 by (field; lra).
    apply Rmult_lt_compat_r; lra.
Qed.

Lemma centre_mirror (size : R) (n i : nat) :
  (i < n)%nat -> centre size n (n - 1 - i) = size - centre size n i.
Proof.
  intros Hi. unfold centre.
  rewrite !minus_INR by lia. simpl (INR 1).
  assert (Hn : INR n <> 0) by (apply not_0_INR; lia).
  field. exact Hn.
Qed.

Lemma In_cells (probe_grid : array2) (s0 s1 a b : R) :
  In (a, b)
     (flat_map (fun i =>
                  map (fun j => (centre s0 (shape0 probe_grid) i,
                                 centre s1 (shape1 probe_grid) j))
                      (filter (nonzero probe_grid i)
                              (seq 0 (shape1 probe_grid))))
               (seq 0 (shape0 probe_grid)))
  <-> exists i j,
      (i < shape0 probe_grid)%nat /\ (j < shape1 probe_grid)%nat /\
      entry probe_grid i j <> 0 /\
      a = centre s0 (shape0 probe_grid) i /\
      b = centre s1 (shape1 probe_grid) j.
Proof.
  rewrite in_flat_map. split.
  - intros (i & Hi & Hin). apply in_map_iff in Hin.
    destruct Hin as (j & Heq & Hj). apply filter_In in Hj.
    destruct Hj as [Hj Hnz]. apply in_seq in Hi. apply in_seq in Hj.
    injection Heq as <- <-.
    exists i, j. rewrite <- nonzero_iff.
    repeat split; try lia. exact Hnz.
  - intros (i & j & Hi & Hj & Hnz & -> & ->).
    exists i. split; [apply in_seq; lia|].
    apply in_map_iff. exists j. split; [reflexivity|].
    apply filter_In. split; [apply in_seq; lia|].
    apply nonzero_iff. exact Hnz.
Qed.

(** X28: on a probe grid of at least one row and one column and a probe
    of positive size, [tike.coverage.line_offsets] returns two arrays of
    one length that hold, pair by pair, exactly the centres of the cells
    of nonzero weight, each strictly inside the probe; a grid without a
    zero gives one pair for each cell. *)
Theorem coverage_line_offsets_cells (probe_grid : array2)
    (probe_size : R * R) :
  (1 <= shape0 probe_grid)%nat -> (1 <= shape1 probe_grid)%nat ->
  0 < fst probe_size -> 0 < snd probe_size ->
  exists h v,
    tike_coverage.line_offsets probe_grid probe_size = Return (h, v) /\
    length h = length v /\
    (forall a b,
        In (a, b) (combine h v) <->
        exists i j,
          (i < shape0 probe_grid)%nat /\ (j < shape1 probe_grid)%nat /\
          entry probe_grid i j <> 0 /\
          a = centre (fst probe_size) (shape0 probe_grid) i /\
          b = centre (snd probe_size) (shape1 probe_grid) j) /\
    (forall a b,
        In (a, b) (combine h v) ->
        0 < a < fst probe_size /\ 0 < b < snd probe_size) /\
    ((forall i j, entry probe_grid i j <> 0) ->
     length h = (shape0 probe_grid * shape1 probe_grid)%nat).
Proof.
  intros H0 H1 Hs0 Hs1.
  destruct (line_offsets_cells probe_grid probe_size H0 H1)
    as (h & v & E & Hlen & Hcells).
  exists h, v. split; [exact E|]. split; [exact Hlen|].
  assert (Hin : forall a b,
             In (a, b) (combine h v) <->
             exists i j,
               (i < shape0 probe_grid)%nat /\ (j < shape1 probe_grid)%nat /\
               entry probe_grid i j <> 0 /\
               a = centre (fst probe_size) (shape0 probe_grid) i /\
               b = centre (snd probe_size) (shape1 probe_grid) j).
  { intros a b. rewrite Hcells. apply In_cells. }
  split; [exact Hin|]. split.
  - intros a b Hab. apply Hin in Hab.
    destruct Hab as (i & j & Hi & Hj & _ & -> & ->).
    split; apply centre_inside; assumption.
  - intros Hfull.
    assert (Hc : length (combine h v)
                 = (shape0 probe_grid * shape1 probe_grid)%nat).
    { rewrite Hcells.
      assert (G : forall I : list nat,
                 length (flat_map
                           (fun i =>
                              map (fun j =>
                                     (centre (fst probe_size)
                                             (shape0 probe_grid) i,
                                      centre (snd probe_size)
                                             (shape1 probe_grid) j))
                                  (filter (nonzero probe_grid i)
                                          (seq 0 (shape1 probe_grid)))) I)
                 = (length I * shape1 probe_grid)%nat).
      { induction I as [|i I IH]; [reflexivity|].
        cbn [flat_map length]. rewrite length_app, length_map, IH.
        rewrite forallb_filter_id.
        - rewrite length_seq. lia.
        - apply forallb_forall. intros j _. apply nonzero_iff, Hfull. }
      rewrite G, length_seq. reflexivity. }
    rewrite length_combine, <- Hlen, Nat.min_id in Hc. exact Hc.
Qed.

Lemma coverage_line_offsets_cells_witness :
  (1 <= 1)%nat /\ (1 <= 1)%nat /\ 0 < 1 /\ 0 < 1 /\
  exists h v,
    tike_coverage.line_offsets
      {| shape0 := 1; shape1 := 1; entry := fun _ _ => 1 |} (1, 1)
    = Return (h, v) /\
    length h = length v /\
    (forall a b,
        In (a, b) (combine h v) <->
        exists i j,
          (i < 1)%nat /\ (j < 1)%nat /\ 1 <> 0 /\
          a = centre 1 1 i /\ b = centre 1 1 j) /\
    (forall a b,
        In (a, b) (combine h v) -> 0 < a < 1 /\ 0 < b < 1) /\
    ((forall i j : nat, 1 <> 0) -> length h = (1 * 1)%nat).
Proof.
  assert (Hn : (1 <= 1)%nat) by lia.
  assert (Hs : 0 < 1) by lra.
  split; [exact Hn|]. split; [exact Hn|].
  split; [exact Hs|]. split; [exact Hs|].
  exact (coverage_line_offsets_cells
           {| shape0 := 1; shape1 := 1; entry := fun _ _ => 1 |} (1, 1)
           Hn Hn Hs Hs).
Defined.

(** X29: when the weights of the probe grid are the same at a cell and at
    the cell opposite to it through the middle of the grid, the line
    offsets of [tike.coverage.line_offsets] are symmetric about the centre
    of the probe: with [(a, b)] they hold [(size0 - a, size1 - b)]. *)
Theorem coverage_line_offsets_symmetric (probe_grid : array2)
    (probe_size : R * R) (h v : list R) (a b : R) :
  (1 <= shape0 probe_grid)%nat -> (1 <= shape1 probe_grid)%nat ->
  (forall i j,
      (i < shape0 probe_grid)%nat -> (j < shape1 probe_grid)%nat ->
      entry probe_grid (shape0 probe_grid - 1 - i)
            (shape1 probe_grid - 1 - j)
      = entry probe_grid i j) ->
  tike_coverage.line_offsets probe_grid probe_size = Return (h, v) ->
  In (a, b) (combine h v) ->
  In (fst probe_size - a, snd probe_size - b) (combine h v).
Proof.
  intros H0 H1 Hsym E Hab.
  destruct (line_offsets_cells probe_grid probe_size H0 H1)
    as (h' & v' & E' & _ & Hcells).
  rewrite E in E'. injection E' as <- <-.
  rewrite Hcells in *. apply In_cells in Hab. apply In_cells.
  destruct Hab as (i & j & Hi & Hj & Hnz & -> & ->).
  exists (shape0 probe_grid - 1 - i)%nat, (shape1 probe_grid - 1 - j)%nat.
  split; [lia|]. split; [lia|].
  split; [rewrite (Hsym i j Hi Hj); exact Hnz|].
  split; symmetry; apply centre_mirror; assumption.
Qed.

Lemma coverage_line_offsets_symmetric_witness :
  exists h v,
    (1 <= 1)%nat /\ (1 <= 1)%nat /\
    tike_coverage.line_offsets
      {| shape0 := 1; shape1 := 1; entry := fun _ _ => 1 |} (1, 1)
    = Return (h, v) /\
    In (1 / 2, 1 / 2) (combine h v) /\
    In (1 - 1 / 2, 1 - 1 / 2) (combine h v).
Proof.
  set (g := {| shape0 := 1; shape1 := 1; entry := fun _ _ => 1 |}).
  assert (Hn : (1 <= 1)%nat) by lia.
  destruct (line_offsets_cells g (1, 1) Hn Hn)
    as (h & v & E & _ & Hcells).
  exists h, v.
  assert (Hin : In (1 / 2, 1 / 2) (combine h v)).
  { rewrite Hcells. apply In_cells. exists 0%nat, 0%nat.
    split; [simpl; lia|]. split; [simpl; lia|].
    split; [simpl; lra|].
    unfold centre. simpl. split; field. }
  split; [exact Hn|]. split; [exact Hn|]. split; [exact E|].
  split; [exact Hin|].
  exact (coverage_line_offsets_symmetric g (1, 1) h v (1 / 2) (1 / 2)
           Hn Hn (fun i j _ _ => eq_refl) E Hin).
Defined.

(** ** The samples of [scantime] *)

Lemma last_map_seq (f : nat -> R) (m : nat) (d : R) :
  last (map f (seq 0 (S m))) d = f m.
Proof. rewrite seq_S, map_app. cbn [map]. apply last_last. Qed.

Lemma nth_map_seq (f : nat -> R) (n i : nat) (d : R) :
  (i < n)%nat -> nth i (map f (seq 0 n)) d = f i.
Proof.
  intros Hi.
  rewrite (nth_indep _ d (f 0%nat)) by (rewrite length_map, length_seq; lia).
  rewrite map_nth, seq_nth by lia. reflexivity.
Qed.

(** X30: for whole numbers [t] and [hz] with [t * hz >= 2], [scantime]
    returns [t * hz] samples from 0 to [t], both ends included, sample [i]
    being [i * t / (t * hz - 1)]: neighbours are [t / (t * hz - 1)] apart,
    which is never the exposure time [1 / hz]. *)
Theorem scantime_samples (t hz : Z) :
  (2 <= t * hz)%Z ->
  exists ts,
    scantime t hz = Return ts /\
    length ts = Z.to_nat (t * hz) /\
    (forall i, (i < Z.to_nat (t * hz))%nat ->
               nth i ts 0 = INR i * (IZR t / IZR (t * hz - 1))) /\
    last ts 0 = IZR t /\
    Forall (fun d => d = IZR t / IZR (t * hz - 1)) (diffs ts) /\
    IZR t / IZR (t * hz - 1) <> 1 / IZR hz.
Proof.
  intros Hn.
  set (f := fun i : nat => 0 + INR i * ((IZR t - 0) / IZR (t * hz - 1))).
  assert (Hd : IZR (t * hz - 1) <> 0).
  { intros H. apply eq_IZR in H. lia. }
  destruct (Z.to_nat (t * hz)) as [|m] eqn:Em; [lia|].
  assert (Hm : INR m = IZR (t * hz - 1)).
  { rewrite INR_IZR_INZ. f_equal. lia. }
  assert (Hlast : f m = IZR t).
  { unfold f. rewrite Hm. field. exact Hd. }
  assert (E : scantime t hz = Return (map f (seq 0 (S m)))).
  { unfold scantime, linspace_closed.
    assert (H1 : (t * hz <? 0)%Z = false) by (apply Z.ltb_ge; lia).
    assert (H2 : (1 <? t * hz)%Z = true) by (apply Z.ltb_lt; lia).
    rewrite H1, H2, Em. fold f. f_equal.
    rewrite <- Hlast, <- (last_map_seq f m 0).
    symmetry. apply app_removelast_last.
    rewrite seq_S, map_app. intros H. apply app_eq_nil in H.
    destruct H as [_ H]. discriminate. }
  exists (map f (seq 0 (S m))).
  split; [exact E|].
  split; [rewrite length_map, length_seq; reflexivity|].
  split; [|split; [|split]].
  - intros i Hi. rewrite nth_map_seq by exact Hi. unfold f.
    unfold Rdiv. ring.
  - rewrite last_map_seq. exact Hlast.
  - clear E Hlast Hm Em.
    assert (G : forall k n,
               Forall (fun d => d = IZR t / IZR (t * hz - 1))
                      (diffs (map f (seq k n)))).
    { intros k n. revert k.
      induction n as [|n IH]; intros k; [constructor|].
      destruct n as [|n]; [constructor|].
      change (diffs (map f (seq k (S (S n)))))
        with ((f (S k) - f k) :: diffs (map f (seq (S k) (S n)))).
      constructor; [|apply IH].
      unfold f. rewrite S_INR. unfold Rdiv. ring. }
    apply G.
  - intros H.
    assert (Hhz : IZR hz <> 0).
    { intros H0. apply eq_IZR in H0. subst hz. lia. }
    apply (f_equal (fun x => x * IZR (t * hz - 1) * IZR hz)) in H.
    replace (IZR t / IZR (t * hz - 1) * IZR (t * hz - 1) * IZR hz)
      with (IZR (t * hz)) in H by (rewrite mult_IZR; field; exact Hd).
    replace (1 / IZR hz * IZR (t * hz - 1) * IZR hz)
      with (IZR (t * hz - 1)) in H by (field; exact Hhz).
    apply eq_IZR in H. lia.
Qed.

Lemma scantime_samples_witness :
  (2 <= 1 * 2)%Z /\
  exists ts,
    scantime 1 2 = Return ts /\
    length ts = Z.to_nat (1 * 2) /\
    (forall i, (i < Z.to_nat (1 * 2))%nat ->
               nth i ts 0 = INR i * (IZR 1 / IZR (1 * 2 - 1))) /\
    last ts 0 = IZR 1 /\
    Forall (fun d => d = IZR 1 / IZR (1 * 2 - 1)) (diffs ts) /\
    IZR 1 / IZR (1 * 2 - 1) <> 1 / IZR 2.
Proof.
  assert (H : (2 <= 1 * 2)%Z) by lia.
  split; [exact H|].
  exact (scantime_samples 1 2 H).
Defined.
